(** * monk-js runner: dependency-ordered package command scheduler

    Shallow embedding of [packages/runner/usr/src/utils.ts]
    ([executePackageCommand], [runPackageCommand]) and of the runner's
    [cli.ts].

    Modelling conventions.
    - JavaScript arrays are lists; [indexOf] returns a [Z] ([-1] when the
      element is absent) and [splice] follows ECMAScript's clamping of a
      negative start index.
    - The objects [files] and [deps] are finite maps ([gmap]) holding the
      properties of their own. What these objects and the [dependencies]
      of a manifest inherit from [Object.prototype] is modelled where the
      code reads or writes a property by a computed name: a read under an
      inherited name such as [constructor] yields a truthy value that is
      no array, and an assignment to [__proto__] stores nothing.
    - [JSON.parse(fs.readFileSync(file))] is an oracle [readPackage] that
      either yields a manifest or throws; [processSpawn] is an oracle
      giving the outcome of the call: a synchronous throw, or the settled
      outcome of the child process; the order in which the pending items
      of a chunk settle is an oracle too.
    - The asynchronous run is a state-passing function; its state holds the
      mutable variables of [runPackageCommand] plus a chronological trace
      of start/settle events and the history of frontiers.

    The development also covers the command line utilities
    ([convertToCamelCase], [resolvePath], [getProcessArgs]), the [external]
    list of the bundler and the version package ([setPackageVersion],
    [updatePackageVersion] and its command line), each over the same kind
    of oracles for the file system and the JSON library. Strings are
    sequences of one-byte characters; the case mappings are those of
    JavaScript on ASCII strings, and the statements that depend on them
    assume ASCII input. *)

From Stdlib Require Import ZArith Lia Ascii String.
From stdpp Require Import base list strings gmap fin_maps.

Local Open Scope Z_scope.

(** ** JavaScript array primitives *)

Module Js.

(** [l.indexOf(x)]: first index of [x], or [-1]. *)
Fixpoint indexOf (x : string) (l : list string) : Z :=
  match l with
  | [] => -1
  | y :: l' =>
      if decide (y = x) then 0
      else let r := indexOf x l' in if r <? 0 then -1 else r + 1
  end.

(** A possibly [undefined] string looked up in an array of strings:
    [undefined] is never strictly equal to a string. *)
Definition indexOfV (x : option string) (l : list string) : Z :=
  match x with
  | Some s => indexOf s l
  | None => -1
  end.

(** [l.includes(x)]. *)
Definition includes (x : string) (l : list string) : bool :=
  bool_decide (x ∈ l).

(** [l.splice(start, deleteCount)]: the removed elements and the array
    that remains. A negative [start] counts from the end. *)
Definition splice {A} (l : list A) (start deleteCount : Z) : list A * list A :=
  let len := Z.of_nat (length l) in
  let s := if start <? 0 then Z.max (len + start) 0 else Z.min start len in
  let d := Z.min (Z.max deleteCount 0) (len - s) in
  (take (Z.to_nat d) (drop (Z.to_nat s) l),
   take (Z.to_nat s) l ++ drop (Z.to_nat (s + d)) l).

(** The idiom [l.splice(l.indexOf(x), 1)], as the array left behind. *)
Definition spliceIndexOf (x : option string) (l : list string) : list string :=
  snd (splice l (indexOfV x l) 1).

(** [ToPropertyKey] of a possibly [undefined] string. *)
Definition propKey (x : option string) : string :=
  match x with
  | Some s => s
  | None => "undefined"
  end.

(** [s.split(',')]. *)
Fixpoint splitComma (s : string) : list string :=
  match s with
  | EmptyString => [EmptyString]
  | String c s' =>
      if Ascii.eqb c ","%char then EmptyString :: splitComma s'
      else match splitComma s' with
           | [] => [String c EmptyString]
           | w :: ws => String c w :: ws
           end
  end.

(** Truthiness of a possibly missing string property value. *)
Definition truthy (v : option string) : bool :=
  match v with
  | Some s => negb (String.eqb s EmptyString)
  | None => false
  end.

(** The names of the properties of [Object.prototype]. An object literal
    and an object returned by [JSON.parse] inherit them: read under such a
    name, an object without a property of its own of that name yields a
    function (under [__proto__], the prototype itself), which is truthy,
    is not nullish and has no method [includes]. *)
Definition prototypeNames : list string :=
  ["constructor"; "__defineGetter__"; "__defineSetter__"; "hasOwnProperty";
   "__lookupGetter__"; "__lookupSetter__"; "isPrototypeOf"; "propertyIsEnumerable";
   "toString"; "valueOf"; "__proto__"; "toLocaleString"].

Definition inherited (k : string) : bool := bool_decide (k ∈ prototypeNames).

(** Truthiness of [o[k]] for an object [o] of strings returned by
    [JSON.parse]. *)
Definition truthyProp (o : gmap string string) (k : string) : bool :=
  match o !! k with
  | Some s => truthy (Some s)
  | None => inherited k
  end.

(** [o[k] = v] on an object literal, for a string [v]: [__proto__] names
    the accessor inherited from [Object.prototype], whose setter ignores a
    string; under any other name [v] becomes a property of the object's
    own. *)
Definition assign (k : string) (v : string) (o : gmap string string)
  : gmap string string :=
  if String.eqb k "__proto__" then o else <[k := v]> o.

(** [Math.round(n / 2)] for a natural number [n]: halves round up. *)
Definition roundHalf (n : nat) : Z := (Z.of_nat n + 1) / 2.

End Js.

(** ** Data model *)

Record CommandLineError := mkCommandLineError {
  stdout : string;
  stderr : string;
  code : Z
}.

(** Values that the modelled code throws or rejects with. *)
Inductive Exception :=
| ManifestError (file : string)
    (* fs.readFileSync or JSON.parse threw on [file] *)
| TypeErrorDependencies (file : string)
    (* property read on the undefined [dependencies] of [file] *)
| TypeErrorIncludes (file : string)
    (* [deps[name].includes] is not a function, for the name of [file] *)
| ProcessError (e : CommandLineError)
    (* the child closed with a non-zero code *)
| SpawnError (msg : string).
    (* the child emitted 'error' *)

Record CommandExecutionError := mkCommandExecutionError {
  file : string;
  error : Exception
}.

Record PackageJson := mkPackageJson {
  name : string;
  version : string;
  dependencies : option (gmap string string);
  devDependencies : option (gmap string string)
}.

(** [env.uncheck : boolean | string], possibly absent. *)
Inductive EnvUncheck :=
| EnvAbsent
| EnvBool (b : bool)
| EnvString (s : string).

(** The local variable [uncheck : boolean | string[]] once it is set;
    the code never assigns [false] to it. *)
Inductive Uncheck :=
| UncheckAll
| UncheckList (l : list string).

(** What [runPackageCommand] returns: [false | number | errors]. *)
Inductive RunResult :=
| RFalse
| RCode (n : Z)
| RErrors (l : list CommandExecutionError).

(** How an asynchronous call ends. *)
Inductive Completion :=
| Returned (r : RunResult)
| Threw (e : Exception).

(** What an observer of the run sees happen, in order. *)
Inductive Event :=
| EStart (f : string)
    (* [executePackageCommand] is entered for the item [f] *)
| ESettle (f : string)
    (* the promise of the item [f] has settled *)
| EChunk (chunk : list string)
    (* line 177: a chunk is announced, before its items are started *)
| EDeadlock (names : list (option string)) (graph : gmap string (list string)).
    (* line 169: the residual names and [deps] are reported *)

(** The mutable variables of [runPackageCommand], with two history
    variables: the events so far and the frontier of every round that was
    dispatched. *)
Record State := mkState {
  packagesCopy : list string;
  files : gmap string string;
  deps : gmap string (list string);
  errors : list CommandExecutionError;
  processedFiles : Z;
  trace : list Event;
  rounds : list (list string)
}.

Definition setPackagesCopy (v : list string) (st : State) : State :=
  mkState v (files st) (deps st) (errors st) (processedFiles st) (trace st) (rounds st).
Definition setDeps (v : gmap string (list string)) (st : State) : State :=
  mkState (packagesCopy st) (files st) v (errors st) (processedFiles st) (trace st) (rounds st).
Definition pushError (e : CommandExecutionError) (st : State) : State :=
  mkState (packagesCopy st) (files st) (deps st) (errors st ++ [e]) (processedFiles st)
          (trace st) (rounds st).
Definition addProcessed (n : Z) (st : State) : State :=
  mkState (packagesCopy st) (files st) (deps st) (errors st) (processedFiles st + n)
          (trace st) (rounds st).
Definition emit (e : Event) (st : State) : State :=
  mkState (packagesCopy st) (files st) (deps st) (errors st) (processedFiles st)
          (trace st ++ [e]) (rounds st).
Definition pushRound (r : list string) (st : State) : State :=
  mkState (packagesCopy st) (files st) (deps st) (errors st) (processedFiles st)
          (trace st) (rounds st ++ [r]).

(** The outcome of a whole run: how it ended and the final state. *)
Record Run := mkRun {
  completion : Completion;
  final : State
}.

(** [Partial<RunnerEnv>]. *)
Record RunnerEnv := mkRunnerEnv {
  root : option string;
  uncheck : EnvUncheck;
  packages : option string
}.

(** [for (const x of l) body], where [body] may throw. *)
Fixpoint forOf {A S : Type} (body : S → A → Exception + S) (l : list A) (s : S)
  : Exception + S :=
  match l with
  | [] => inr s
  | x :: l' =>
      match body s x with
      | inl e => inl e
      | inr s' => forOf body l' s'
      end
  end.

Definition len {A} (l : list A) : Z := Z.of_nat (length l).

(** How a call [processSpawn(command, args, options)] ends. *)
Inductive SpawnOutcome :=
| Resolves
    (* the child closed with the code 0 *)
| Rejects (e : Exception)
    (* the child closed with another code, or emitted 'error' *)
| Throws (e : Exception).
    (* [spawn] threw before a promise was returned *)

(** The external collaborators of a run. *)
Record World := mkWorld {
  (** [path.dirname] and [path.resolve]. *)
  dirname : string → string;
  resolve : string → string;
  (** [JSON.parse(fs.readFileSync(file, 'utf-8'))]; [None] when it throws. *)
  readPackage : string → option PackageJson;
  (** [processSpawn(command, args, {cwd, shell: true})]: a synchronous
      throw, or the promise it returns, once settled. *)
  processSpawn : string → list string → string → SpawnOutcome;
  (** The order in which the pending promises of a chunk settle. A child
      that never closes is an item that the order leaves out: the code
      then waits for ever on line 178, so that a run of the model is a
      run of the code only when the order is a permutation of the pending
      items ([fairSettle] below). *)
  settleOrder : list string → list string;
  (** [cpus().length]. *)
  cpus : nat
}.

(** ** The runner, over its external collaborators *)

Section Runner.

Variable w : World.

(** Line 118. *)
Definition maxThreads : Z := Z.max (Js.roundHalf (cpus w)) 2.

(** Lines 131-138. *)
Definition parseUncheck (u : EnvUncheck) : Uncheck :=
  match u with
  | EnvBool true => UncheckAll
  | EnvString s =>
      if String.eqb s "*" then UncheckAll else UncheckList (Js.splitComma s)
  | _ => UncheckList []
  end.

(** *** Dependency graph construction (lines 140-159) *)

(** Body of the inner loop, for the manifest [cur] of the outer loop. *)
Definition scanInner (unchecked : list string) (cur : PackageJson)
    (d : gmap string (list string)) (f : string)
  : Exception + gmap string (list string) :=
  match readPackage w f with
  | None => inl (ManifestError f)
  | Some packageInfo =>
      (* line 149: nothing is assigned when [deps] has or inherits the name *)
      let d1 := match d !! name packageInfo with
                | Some _ => d
                | None =>
                    if Js.inherited (name packageInfo) then d
                    else <[name packageInfo := []]> d
                end in
      if Js.includes (name packageInfo) unchecked then inr d1
      else
        match dependencies packageInfo with
        | None => inl (TypeErrorDependencies f)
        | Some declared =>
            if Js.truthyProp declared (name cur) then
              match d1 !! name packageInfo with
              | None => inl (TypeErrorIncludes f)
              | Some own =>
                  if Js.includes (name cur) own then inr d1
                  else inr (<[name packageInfo := own ++ [name cur]]> d1)
              end
            else inr d1
        end
  end.

(** Body of the outer loop. *)
Definition scanOuter (unchecked : list string) (pk : list string)
    (g : gmap string string * gmap string (list string)) (currentFile : string)
  : Exception + (gmap string string * gmap string (list string)) :=
  match readPackage w currentFile with
  | None => inl (ManifestError currentFile)
  | Some cur =>
      match forOf (scanInner unchecked cur) pk (snd g) with
      | inl e => inl e
      | inr d => inr (Js.assign currentFile (name cur) (fst g), d)
      end
  end.

Definition buildGraph (unchecked : list string) (pk : list string)
  : Exception + (gmap string string * gmap string (list string)) :=
  forOf (scanOuter unchecked pk) pk (∅, ∅).

(** *** Item execution (lines 84-102) and one chunk (line 178) *)

(** What stops [executePackageCommand] before its [await]: reading the
    manifest throws, or the call of [processSpawn] throws. *)
Definition failsEarly (command : string) (args : list string) (f : string)
  : option Exception :=
  match readPackage w f with
  | None => Some (ManifestError f)
  | Some _ =>
      match processSpawn w command args (resolve w (dirname w f)) with
      | Throws e => Some e
      | _ => None
      end
  end.

(** The synchronous prefix of [executePackageCommand]: up to the
    [await], or through the [catch] when something throws before it. *)
Definition startItem (command : string) (args : list string)
    (acc : State * list string) (f : string) : State * list string :=
  let buildDirectory := dirname w f in
  let st := emit (EStart f) (fst acc) in
  match failsEarly command args f with
  | Some e =>
      (emit (ESettle f) (pushError (mkCommandExecutionError buildDirectory e) st),
       snd acc)
  | None => (st, snd acc ++ [f])
  end.

(** The continuation of [executePackageCommand] after the [await]. *)
Definition settleItem (command : string) (args : list string) (st : State) (f : string)
  : State :=
  let buildDirectory := dirname w f in
  match processSpawn w command args (resolve w buildDirectory) with
  | Rejects e => emit (ESettle f) (pushError (mkCommandExecutionError buildDirectory e) st)
  | _ => emit (ESettle f) st
  end.

(** [await Promise.allSettled(chunk.map(buildCommand))]. *)
Definition allSettled (command : string) (args : list string) (chunk : list string)
    (st : State) : State :=
  let started := foldl (startItem command args) (st, []) chunk in
  foldl (settleItem command args) (fst started) (settleOrder w (snd started)).

(** The [while (chunks.length > 0)] loop (lines 175-180). *)
Fixpoint dispatchChunks (fuel : nat) (command : string) (args : list string)
    (chunks : list string) (st : State) : option State :=
  match chunks with
  | [] => Some st
  | _ :: _ =>
      match fuel with
      | O => None
      | S k =>
          let chunk := fst (Js.splice chunks 0 maxThreads) in
          let rest := snd (Js.splice chunks 0 maxThreads) in
          let st1 := allSettled command args chunk (emit (EChunk chunk) st) in
          dispatchChunks k command args rest (addProcessed (len chunk) st1)
      end
  end.

(** *** The scheduler loop (lines 164-199) *)

(** The filter predicate of line 166. Line 146 has stored the alias of
    every path of the list as a property of [files] of its own, the path
    [__proto__] apart, for which nothing is stored: the statements that
    depend on the alias of a path leave that path out. *)
Definition isReady (st : State) (f : string) : bool :=
  match deps st !! Js.propKey (files st !! f) with
  | Some l => len l =? 0
  | None => false
  end.

Definition emptyPackages (u : Uncheck) (st : State) : list string :=
  match u with
  | UncheckAll => packagesCopy st
  | UncheckList _ => List.filter (isReady st) (packagesCopy st)
  end.

(** Body of the retirement loop (lines 183-194). *)
Definition retireOne (st : State) (f : string) : State :=
  let pk := Js.spliceIndexOf (Some f) (packagesCopy st) in
  let packageName := files st !! f in
  let d := delete (Js.propKey packageName) (deps st) in
  setDeps (Js.spliceIndexOf packageName <$> d) (setPackagesCopy pk st).

(** Lines 202-208. *)
Definition finish (st : State) : Run :=
  if len (errors st) >? 0 then mkRun (Returned (RErrors (errors st))) st
  else mkRun (Returned RFalse) st.

Fixpoint doWhile (fuel : nat) (u : Uncheck) (command : string) (args : list string)
    (st : State) : option Run :=
  match fuel with
  | O => None
  | S k =>
      let ready := emptyPackages u st in
      if (len ready =? 0) && (len (packagesCopy st) >? 0) then
        Some (mkRun (Returned (RCode 1))
                (emit (EDeadlock (map (λ f, files st !! f) (packagesCopy st)) (deps st)) st))
      else
        match dispatchChunks (length ready) command args ready (pushRound ready st) with
        | None => None
        | Some st1 =>
            match u with
            | UncheckAll => Some (finish st1)
            | UncheckList _ =>
                let st2 := foldl retireOne st1 ready in
                if len (packagesCopy st2) >? 0 then doWhile k u command args st2
                else Some (finish st2)
            end
        end
  end.

Definition initialState (pk : list string) (g : gmap string string * gmap string (list string))
  : State :=
  mkState pk (fst g) (snd g) [] 0 [] [].

(** [runPackageCommand(env, packages, command, args)]. [None] only if the
    loops ran out of fuel, which [runPackageCommand_returns] excludes. *)
Definition runPackageCommand (env : RunnerEnv) (pk : list string)
    (command : string) (args : list string) : option Run :=
  match parseUncheck (uncheck env) with
  | UncheckAll =>
      doWhile (S (length pk)) UncheckAll command args (initialState pk (∅, ∅))
  | UncheckList l =>
      match buildGraph l pk with
      | inl e => Some (mkRun (Threw e) (initialState pk (∅, ∅)))
      | inr g => doWhile (S (length pk)) (UncheckList l) command args (initialState pk g)
      end
  end.

(** *** The command line entry point (cli.ts, lines 15-23) *)

(** JavaScript truthiness of [false | number | CommandExecutionError[]]. *)
Definition truthyResult (r : RunResult) : bool :=
  match r with
  | RFalse => false
  | RCode n => negb (n =? 0)
  | RErrors _ => true
  end.

(** The exit code of the process: [process.exit(1)] when the awaited
    result is falsy, the default [0] when the module runs to its end, and
    [1] for a rejection of the top-level [await]. [command] is
    [args.shift()]. *)
Definition cliExitCode (env : RunnerEnv) (pk : list string)
    (command : option string) (args : list string) : option Z :=
  match command with
  | None => Some 0
  | Some c =>
      match runPackageCommand env pk c args with
      | None => None
      | Some r =>
          match completion r with
          | Threw _ => Some 1
          | Returned res => if negb (truthyResult res) then Some 1 else Some 0
          end
      end
  end.

End Runner.

(** The part of the state that decides scheduling. *)
Definition schedule (st : State)
  : list string * gmap string string * gmap string (list string) * list (list string) :=
  (packagesCopy st, files st, deps st, rounds st).

(** ** Vocabulary for traces and for what a chunk contributes *)

(** The items started, and the items settled, in a trace. *)
Definition started (tr : list Event) : list string :=
  tr ≫= λ e, match e with EStart f => [f] | _ => [] end.
Definition settled (tr : list Event) : list string :=
  tr ≫= λ e, match e with ESettle f => [f] | _ => [] end.

(** The number of items that have started and not yet settled. *)
Definition inflight (tr : list Event) : Z := len (started tr) - len (settled tr).

(** A state with more events and more recorded failures. *)
Definition extend (evs : list Event) (errs : list CommandExecutionError) (st : State)
  : State :=
  mkState (packagesCopy st) (files st) (deps st) (errors st ++ errs) (processedFiles st)
          (trace st ++ evs) (rounds st).

(** Every pending promise of a chunk settles, once. *)
Definition fairSettle (w : World) : Prop := ∀ l, settleOrder w l ≡ₚ l.


(** A run that ended on the deadlock code. *)
Definition deadlocked (r : Run) : Prop := completion r = Returned (RCode 1).

Section ChunkContribution.

Variable w : World.
Variables (command : string) (args : list string).

(** Events of the synchronous prefixes of a chunk's items: every item is
    started, in the order of the chunk, and one that fails before its
    [await] settles before the next item is started. *)
Definition startEvents (chunk : list string) : list Event :=
  chunk ≫= λ f, match failsEarly w command args f with
                | Some _ => [EStart f; ESettle f]
                | None => [EStart f]
                end.

(** The items of a chunk that reach their [await]. *)
Definition pendingOf (chunk : list string) : list string :=
  List.filter (λ f, bool_decide (failsEarly w command args f = None)) chunk.

Definition syncErrors (chunk : list string) : list CommandExecutionError :=
  chunk ≫= λ f, match failsEarly w command args f with
                | Some e => [mkCommandExecutionError (dirname w f) e]
                | None => []
                end.

Definition asyncErrors (l : list string) : list CommandExecutionError :=
  l ≫= λ f, match processSpawn w command args (resolve w (dirname w f)) with
            | Rejects e => [mkCommandExecutionError (dirname w f) e]
            | _ => []
            end.

(** The events of a chunk: its announcement, the synchronous prefixes of
    all its items, then the settling of the items that reached their
    [await]. *)
Definition chunkEvents (chunk : list string) : list Event :=
  EChunk chunk :: startEvents chunk ++ (ESettle <$> settleOrder w (pendingOf chunk)).

Definition chunkErrors (chunk : list string) : list CommandExecutionError :=
  syncErrors chunk ++ asyncErrors (settleOrder w (pendingOf chunk)).

End ChunkContribution.

(** ** Vocabulary for dependency graphs *)

(** [p] occurs in the unresolved list that the graph keeps for [q]. *)
Definition unresolvedIn (d : gmap string (list string)) (p q : string) : Prop :=
  ∃ l, d !! q = Some l ∧ p ∈ l.

(** No key of the graph is a name that [deps] inherits: line 149 never
    assigns under such a name. *)
Definition properKeys (d : gmap string (list string)) : Prop :=
  ∀ k, is_Some (d !! k) → Js.inherited k = false.

(** The adjacency of a finished construction; [None] when it threw. *)
Definition adjacency
    (r : Exception + (gmap string string * gmap string (list string)))
  : option (gmap string (list string)) :=
  match r with
  | inl _ => None
  | inr g => Some (snd g)
  end.

Section Edges.

Variable w : World.
Variable unchecked : list string.
Variable pk : list string.


(** The edges the construction adds: [p] and [q] name packages of the
    universe, [q] is not exempted and is no name that [deps] inherits, and
    the runtime dependencies of [q] yield a truthy value under the name
    [p]: a non-empty string of their own, or what they inherit when [p]
    is a name of [Object.prototype] that they do not hold. *)
Definition declaredEdge (p q : string) : Prop :=
  (q ∉ unchecked) ∧ Js.inherited q = false
  ∧ ∃ fp fq mp mq declared,
      fp ∈ pk ∧ fq ∈ pk
      ∧ readPackage w fp = Some mp ∧ name mp = p
      ∧ readPackage w fq = Some mq ∧ name mq = q
      ∧ dependencies mq = Some declared ∧ Js.truthyProp declared p = true.

End Edges.

(** What graph construction over the files [l] can throw: the read of an
    unreadable manifest, the property read on the missing [dependencies]
    of a manifest whose name is not exempted, or the call of [includes]
    on what [deps] inherits under the name of a manifest that is not
    exempted and has [dependencies]. *)
Definition thrownBy (w : World) (unchecked : list string) (l : list string)
    (e : Exception) : Prop :=
  (∃ f, f ∈ l ∧ readPackage w f = None ∧ e = ManifestError f)
  ∨ (∃ f m, f ∈ l ∧ readPackage w f = Some m ∧ dependencies m = None
            ∧ (name m ∉ unchecked) ∧ e = TypeErrorDependencies f)
  ∨ (∃ f m, f ∈ l ∧ readPackage w f = Some m ∧ is_Some (dependencies m)
            ∧ (name m ∉ unchecked) ∧ Js.inherited (name m) = true
            ∧ e = TypeErrorIncludes f).

(** Outcomes that agree up to what the exception mentions. *)
Definition sameOutcome {S} (r1 r2 : Exception + S) : Prop :=
  match r1, r2 with
  | inl _, inl _ => True
  | inr s1, inr s2 => s1 = s2
  | _, _ => False
  end.

(** ** Vocabulary for bounded concurrency *)

(** The chunks announced in a trace. *)
Definition chunksOf (tr : list Event) : list (list string) :=
  tr ≫= λ e, match e with EChunk c => [c] | _ => [] end.

(** The change of the number of items in flight made by one event. *)
Definition delta (e : Event) : Z :=
  match e with
  | EStart _ => 1
  | ESettle _ => -1
  | _ => 0
  end.

(** A trace that, entered with [cur] items in flight, never has fewer than
    zero or more than [n] items in flight, and announces a chunk, of at
    least one and at most [n] items, only when nothing is in flight. *)
Fixpoint within (n : Z) (cur : Z) (tr : list Event) : Prop :=
  match tr with
  | [] => True
  | e :: tr' =>
      0 ≤ cur + delta e ≤ n
      ∧ match e with
        | EChunk c => cur = 0 ∧ 0 < len c ≤ n
        | _ => True
        end
      ∧ within n (cur + delta e) tr'
  end.

(** An entry of the error list that the failure of the item [f] explains:
    it carries the directory of [f] and what reading its manifest threw,
    what the call of [processSpawn] threw, or what its command was
    rejected with. *)
Definition explainedBy (w : World) (command : string) (args : list string)
    (e : CommandExecutionError) (f : string) : Prop :=
  file e = dirname w f
  ∧ ((readPackage w f = None ∧ error e = ManifestError f)
     ∨ (is_Some (readPackage w f)
        ∧ (processSpawn w command args (resolve w (dirname w f)) = Throws (error e)
           ∨ processSpawn w command args (resolve w (dirname w f)) = Rejects (error e)))).

(** A scheduler state that is consistent with an edge relation [E] on
    names: every remaining file has a name that is a key of [deps], and
    every unresolved list is free of duplicates and holds only sources of
    [E]-edges that are names of remaining files. *)
Definition consistentWith (E : string → string → Prop) (st : State) : Prop :=
  (∀ f, f ∈ packagesCopy st → ∃ n, files st !! f = Some n ∧ is_Some (deps st !! n))
  ∧ (∀ n l, deps st !! n = Some l →
            NoDup l
            ∧ ∀ p, p ∈ l → E p n ∧ ∃ f, f ∈ packagesCopy st ∧ files st !! f = Some p).

(** ** The command line utilities (package utils) *)

(** JavaScript string primitives, on strings of one-byte characters. On
    ASCII strings (every character below 128) [toLowerCase] and
    [toUpperCase] are the case mappings of JavaScript, which there change
    the letters A-Z and a-z only; JavaScript also maps letters outside
    ASCII, some of them to several characters, which the model leaves as
    they are: a statement that depends on the case of its input assumes
    [isAscii]. *)
Module Str.

(** Every character of the string is below 128. *)
Fixpoint isAscii (s : string) : bool :=
  match s with
  | EmptyString => true
  | String c s' => (nat_of_ascii c <? 128)%nat && isAscii s'
  end.

Definition isUpper (c : ascii) : bool :=
  (65 <=? nat_of_ascii c)%nat && (nat_of_ascii c <=? 90)%nat.
Definition isLower (c : ascii) : bool :=
  (97 <=? nat_of_ascii c)%nat && (nat_of_ascii c <=? 122)%nat.
Definition lowerChar (c : ascii) : ascii :=
  if isUpper c then ascii_of_nat (nat_of_ascii c + 32) else c.
Definition upperChar (c : ascii) : ascii :=
  if isLower c then ascii_of_nat (nat_of_ascii c - 32) else c.

Fixpoint mapChars (f : ascii → ascii) (s : string) : string :=
  match s with
  | EmptyString => EmptyString
  | String c s' => String (f c) (mapChars f s')
  end.

(** [s.toLowerCase()] and [s.toUpperCase()]. *)
Definition toLowerCase : string → string := mapChars lowerChar.
Definition toUpperCase : string → string := mapChars upperChar.

(** [s.indexOf(pat)]: the first position at which [pat] occurs, or [-1]. *)
Fixpoint indexOf (pat s : string) : Z :=
  if String.prefix pat s then 0
  else match s with
       | EmptyString => -1
       | String _ s' => let r := indexOf pat s' in if r <? 0 then -1 else r + 1
       end.

(** [s.includes(pat)]. *)
Definition includes (pat s : string) : bool := 0 <=? indexOf pat s.

Fixpoint dropChars (n : nat) (s : string) : string :=
  match n, s with
  | S k, String _ s' => dropChars k s'
  | _, _ => s
  end.
Fixpoint takeChars (n : nat) (s : string) : string :=
  match n, s with
  | S k, String c s' => String c (takeChars k s')
  | _, _ => EmptyString
  end.

(** [s.substring(start, end)]: both indices are clamped to the string and
    swapped when they come in the wrong order. *)
Definition substring (s : string) (start stop : Z) : string :=
  let n := Z.of_nat (String.length s) in
  let a := Z.max 0 (Z.min start n) in
  let b := Z.max 0 (Z.min stop n) in
  takeChars (Z.to_nat (Z.max a b - Z.min a b)) (dropChars (Z.to_nat (Z.min a b)) s).

(** [s.substring(start)]. *)
Definition substringFrom (s : string) (start : Z) : string :=
  substring s start (Z.of_nat (String.length s)).

(** [s.charAt(0)]. *)
Definition charAt0 (s : string) : string :=
  match s with
  | EmptyString => EmptyString
  | String c _ => String c EmptyString
  end.

(** The words of [s.split(sep)] for a non-empty [sep]; [skip] counts the
    characters of a separator that are still to be passed over. *)
Fixpoint splitGo (sep : string) (skip : nat) (s : string) : list string :=
  match s with
  | EmptyString => [EmptyString]
  | String c s' =>
      match skip with
      | S k => splitGo sep k s'
      | O =>
          if String.prefix sep s
          then EmptyString :: splitGo sep (String.length sep - 1) s'
          else match splitGo sep 0 s' with
               | [] => [String c EmptyString]
               | word :: words => String c word :: words
               end
      end
  end.

Fixpoint chars (s : string) : list string :=
  match s with
  | EmptyString => []
  | String c s' => String c EmptyString :: chars s'
  end.

(** [s.split(sep)]. *)
Definition split (sep s : string) : list string :=
  match sep with
  | EmptyString => chars s
  | String _ _ => splitGo sep 0 s
  end.

(** [words.join('')]. *)
Definition join (words : list string) : string := foldr String.append EmptyString words.

(** The characters of a string. *)
Fixpoint occurs (c : ascii) (s : string) : Prop :=
  match s with
  | EmptyString => False
  | String c' s' => c' = c ∨ occurs c s'
  end.

End Str.

Module Utils.

(** [ScriptEnvValue = string | number | boolean | null]. A number is kept
    as the string that [toString] prints for it, which is the only thing
    the parser compares. *)
Inductive ScriptEnvValue :=
| VString (s : string)
| VNumber (printed : string)
| VBool (b : bool)
| VNull.

(** Lines 172-178 of the utilities. *)
Definition convertToCamelCase (value delim : string) : string :=
  Str.join
    match Str.split delim (Str.toLowerCase value) with
    | [] => []
    | word :: words =>
        word :: ((λ word, Str.toUpperCase (Str.charAt0 word) +:+ Str.substringFrom word 1)
                   <$> words)
    end.

(** [path.win32], an object on every platform, is truthy: the backslashes
    of the resolved path are always replaced (lines 160-163). *)
Definition resolvePath (pathResolve : string → string → string) (file basePath : string)
  : string :=
  let normalizedPath := pathResolve basePath file in
  Str.mapChars (λ c, if Ascii.eqb c "\"%char then "/"%char else c) normalizedPath.

(** The value returned by [getProcessArgs]; [env] holds the properties
    of its own of the object [env]. *)
Record ProcessArgs := mkProcessArgs {
  env : gmap string ScriptEnvValue;
  args : list ScriptEnvValue
}.

(** The object [env] while it is filled: the properties of its own, and
    whether it still inherits from [Object.prototype]. *)
Definition Env : Type := gmap string ScriptEnvValue * bool.

(** [env[k] = v]. Under the name [__proto__] an object that inherits from
    [Object.prototype] stores nothing: the inherited setter drops the
    prototype when [v] is [null] and ignores any other primitive. Once the
    prototype is dropped, [__proto__] is a name like any other. *)
Definition setEnv (k : string) (v : ScriptEnvValue) (e : Env) : Env :=
  if String.eqb k "__proto__" && snd e then
    match v with
    | VNull => (fst e, false)
    | _ => e
    end
  else (<[k := v]> (fst e), snd e).

(** The variables of the loop of [getProcessArgs]; [value] is assigned
    anew before each use. *)
Record ArgLoop := mkArgLoop {
  loopEnv : Env;
  loopArgs : list ScriptEnvValue;
  key : option string
}.

Section GetProcessArgs.

(** Whether [parseInt(value).toString() == value] or
    [parseFloat(value).toString() == value] holds. *)
Variable numeric : string → bool.

(** The conversion of a string to a native type (lines 221-238). *)
Definition convert (value : string) : ScriptEnvValue :=
  let lower := Str.toLowerCase value in
  if String.eqb lower "true" then VBool true
  else if String.eqb lower "false" then VBool false
  else if String.eqb lower "null" then VNull
  else if numeric value then VNumber value
  else VString value.

(** [if (key != null) env[key] = true]. *)
Definition flag (st : ArgLoop) : Env :=
  match key st with
  | Some k => setEnv k (VBool true) (loopEnv st)
  | None => loopEnv st
  end.

(** The body of the loop (lines 199-247). *)
Definition argStep (st : ArgLoop) (arg : string) : ArgLoop :=
  if (Str.indexOf "--" arg =? 0) && negb (Str.includes "=" arg) then
    mkArgLoop (flag st) (loopArgs st)
      (Some (convertToCamelCase (Str.substringFrom arg 2) "-"))
  else
    let st1 :=
      if (Str.indexOf "--" arg =? 0) && negb (Str.indexOf "=" arg =? -1)
      then mkArgLoop (flag st) (loopArgs st)
             (Some (convertToCamelCase (Str.substring arg 2 (Str.indexOf "=" arg)) "-"))
      else st in
    let value :=
      if (Str.indexOf "--" arg =? 0) && negb (Str.indexOf "=" arg =? -1)
      then Str.substringFrom arg (Str.indexOf "=" arg + 1)
      else arg in
    match key st1 with
    | Some k => mkArgLoop (setEnv k (convert value) (loopEnv st1)) (loopArgs st1) None
    | None => mkArgLoop (loopEnv st1) (loopArgs st1 ++ [convert value]) None
    end.

(** [getProcessArgs(processArgs)] (lines 189-260). *)
Definition getProcessArgs (processArgs : list string) : ProcessArgs :=
  let st := foldl argStep (mkArgLoop (∅, true) [] None) (drop 2 processArgs) in
  mkProcessArgs (fst (flag st)) (loopArgs st).

End GetProcessArgs.

End Utils.


(** ** The bundler ([packages/bundler/usr/src/utils.ts]) *)

Module Bundler.

(** [s.startsWith(pat)]. *)
Definition startsWith (pat s : string) : bool := String.prefix pat s.

(** [s.endsWith(pat)]: some suffix of [s] is [pat]. *)
Fixpoint endsWith (pat s : string) : bool :=
  String.eqb s pat
  || match s with
     | EmptyString => false
     | String _ s' => endsWith pat s'
     end.

(** [s.lastIndexOf(pat)]: the last position at which [pat] occurs, or
    [-1]. *)
Fixpoint lastIndexOf (pat s : string) : Z :=
  match s with
  | EmptyString => if String.prefix pat s then 0 else -1
  | String _ s' =>
      let r := lastIndexOf pat s' in
      if 0 <=? r then r + 1 else if String.prefix pat s then 0 else -1
  end.

(** An element of [external : (string | RegExp)[]]; a regular expression
    is kept as the arguments it is built from. *)
Inductive External :=
| Name (name : string)
| Pattern (source flags : string).

(** The array [external] of [buildJs] and [buildDts] (lines 40-45 and
    103-108), from [env.external]. *)
Definition externals (external : option Utils.ScriptEnvValue) : list External :=
  match external with
  | Some (Utils.VString s) =>
      if startsWith "/" s && endsWith "/" s
      then [Pattern (Str.substring s 1 (lastIndexOf "/" s))
              (Str.substringFrom s (lastIndexOf "/" s + 1))]
      else Name <$> Str.split "," s
  | _ => []
  end ++ [Pattern "node_modules" EmptyString].

End Bundler.

(** ** The version package ([packages/version/usr/src]) *)

Module Version.

(** What the [try] block of [setPackageVersion] can throw. *)
Inductive Thrown :=
| ReadFileError    (* [fs.readFileSync] threw *)
| JsonSyntaxError  (* [JSON.parse] threw *)
| NameError        (* reading [packageInfo.name] threw *)
| AssignError      (* assigning [packageInfo.version] threw *)
| WriteFileError.  (* [fs.writeFileSync] threw *)

(** An entry [{file, error}] of the error list. *)
Record Failure := mkFailure {
  file : string;
  error : Thrown
}.

(** The JSON library and the disk, as far as [setPackageVersion] uses
    them, on the values [json] that [JSON.parse] returns. *)
Record Oracle := mkOracle {
  json : Type;
  (** [JSON.parse(text)]; [None] when it throws. *)
  jsonParse : string → option json;
  (** Whether [packageInfo.name] can be read: it throws on [null]. *)
  nameReadable : json → bool;
  (** The value after [packageInfo.version = version]; [None] when the
      assignment throws. *)
  assignVersion : json → string → option json;
  (** [JSON.stringify(packageInfo, null, 2)]. *)
  jsonStringify : json → string;
  (** Whether [fs.writeFileSync(file, _)] succeeds. *)
  writable : string → bool
}.

(** What [updatePackageVersion] returns: [false | errors]. *)
Inductive Result :=
| VFalse
| VErrors (l : list Failure).

(** The files on disk and the mutable variables of
    [updatePackageVersion]. *)
Record State := mkState {
  disk : gmap string string;
  errors : list Failure;
  processedFiles : Z
}.

Definition pushError (e : Failure) (st : State) : State :=
  mkState (disk st) (errors st ++ [e]) (processedFiles st).
Definition writeFile (f text : string) (st : State) : State :=
  mkState (<[f := text]> (disk st)) (errors st) (processedFiles st).
Definition addProcessed (n : Z) (st : State) : State :=
  mkState (disk st) (errors st) (processedFiles st + n).

Section Update.

Variable w : World.
Variable o : Oracle.
Variable version : string.

(** The [try] block of [setPackageVersion] up to [await null]
    (lines 46-48). *)
Definition start (d : gmap string string) (f : string) : Thrown + json o :=
  match d !! f with
  | None => inl ReadFileError
  | Some text =>
      match jsonParse o text with
      | None => inl JsonSyntaxError
      | Some packageInfo =>
          if nameReadable o packageInfo then inr packageInfo else inl NameError
      end
  end.

(** The [try] block after [await null] (lines 49-51): the text that is
    written to the file. *)
Definition resume (f : string) (packageInfo : json o) : Thrown + string :=
  match assignVersion o packageInfo version with
  | None => inl AssignError
  | Some packageInfo' =>
      if writable o f then inr (jsonStringify o packageInfo') else inl WriteFileError
  end.

(** [setPackageVersion(errors, version, file)] up to its [await]; a call
    that reaches it is left pending with its [packageInfo]. *)
Definition startItem (acc : State * list (string * json o)) (f : string)
  : State * list (string * json o) :=
  let buildDirectory := dirname w f in
  match start (disk (fst acc)) f with
  | inl e => (pushError (mkFailure buildDirectory e) (fst acc), snd acc)
  | inr packageInfo => (fst acc, snd acc ++ [(f, packageInfo)])
  end.

(** The continuation of a pending call. *)
Definition resumeItem (st : State) (p : string * json o) : State :=
  let buildDirectory := dirname w (fst p) in
  match resume (fst p) (snd p) with
  | inl e => pushError (mkFailure buildDirectory e) st
  | inr text => writeFile (fst p) text st
  end.

(** [await Promise.allSettled(chunk.map(buildCommand))]: the calls run to
    their [await] in the order of the chunk, then the pending ones resume
    in that order. *)
Definition allSettled (chunk : list string) (st : State) : State :=
  let started := foldl startItem (st, []) chunk in
  foldl resumeItem (fst started) (snd started).

(** The [while (packagesCopy.length > 0)] loop (lines 84-89). *)
Fixpoint updateLoop (fuel : nat) (packagesCopy : list string) (st : State)
  : option State :=
  match packagesCopy with
  | [] => Some st
  | _ :: _ =>
      match fuel with
      | O => None
      | S k =>
          let chunk := fst (Js.splice packagesCopy 0 (maxThreads w)) in
          let rest := snd (Js.splice packagesCopy 0 (maxThreads w)) in
          updateLoop k rest (addProcessed (len chunk) (allSettled chunk st))
      end
  end.

(** [updatePackageVersion(packages, version)] on the disk [d]: the result
    and the disk it leaves. [None] only if the loop ran out of fuel. *)
Definition updatePackageVersion (d : gmap string string) (packages : list string)
  : option (Result * gmap string string) :=
  match updateLoop (length packages) packages (mkState d [] 0) with
  | None => None
  | Some st =>
      Some (if len (errors st) >? 0 then VErrors (errors st) else VFalse, disk st)
  end.

End Update.

(** The exit code of the version command line (cli.ts, lines 14-22):
    [process.exit(1)] when the awaited result is falsy, the default [0]
    otherwise; [version] is [env.version]. *)
Definition cliExitCode (w : World) (o : Oracle) (version : option string)
    (d : gmap string string) (packages : list string) : option Z :=
  match version with
  | None => Some 0
  | Some v =>
      match updatePackageVersion w o v d packages with
      | None => None
      | Some (VFalse, _) => Some 1
      | Some (VErrors _, _) => Some 0
      end
  end.

(** What happens to the file [f] when it is processed on the disk [d]:
    the new text, or what is thrown. *)
Definition attempt (o : Oracle) (version : string) (d : gmap string string) (f : string)
  : Thrown + string :=
  match start o d f with
  | inl e => inl e
  | inr packageInfo => resume o version f packageInfo
  end.

(** The entry of the error list for [f], if processing it throws. *)
Definition failure (w : World) (o : Oracle) (version : string) (d : gmap string string)
    (f : string) : list Failure :=
  match attempt o version d f with
  | inl e => [mkFailure (dirname w f) e]
  | inr _ => []
  end.

(** The content of [f] after it is processed on the disk [d]. *)
Definition target (o : Oracle) (version : string) (d : gmap string string) (f : string)
  : option string :=
  match attempt o version d f with
  | inl _ => d !! f
  | inr text => Some text
  end.

(** The failures pushed before the [await] and the calls left pending, for
    a chunk started on the disk [d]. *)
Definition syncFailures (w : World) (o : Oracle) (d : gmap string string) (chunk : list string)
  : list Failure :=
  chunk ≫= λ f, match start o d f with
                | inl e => [mkFailure (dirname w f) e]
                | inr _ => []
                end.
Definition pendingCalls (o : Oracle) (d : gmap string string) (chunk : list string)
  : list (string * json o) :=
  chunk ≫= λ f, match start o d f with
                | inl _ => []
                | inr packageInfo => [(f, packageInfo)]
                end.
Definition asyncFailures (w : World) (o : Oracle) (version : string) (pending : list (string * json o))
  : list Failure :=
  pending ≫= λ p, match resume o version (fst p) (snd p) with
                  | inl e => [mkFailure (dirname w (fst p)) e]
                  | inr _ => []
                  end.


(** The file [f] holds the text of a value to which the version was
    assigned. *)
Definition carriesVersion (o : Oracle) (version : string) (d : gmap string string)
    (f : string) : Prop :=
  ∃ packageInfo packageInfo',
    assignVersion o packageInfo version = Some packageInfo'
    ∧ d !! f = Some (jsonStringify o packageInfo').

End Version.

(** ** Example universes *)

Module Examples.

(** A manifest with runtime dependencies [ds], each at version [*]. *)
Definition manifest (n : string) (ds : list string) : PackageJson :=
  mkPackageJson n "1.0.0" (Some (list_to_map ((λ d, (d, "*")) <$> ds))) None.

(** [path.dirname] on paths of the shape [<dir>/package.json]. *)
Definition dirnameOf (f : string) : string :=
  substring 0 (String.length f - 13) f.

(** A host with four logical CPUs on which every command succeeds and
    promises settle in the order they were created. *)
Definition world (fs : string → option PackageJson) : World :=
  mkWorld dirnameOf id fs (λ _ _ _, Resolves) id 4.

Definition lookupFs (table : list (string * PackageJson)) (f : string)
  : option PackageJson :=
  snd <$> List.find (λ e, String.eqb (fst e) f) table.

(** A chain: C depends on B, B depends on A. *)
Definition chainFs : string → option PackageJson :=
  lookupFs [("a/package.json", manifest "A" []);
            ("b/package.json", manifest "B" ["A"]);
            ("c/package.json", manifest "C" ["B"])].
Definition chainPackages : list string :=
  ["a/package.json"; "b/package.json"; "c/package.json"].

(** The two-node cycle: A depends on B, B depends on A. *)
Definition cycleFs : string → option PackageJson :=
  lookupFs [("a/package.json", manifest "A" ["B"]);
            ("b/package.json", manifest "B" ["A"])].
Definition cyclePackages : list string := ["a/package.json"; "b/package.json"].


(** A single manifest without a [dependencies] field. *)
Definition bareFs : string → option PackageJson :=
  lookupFs [("a/package.json", mkPackageJson "A" "1.0.0" None None)].
Definition barePackages : list string := ["a/package.json"].

(** The chain universe checked out under another directory. *)
Definition movedChainFs : string → option PackageJson :=
  lookupFs [("ws/a/package.json", manifest "A" []);
            ("ws/b/package.json", manifest "B" ["A"]);
            ("ws/c/package.json", manifest "C" ["B"])].
Definition movedChainPackages : list string :=
  ["ws/a/package.json"; "ws/b/package.json"; "ws/c/package.json"].

(** The chain universe on a host where the command fails in directory
    [b] with exit code 1. *)
Definition failsInB : string → list string → string → SpawnOutcome :=
  λ _ _ cwd,
    if String.eqb cwd "b"
    then Rejects (ProcessError (mkCommandLineError EmptyString "build failed" 1))
    else Resolves.
Definition flakyChain : World := mkWorld dirnameOf id chainFs failsInB id 4.

(** A package whose name is a property of [Object.prototype], next to a
    package B that declares no dependency. *)
Definition protoFs : string → option PackageJson :=
  lookupFs [("x/package.json", manifest "constructor" []);
            ("b/package.json", manifest "B" [])].
Definition protoPackages : list string := ["x/package.json"; "b/package.json"].

(** Full dependency checking: [--uncheck] absent. *)
Definition checked : RunnerEnv := mkRunnerEnv None EnvAbsent None.

End Examples.

(** A toy disk for the version package: a manifest is the text
    [name@version], which the oracle parses at the [@]. *)
Module VersionExamples.

Definition parse (text : string) : option (string * string) :=
  match Str.split "@" text with
  | [n; v] => Some (n, v)
  | _ => None
  end.

Definition oracle : Version.Oracle :=
  Version.mkOracle (string * string) parse (λ _, true)
    (λ info version, Some (fst info, version))
    (λ info, fst info +:+ "@" +:+ snd info)
    (λ _, true).

(** Two manifests and a file that does not parse. *)
Definition disk : gmap string string :=
  {["a/package.json" := "A@1.0.0"; "b/package.json" := "B@1.0.0";
    "c/package.json" := "garbage"]}.

End VersionExamples.

(** Turns boolean comparisons on [Z] in the hypotheses into propositions. *)
Ltac zbool :=
  repeat match goal with
    | H : (_ && _) = true |- _ => apply andb_true_iff in H as [? ?]
    | H : (_ && _) = false |- _ => apply andb_false_iff in H as [H|H]
    | H : (_ >? _) = true |- _ => apply Z.gtb_lt in H
    | H : (_ >? _) = false |- _ => rewrite Z.gtb_ltb in H; apply Z.ltb_ge in H
    | H : (_ =? _) = true |- _ => apply Z.eqb_eq in H
    | H : (_ =? _) = false |- _ => apply Z.eqb_neq in H
    | H : (_ <? _) = true |- _ => apply Z.ltb_lt in H
    | H : (_ <? _) = false |- _ => apply Z.ltb_ge in H
    end.

(** ** Facts about the array primitives *)

Section JsFacts.

Lemma indexOf_range x l : -1 ≤ Js.indexOf x l < len l.
Proof.
  unfold len. induction l as [|y l IH]; simpl; [lia|].
  destruct (decide (y = x)); [lia|].
  destruct (Js.indexOf x l <? 0) eqn:E; lia.
Qed.

Lemma indexOf_absent x l : x ∉ l → Js.indexOf x l = -1.
Proof.
  induction l as [|y l IH]; simpl; [done|].
  intros H. apply not_elem_of_cons in H as [Hne Hl].
  destruct (decide (y = x)); [congruence|].
  rewrite IH by done. reflexivity.
Qed.

Lemma indexOf_present x l :
  x ∈ l → 0 ≤ Js.indexOf x l ∧ l !! Z.to_nat (Js.indexOf x l) = Some x.
Proof.
  induction l as [|y l IH]; simpl; [by intros ?%elem_of_nil|].
  intros H. destruct (decide (y = x)) as [->|Hne]; [done|].
  apply elem_of_cons in H as [->|H]; [done|].
  destruct (IH H) as [Hge Hlk].
  destruct (Js.indexOf x l <? 0) eqn:E; [lia|]. split; [lia|].
  replace (Z.to_nat (Js.indexOf x l + 1)) with (S (Z.to_nat (Js.indexOf x l))) by lia.
  exact Hlk.
Qed.

Lemma indexOf_neg_absent x l : Js.indexOf x l < 0 → x ∉ l.
Proof. intros H Hin. apply indexOf_present in Hin. lia. Qed.

(** [l.splice(0, n)] takes the first [n] elements off the array. *)
Lemma splice_front {A} (l : list A) n :
  0 ≤ n → Js.splice l 0 n = (take (Z.to_nat n) l, drop (Z.to_nat n) l).
Proof.
  intros Hn. unfold Js.splice. simpl (0 <? 0).
  rewrite (Z.min_l 0) by lia. rewrite (Z.max_l n 0) by lia.
  change (Z.to_nat 0) with 0%nat. rewrite drop_0, take_0. simpl.
  rewrite Z.sub_0_r.
  destruct (Z.le_ge_cases n (Z.of_nat (length l))) as [Hle|Hge].
  - rewrite Z.min_l by lia. reflexivity.
  - rewrite Z.min_r by lia. rewrite Nat2Z.id.
    rewrite !take_ge, !drop_ge by lia. reflexivity.
Qed.

(** [l.splice(i, 1)] at a valid index deletes that element. *)
Lemma splice_at {A} (l : list A) i :
  0 ≤ i < len l → snd (Js.splice l i 1) = delete (Z.to_nat i) l.
Proof.
  unfold len. intros Hi. unfold Js.splice. simpl.
  destruct (i <? 0) eqn:E; [lia|].
  rewrite (Z.min_l i) by lia. rewrite (Z.max_l 1 0) by lia. rewrite (Z.min_l 1) by lia.
  replace (Z.to_nat (i + 1)) with (S (Z.to_nat i)) by lia.
  symmetry. apply delete_take_drop.
Qed.

(** [l.splice(-1, 1)] deletes the last element. *)
Lemma splice_minus_one {A} (l : list A) :
  snd (Js.splice l (-1) 1) = take (length l - 1) l.
Proof.
  unfold Js.splice. change (-1 <? 0) with true. cbv iota zeta. unfold snd.
  destruct (decide (length l = 0%nat)) as [Hz|Hnz].
  - apply length_zero_iff_nil in Hz. subst l. reflexivity.
  - rewrite (Z.max_l _ 0) by lia.
    rewrite (Z.max_l 1 0) by lia. rewrite (Z.min_l 1) by lia.
    replace (Z.to_nat (Z.of_nat (length l) + -1)) with (length l - 1)%nat by lia.
    replace (Z.to_nat (Z.of_nat (length l) + -1 + 1)) with (length l) by lia.
    rewrite drop_all, app_nil_r. reflexivity.
Qed.

Lemma spliceIndexOf_absent x l :
  Js.indexOfV x l = -1 → Js.spliceIndexOf x l = take (length l - 1) l.
Proof. unfold Js.spliceIndexOf. intros ->. apply splice_minus_one. Qed.

Lemma spliceIndexOf_head x l : Js.spliceIndexOf (Some x) (x :: l) = l.
Proof.
  unfold Js.spliceIndexOf. simpl Js.indexOfV. rewrite decide_True by done.
  rewrite splice_at by (unfold len; simpl length; lia). reflexivity.
Qed.

Lemma spliceIndexOf_skip x y l :
  y ≠ x → x ∈ l →
  Js.spliceIndexOf (Some x) (y :: l) = y :: Js.spliceIndexOf (Some x) l.
Proof.
  intros Hne Hin. unfold Js.spliceIndexOf. simpl Js.indexOfV.
  rewrite decide_False by done.
  destruct (indexOf_present x l Hin) as [Hge _].
  pose proof (indexOf_range x l) as Hr.
  destruct (Js.indexOf x l <? 0) eqn:E; [lia|].
  rewrite !splice_at by (unfold len in *; simpl length; lia).
  replace (Z.to_nat (Js.indexOf x l + 1)) with (S (Z.to_nat (Js.indexOf x l))) by lia.
  reflexivity.
Qed.

(** Every retirement shortens a non-empty array by exactly one element. *)
Lemma spliceIndexOf_length x l :
  length (Js.spliceIndexOf x l) = (length l - 1)%nat.
Proof.
  unfold Js.spliceIndexOf.
  assert (Hr : -1 ≤ Js.indexOfV x l < len l).
  { destruct x; simpl; [apply indexOf_range|unfold len; lia]. }
  destruct (decide (Js.indexOfV x l = -1)) as [->|Hne].
  - rewrite splice_minus_one. rewrite length_take. lia.
  - rewrite splice_at by lia. unfold len in Hr.
    rewrite length_delete; [lia|]. apply lookup_lt_is_Some. lia.
Qed.

End JsFacts.

(** ** Frame and termination of the dispatcher and the scheduler loop *)

Lemma foldl_invariant {A B} (P : A → Prop) (f : A → B → A) :
  (∀ a b, P a → P (f a b)) → ∀ l a, P a → P (foldl f a l).
Proof.
  intros Hstep l. induction l as [|b l IH]; simpl; intros a Ha; [done|].
  apply IH, Hstep, Ha.
Qed.

Lemma filter_split_Permutation (p : string → bool) l :
  l ≡ₚ List.filter p l ++ List.filter (λ x, negb (p x)) l.
Proof.
  induction l as [|x l IH]; [done|]. simpl.
  destruct (p x); simpl.
  - by rewrite <- IH.
  - by rewrite <- Permutation_middle, <- IH.
Qed.

(** A list that holds [x] before its end, cut after a prefix [a] without
    [x]. *)
Lemma prefix_skip {A} (x : A) p a b :
  x ∉ a → (p ++ [x]) `prefix_of` (a ++ b) →
  ∃ p', p = a ++ p' ∧ (p' ++ [x]) `prefix_of` b.
Proof.
  revert p. induction a as [|y a IH]; intros p Hx Hp.
  - by exists p.
  - apply not_elem_of_cons in Hx as [Hne Hx].
    destruct Hp as [k Hk]. destruct p as [|z p].
    + simpl in Hk. injection Hk as <- _. done.
    + simpl in Hk. injection Hk as <- Hk.
      destruct (IH p Hx) as (p' & -> & Hp'); [by exists k|].
      by exists p'.
Qed.

Section RunnerFacts.

Variable w : World.

Lemma maxThreads_ge_2 : 2 ≤ maxThreads w.
Proof. unfold maxThreads. lia. Qed.

Lemma allSettled_schedule command args chunk st :
  schedule (allSettled w command args chunk st) = schedule st.
Proof.
  unfold allSettled.
  apply (foldl_invariant (λ s, schedule s = schedule st)).
  - intros a f Ha. unfold settleItem.
    destruct (processSpawn _ _ _ _); exact Ha.
  - apply (foldl_invariant (λ acc : State * list string, schedule (fst acc) = schedule st));
      [|done].
    intros a f Ha. unfold startItem. destruct (failsEarly w command args f); exact Ha.
Qed.

Lemma dispatchChunks_returns fuel command args chunks st :
  (length chunks ≤ fuel)%nat →
  ∃ st', dispatchChunks w fuel command args chunks st = Some st'
         ∧ schedule st' = schedule st.
Proof.
  revert chunks st. induction fuel as [|k IH]; intros chunks st Hlen.
  - destruct chunks; [|simpl in Hlen; lia]. by exists st.
  - destruct chunks as [|c chunks]; [by exists st|].
    cbn [dispatchChunks].
    pose proof maxThreads_ge_2 as HN.
    rewrite splice_front by lia. cbn [fst snd].
    edestruct IH as (st' & -> & Hs); [|eexists; split; [reflexivity|]].
    + rewrite length_drop. simpl length in *. lia.
    + rewrite Hs. change (schedule (addProcessed ?n ?s)) with (schedule s).
      by rewrite allSettled_schedule.
Qed.

Lemma retire_packagesCopy ready st :
  length (packagesCopy (foldl (retireOne) st ready))
  = (length (packagesCopy st) - length ready)%nat.
Proof.
  revert st. induction ready as [|f ready IH]; intros st; simpl; [lia|].
  rewrite IH. unfold retireOne. cbn [packagesCopy setDeps setPackagesCopy].
  rewrite spliceIndexOf_length. lia.
Qed.

Lemma retire_files_rounds ready st :
  files (foldl retireOne st ready) = files st
  ∧ rounds (foldl retireOne st ready) = rounds st
  ∧ errors (foldl retireOne st ready) = errors st
  ∧ trace (foldl retireOne st ready) = trace st.
Proof.
  apply (foldl_invariant
           (λ s, files s = files st ∧ rounds s = rounds st
                 ∧ errors s = errors st ∧ trace s = trace st)); [|done].
  intros a f Ha. exact Ha.
Qed.

Lemma finish_final st : final (finish st) = st.
Proof. unfold finish. destruct (len (errors st) >? 0); reflexivity. Qed.

(** The do-while loop returns whenever its fuel exceeds the number of
    packages that remain. *)
Lemma doWhile_returns fuel u command args st :
  (length (packagesCopy st) < fuel)%nat →
  ∃ r, doWhile w fuel u command args st = Some r.
Proof.
  revert st. induction fuel as [|k IH]; intros st Hlen; [lia|].
  cbn [doWhile].
  set (ready := emptyPackages u st).
  destruct ((len ready =? 0) && (len (packagesCopy st) >? 0)) eqn:Hdead; [eauto|].
  destruct (dispatchChunks_returns (length ready) command args ready (pushRound ready st))
    as (st1 & -> & Hs); [lia|].
  destruct u as [|l]; [eauto|].
  destruct (len (packagesCopy (foldl retireOne st1 ready)) >? 0) eqn:Hmore; [|eauto].
  apply IH.
  unfold len in *. rewrite retire_packagesCopy in Hmore |- *.
  assert (packagesCopy st1 = packagesCopy st) as Hp1 by (injection Hs; auto).
  rewrite Hp1 in Hmore |- *. zbool; lia.
Qed.

(** [runPackageCommand] always settles: it returns or throws. *)
Lemma runPackageCommand_returns env pk command args :
  ∃ r, runPackageCommand w env pk command args = Some r.
Proof.
  unfold runPackageCommand.
  destruct (parseUncheck (uncheck env)) as [|l].
  - apply doWhile_returns. simpl. lia.
  - destruct (buildGraph w l pk) as [e|g]; [eauto|].
    apply doWhile_returns. simpl. lia.
Qed.

End RunnerFacts.

(** ** What a chunk and a frontier contribute to the trace *)

Section DispatchFacts.

Variable w : World.

Lemma extend_nil st : extend [] [] st = st.
Proof. destruct st. unfold extend. simpl. by rewrite !app_nil_r. Qed.

Lemma extend_extend e1 r1 e2 r2 st :
  extend e2 r2 (extend e1 r1 st) = extend (e1 ++ e2) (r1 ++ r2) st.
Proof. unfold extend. simpl. by rewrite !app_assoc. Qed.

Lemma emit_extend e st : emit e st = extend [e] [] st.
Proof. unfold emit, extend. by rewrite app_nil_r. Qed.

Lemma pushError_extend e st : pushError e st = extend [] [e] st.
Proof. unfold pushError, extend. by rewrite app_nil_r. Qed.

Lemma addProcessed_extend n evs errs st :
  addProcessed n (extend evs errs st) = extend evs errs (addProcessed n st).
Proof. reflexivity. Qed.

Lemma startItem_fold command args chunk acc :
  foldl (startItem w command args) acc chunk
  = (extend (startEvents w command args chunk) (syncErrors w command args chunk) (fst acc),
     snd acc ++ pendingOf w command args chunk).
Proof.
  revert acc. induction chunk as [|f chunk IH]; intros [st p]; simpl.
  - by rewrite extend_nil, app_nil_r.
  - rewrite IH. unfold startItem, startEvents, syncErrors, pendingOf. simpl.
    destruct (failsEarly w command args f) as [e|] eqn:E; simpl.
    + rewrite pushError_extend, !emit_extend, !extend_extend. simpl.
      reflexivity.
    + rewrite emit_extend, extend_extend. simpl. by rewrite <- app_assoc.
Qed.

Lemma settleItem_fold command args l st :
  foldl (settleItem w command args) st l
  = extend (ESettle <$> l) (asyncErrors w command args l) st.
Proof.
  revert st. induction l as [|f l IH]; intros st; simpl.
  - by rewrite extend_nil.
  - rewrite IH. unfold settleItem, asyncErrors. simpl.
    destruct (processSpawn w command args _); simpl.
    + rewrite emit_extend, extend_extend. reflexivity.
    + rewrite pushError_extend, emit_extend, !extend_extend. reflexivity.
    + rewrite emit_extend, extend_extend. reflexivity.
Qed.

Lemma allSettled_extend command args chunk st :
  allSettled w command args chunk (emit (EChunk chunk) st)
  = extend (chunkEvents w command args chunk) (chunkErrors w command args chunk) st.
Proof.
  unfold allSettled. rewrite startItem_fold. cbn [fst snd].
  rewrite settleItem_fold, emit_extend, !extend_extend. reflexivity.
Qed.

(** The chunk loop cuts the frontier into consecutive chunks of at most
    [maxThreads] items and adds each chunk's events and failures. *)
Lemma dispatchChunks_extend fuel command args chunks st st' :
  dispatchChunks w fuel command args chunks st = Some st' →
  ∃ cs : list (list string),
    concat cs = chunks
    ∧ Forall (λ ch, 0 < len ch ≤ maxThreads w) cs
    ∧ st' = addProcessed (len chunks)
              (extend (cs ≫= chunkEvents w command args) (cs ≫= chunkErrors w command args) st).
Proof.
  revert chunks st. induction fuel as [|k IH]; intros chunks st.
  - destruct chunks; [|done]. intros [= <-]. exists [].
    split; [done|]. split; [constructor|].
    simpl. rewrite extend_nil. destruct st. unfold addProcessed. simpl.
    by rewrite Z.add_0_r.
  - destruct chunks as [|c chunks].
    { intros [= <-]. exists []. split; [done|]. split; [constructor|].
      simpl. rewrite extend_nil. destruct st. unfold addProcessed. simpl.
      by rewrite Z.add_0_r. }
    cbn [dispatchChunks]. pose proof (maxThreads_ge_2 w) as HN.
    rewrite splice_front by lia. cbn [fst snd].
    set (n := Z.to_nat (maxThreads w)).
    rewrite allSettled_extend. intros H.
    apply IH in H as (cs & Hcs & Hall & ->).
    exists (take n (c :: chunks) :: cs). split; [|split].
    + simpl concat. rewrite Hcs. apply take_drop.
    + constructor; [|done]. unfold len. rewrite length_take. simpl length. lia.
    + destruct st. unfold addProcessed, extend. cbn -[chunkEvents chunkErrors take drop].
      f_equal.
      * by rewrite app_assoc.
      * unfold len. rewrite <- (take_drop n (c :: chunks)) at 3.
        rewrite length_app. lia.
      * by rewrite app_assoc.
Qed.

End DispatchFacts.

(** ** Items started and settled by a frontier *)

Section TraceFacts.

Variable w : World.
Variables (command : string) (args : list string).

Lemma started_app a b : started (a ++ b) = started a ++ started b.
Proof. unfold started. apply bind_app. Qed.

Lemma settled_app a b : settled (a ++ b) = settled a ++ settled b.
Proof. unfold settled. apply bind_app. Qed.

Lemma started_settles l : started (ESettle <$> l) = [].
Proof. induction l as [|f l IH]; [done|]. exact IH. Qed.

Lemma settled_settles l : settled (ESettle <$> l) = l.
Proof. induction l as [|f l IH]; [done|]. simpl. f_equal. exact IH. Qed.

Lemma started_startEvents chunk : started (startEvents w command args chunk) = chunk.
Proof.
  induction chunk as [|f chunk IH]; [done|].
  unfold startEvents in *. rewrite bind_cons, started_app, IH.
  destruct (failsEarly w command args f); reflexivity.
Qed.

Lemma started_chunkEvents chunk : started (chunkEvents w command args chunk) = chunk.
Proof.
  unfold chunkEvents. change (started (EChunk chunk :: ?t)) with (started t).
  by rewrite started_app, started_startEvents, started_settles, app_nil_r.
Qed.

Lemma started_chunks cs : started (cs ≫= chunkEvents w command args) = concat cs.
Proof.
  induction cs as [|ch cs IH]; [done|].
  rewrite bind_cons, started_app, started_chunkEvents, IH. reflexivity.
Qed.

End TraceFacts.

(** ** Dependency graph construction *)

Lemma forOf_cons_inr {A S} (body : S → A → Exception + S) x l s s' :
  forOf body (x :: l) s = inr s' ↔ ∃ s1, body s x = inr s1 ∧ forOf body l s1 = inr s'.
Proof.
  simpl. destruct (body s x) as [e|s1]; split.
  - discriminate.
  - intros (s1 & [=] & _).
  - eauto.
  - intros (s2 & [= <-] & H). exact H.
Qed.

Lemma includes_true x l : Js.includes x l = true ↔ x ∈ l.
Proof. unfold Js.includes. apply bool_decide_eq_true. Qed.

Lemma includes_false x l : Js.includes x l = false ↔ x ∉ l.
Proof. unfold Js.includes. apply bool_decide_eq_false. Qed.

Section GraphFacts.

Variable w : World.
Variable unchecked : list string.

(** [deps[name] ??= []] adds no member to any list. *)
Lemma unresolvedIn_ensure (d : gmap string (list string)) n p q :
  unresolvedIn (match d !! n with
                | Some _ => d
                | None => if Js.inherited n then d else <[n := []]> d
                end) p q
  ↔ unresolvedIn d p q.
Proof.
  destruct (d !! n) eqn:E; [done|]. destruct (Js.inherited n); [done|].
  unfold unresolvedIn. split; intros (l & Hl & Hp).
  - destruct (decide (n = q)) as [->|Hne].
    + rewrite lookup_insert_eq in Hl. injection Hl as <-. by apply elem_of_nil in Hp.
    + rewrite lookup_insert_ne in Hl by done. eauto.
  - exists l. split; [|done]. rewrite lookup_insert_ne; [done|]. congruence.
Qed.

(** [deps[name] ??= []] keeps the keys proper, and leaves a list under
    every name that is not inherited. *)
Lemma properKeys_ensure (d : gmap string (list string)) n :
  properKeys d →
  properKeys (match d !! n with
              | Some _ => d
              | None => if Js.inherited n then d else <[n := []]> d
              end).
Proof.
  intros Hd. destruct (d !! n) eqn:E; [done|].
  destruct (Js.inherited n) eqn:Hn; [done|].
  intros k Hk. destruct (decide (n = k)) as [<-|Hne]; [done|].
  rewrite lookup_insert_ne in Hk by done. by apply Hd.
Qed.

Lemma lookup_ensure (d : gmap string (list string)) n :
  properKeys d →
  is_Some ((match d !! n with
            | Some _ => d
            | None => if Js.inherited n then d else <[n := []]> d
            end) !! n)
  ↔ Js.inherited n = false.
Proof.
  intros Hd. destruct (d !! n) eqn:E.
  - rewrite E. split; [intros _; apply Hd; by rewrite E|eauto].
  - destruct (Js.inherited n) eqn:Hn.
    + rewrite E. split; [by intros [? ?]|done].
    + rewrite lookup_insert_eq. split; eauto.
Qed.

Lemma scanInner_keys cur d f d' :
  scanInner w unchecked cur d f = inr d' → properKeys d → properKeys d'.
Proof.
  unfold scanInner. destruct (readPackage w f) as [mq|]; [|discriminate].
  intros Hrun Hd. pose proof (properKeys_ensure d (name mq) Hd) as Hd1.
  set (d1 := match d !! name mq with
             | Some _ => d
             | None => if Js.inherited (name mq) then d else <[name mq := []]> d
             end) in *.
  destruct (Js.includes (name mq) unchecked); [by injection Hrun as <-|].
  destruct (dependencies mq) as [declared|]; [|discriminate].
  destruct (Js.truthyProp declared (name cur)); [|by injection Hrun as <-].
  destruct (d1 !! name mq) as [own|] eqn:Hown; [|discriminate].
  destruct (Js.includes (name cur) own); injection Hrun as <-; [done|].
  intros k Hk. destruct (decide (name mq = k)) as [<-|Hne].
  - apply Hd1. by rewrite Hown.
  - rewrite lookup_insert_ne in Hk by done. by apply Hd1.
Qed.

(** One pass of the inner loop body over the manifest at [f]. *)
Lemma scanInner_edges cur d f d' :
  scanInner w unchecked cur d f = inr d' →
  properKeys d →
  ∀ p q, unresolvedIn d' p q
         ↔ unresolvedIn d p q
           ∨ (p = name cur ∧ (q ∉ unchecked) ∧ Js.inherited q = false
              ∧ ∃ mq declared,
                  readPackage w f = Some mq ∧ name mq = q
                  ∧ dependencies mq = Some declared
                  ∧ Js.truthyProp declared p = true).
Proof.
  unfold scanInner. destruct (readPackage w f) as [mq|] eqn:Hread; [|discriminate].
  intros Hrun Hd.
  pose proof (lookup_ensure d (name mq) Hd) as Hkey.
  assert (Hd1 : ∀ p q,
             unresolvedIn (match d !! name mq with
                           | Some _ => d
                           | None => if Js.inherited (name mq) then d
                                     else <[name mq := []]> d
                           end) p q ↔ unresolvedIn d p q)
    by (intros; apply unresolvedIn_ensure).
  set (d1 := match d !! name mq with
             | Some _ => d
             | None => if Js.inherited (name mq) then d else <[name mq := []]> d
             end) in *.
  destruct (Js.includes (name mq) unchecked) eqn:Hex.
  { injection Hrun as <-. intros p q. rewrite Hd1. split; [auto|].
    intros [H|(_ & Hq & _ & m' & dc & [= <-] & <- & _)]; [done|].
    apply includes_true in Hex. done. }
  apply includes_false in Hex.
  destruct (dependencies mq) as [declared|] eqn:Hdeps; [|discriminate].
  destruct (Js.truthyProp declared (name cur)) eqn:Htruthy.
  - destruct (d1 !! name mq) as [own|] eqn:Hown; [|discriminate].
    assert (Hninh : Js.inherited (name mq) = false) by (apply Hkey; eauto).
    destruct (Js.includes (name cur) own) eqn:Hinc; injection Hrun as <-; intros p q.
    + apply includes_true in Hinc. rewrite Hd1. split; [auto|].
      intros [H|(-> & Hq & _ & m' & dc & [= <-] & <- & _)]; [done|].
      apply Hd1. exists own. done.
    + apply includes_false in Hinc. rewrite <- Hd1. unfold unresolvedIn. split.
      * intros (l & Hl & Hp). destruct (decide (name mq = q)) as [<-|Hne].
        -- rewrite lookup_insert_eq in Hl. injection Hl as <-.
           apply elem_of_app in Hp as [Hp|Hp].
           ++ left. eauto.
           ++ apply list_elem_of_singleton in Hp as ->. right.
              split; [done|]. split; [done|]. split; [done|]. exists mq, declared. done.
        -- rewrite lookup_insert_ne in Hl by done. left. eauto.
      * intros [(l & Hl & Hp)|(-> & Hq & _ & m' & dc & [= <-] & <- & _)].
        -- destruct (decide (name mq = q)) as [<-|Hne].
           ++ exists (own ++ [name cur]). rewrite lookup_insert_eq. split; [done|].
              apply elem_of_app. left. congruence.
           ++ exists l. by rewrite lookup_insert_ne.
        -- exists (own ++ [name cur]). rewrite lookup_insert_eq. split; [done|].
           apply elem_of_app. right. by apply list_elem_of_singleton.
  - injection Hrun as <-. intros p q. rewrite Hd1. split; [auto|].
    intros [H|(-> & Hq & _ & m' & dc & [= <-] & <- & Hdc & Ht)]; [done|].
    congruence.
Qed.

Lemma inner_loop_keys cur l d d' :
  forOf (scanInner w unchecked cur) l d = inr d' → properKeys d → properKeys d'.
Proof.
  revert d. induction l as [|f l IH]; intros d.
  - by intros [= <-].
  - intros (d1 & Hstep & Hrest)%forOf_cons_inr Hd.
    eapply IH; [exact Hrest|]. by eapply scanInner_keys.
Qed.

(** The inner loop over the files [l], for the outer manifest [cur]. *)
Lemma inner_loop_edges cur l d d' :
  forOf (scanInner w unchecked cur) l d = inr d' →
  properKeys d →
  ∀ p q, unresolvedIn d' p q
         ↔ unresolvedIn d p q
           ∨ (p = name cur ∧ (q ∉ unchecked) ∧ Js.inherited q = false
              ∧ ∃ fq mq declared,
                  fq ∈ l ∧ readPackage w fq = Some mq ∧ name mq = q
                  ∧ dependencies mq = Some declared
                  ∧ Js.truthyProp declared p = true).
Proof.
  revert d. induction l as [|f l IH]; intros d.
  - intros [= <-] _ p q. split; [auto|].
    intros [H|(_ & _ & _ & fq & ? & ? & Hin & _)]; [done|]. by apply elem_of_nil in Hin.
  - intros (d1 & Hstep & Hrest)%forOf_cons_inr Hd p q.
    rewrite (IH _ Hrest (scanInner_keys _ _ _ _ Hstep Hd)),
      (scanInner_edges _ _ _ _ Hstep Hd). split.
    + intros [[H|(Hp & Hq & Hi & mq & dc & H)]|(Hp & Hq & Hi & fq & mq & dc & Hin & H)].
      * by left.
      * right. split; [done|]. split; [done|]. split; [done|]. exists f, mq, dc.
        split; [apply list_elem_of_here|done].
      * right. split; [done|]. split; [done|]. split; [done|]. exists fq, mq, dc.
        split; [by apply list_elem_of_further|done].
    + intros [H|(Hp & Hq & Hi & fq & mq & dc & Hin & H)]; [by left; left|].
      apply elem_of_cons in Hin as [->|Hin].
      * left. right. split; [done|]. split; [done|]. split; [done|]. by exists mq, dc.
      * right. split; [done|]. split; [done|]. split; [done|]. by exists fq, mq, dc.
Qed.

Lemma outer_loop_keys pk l g g' :
  forOf (scanOuter w unchecked pk) l g = inr g' → properKeys (snd g) → properKeys (snd g').
Proof.
  revert g. induction l as [|f l IH]; intros g.
  - by intros [= <-].
  - intros (g1 & Hstep & Hrest)%forOf_cons_inr Hg.
    eapply IH; [exact Hrest|]. unfold scanOuter in Hstep.
    destruct (readPackage w f) as [cur|]; [|discriminate].
    destruct (forOf (scanInner w unchecked cur) pk (snd g)) as [e|d1] eqn:Hin1;
      [discriminate|].
    injection Hstep as <-. cbn [snd]. by eapply inner_loop_keys.
Qed.

(** The outer loop over the files [l], scanning the universe [pk]. *)
Lemma outer_loop_edges pk l g g' :
  forOf (scanOuter w unchecked pk) l g = inr g' →
  properKeys (snd g) →
  ∀ p q, unresolvedIn (snd g') p q
         ↔ unresolvedIn (snd g) p q
           ∨ ((q ∉ unchecked) ∧ Js.inherited q = false
              ∧ ∃ fp fq mp mq declared,
                  fp ∈ l ∧ fq ∈ pk
                  ∧ readPackage w fp = Some mp ∧ name mp = p
                  ∧ readPackage w fq = Some mq ∧ name mq = q
                  ∧ dependencies mq = Some declared
                  ∧ Js.truthyProp declared p = true).
Proof.
  revert g. induction l as [|f l IH]; intros g.
  - intros [= <-] _ p q. split; [auto|].
    intros [H|(_ & _ & fp & ? & ? & ? & ? & Hin & _)]; [done|]. by apply elem_of_nil in Hin.
  - intros (g1 & Hstep & Hrest)%forOf_cons_inr Hg p q.
    assert (Hg1 : properKeys (snd g1)).
    { apply (outer_loop_keys pk [f] g g1); [|done]. simpl. by rewrite Hstep. }
    rewrite (IH _ Hrest Hg1). unfold scanOuter in Hstep.
    destruct (readPackage w f) as [cur|] eqn:Hcur; [|discriminate].
    destruct (forOf (scanInner w unchecked cur) pk (snd g)) as [e|d1] eqn:Hin1;
      [discriminate|].
    injection Hstep as <-. cbn [snd].
    rewrite (inner_loop_edges _ _ _ _ Hin1 Hg). split.
    + intros [[H|(-> & Hq & Hi & fq & mq & dc & Hin & Hr & Hn & Hd & Ht)]
             |(Hq & Hi & fp & fq & mp & mq & dc & Hin & H)].
      * by left.
      * right. split; [done|]. split; [done|]. exists f, fq, cur, mq, dc.
        split; [apply list_elem_of_here|done].
      * right. split; [done|]. split; [done|]. exists fp, fq, mp, mq, dc.
        split; [by apply list_elem_of_further|done].
    + intros [H|(Hq & Hi & fp & fq & mp & mq & dc & Hin & Hfq & Hr & Hn & H)];
        [by left; left|].
      apply elem_of_cons in Hin as [->|Hin].
      * left. right. rewrite Hcur in Hr. injection Hr as <-.
        split; [done|]. split; [done|]. split; [done|]. by exists fq, mq, dc.
      * right. split; [done|]. split; [done|]. by exists fp, fq, mp, mq, dc.
Qed.

Lemma properKeys_empty : properKeys ∅.
Proof. intros k [? Hk]. by rewrite lookup_empty in Hk. Qed.

End GraphFacts.

(** ** When graph construction throws *)

Section GraphThrows.

Variable w : World.
Variable unchecked : list string.

Lemma thrownBy_further f l e : thrownBy w unchecked l e → thrownBy w unchecked (f :: l) e.
Proof.
  intros [(f' & Hin & H)|[(f' & m & Hin & H)|(f' & m & Hin & H)]];
    [left|right; left|right; right].
  - exists f'. split; [by apply list_elem_of_further|done].
  - exists f', m. split; [by apply list_elem_of_further|done].
  - exists f', m. split; [by apply list_elem_of_further|done].
Qed.

Lemma scanInner_inl cur d f e :
  scanInner w unchecked cur d f = inl e → thrownBy w unchecked [f] e.
Proof.
  unfold scanInner. destruct (readPackage w f) as [m|] eqn:Hread.
  - destruct (Js.includes (name m) unchecked) eqn:Hex; [discriminate|].
    apply includes_false in Hex.
    destruct (dependencies m) eqn:Hdeps.
    + destruct (Js.truthyProp _ _); [|discriminate].
      destruct (d !! name m) as [l|] eqn:Hl.
      * rewrite Hl. destruct (Js.includes _ _); discriminate.
      * destruct (Js.inherited (name m)) eqn:Hinh.
        -- rewrite Hl. intros [= <-]. right. right. exists f, m.
           split; [apply list_elem_of_here|]. split; [done|]. split; [eauto|]. done.
        -- rewrite lookup_insert_eq. destruct (Js.includes _ _); discriminate.
    + intros [= <-]. right. left. exists f, m. split; [apply list_elem_of_here|done].
  - intros [= <-]. left. exists f. split; [apply list_elem_of_here|done].
Qed.

Lemma scanInner_missing cur d f m :
  readPackage w f = Some m → dependencies m = None → name m ∉ unchecked →
  scanInner w unchecked cur d f = inl (TypeErrorDependencies f).
Proof.
  intros Hread Hdeps Hex. unfold scanInner. rewrite Hread.
  apply includes_false in Hex. rewrite Hex, Hdeps. reflexivity.
Qed.

Lemma inner_loop_inl cur l d e :
  forOf (scanInner w unchecked cur) l d = inl e → thrownBy w unchecked l e.
Proof.
  revert d. induction l as [|f l IH]; intros d; [discriminate|]. simpl.
  destruct (scanInner w unchecked cur d f) as [e'|d1] eqn:Hstep.
  - intros [= <-]. apply scanInner_inl in Hstep.
    destruct Hstep as [(f' & Hin & H)|[(f' & m & Hin & H)|(f' & m & Hin & H)]];
      apply list_elem_of_singleton in Hin as ->; [left|right; left|right; right].
    + exists f. split; [apply list_elem_of_here|done].
    + exists f, m. split; [apply list_elem_of_here|done].
    + exists f, m. split; [apply list_elem_of_here|done].
  - intros H. apply thrownBy_further. eauto.
Qed.

Lemma inner_loop_missing cur l d f m :
  f ∈ l → readPackage w f = Some m → dependencies m = None → name m ∉ unchecked →
  ∃ e, forOf (scanInner w unchecked cur) l d = inl e.
Proof.
  intros Hin Hread Hdeps Hex. revert d.
  induction l as [|x l IH]; intros d; [by apply elem_of_nil in Hin|]. simpl.
  destruct (scanInner w unchecked cur d x) as [e'|d1] eqn:Hstep; [eauto|].
  apply elem_of_cons in Hin as [->|Hin]; [|by apply IH].
  rewrite (scanInner_missing cur d x m) in Hstep by done. discriminate.
Qed.

Lemma outer_loop_inl pk l g e :
  forOf (scanOuter w unchecked pk) l g = inl e → thrownBy w unchecked l e ∨ thrownBy w unchecked pk e.
Proof.
  revert g. induction l as [|f l IH]; intros g; [discriminate|]. simpl.
  destruct (scanOuter w unchecked pk g f) as [e'|g1] eqn:Hstep.
  - intros [= <-]. unfold scanOuter in Hstep.
    destruct (readPackage w f) as [cur|] eqn:Hcur.
    + destruct (forOf (scanInner w unchecked cur) pk (snd g)) as [e1|d1] eqn:Hin1;
        [|discriminate].
      injection Hstep as <-. right. by eapply inner_loop_inl.
    + injection Hstep as <-. left. left. exists f.
      split; [apply list_elem_of_here|done].
  - intros H. destruct (IH _ H) as [H'|H']; [left|by right].
    by apply thrownBy_further.
Qed.

Lemma buildGraph_inl pk e : buildGraph w unchecked pk = inl e → thrownBy w unchecked pk e.
Proof. intros H. apply outer_loop_inl in H. tauto. Qed.

Lemma buildGraph_missing pk f m :
  f ∈ pk → readPackage w f = Some m → dependencies m = None → name m ∉ unchecked →
  ∃ e, buildGraph w unchecked pk = inl e.
Proof.
  intros Hin Hread Hdeps Hex. unfold buildGraph.
  destruct pk as [|x pk']; [by apply elem_of_nil in Hin|].
  cbn [forOf]. unfold scanOuter at 1.
  destruct (readPackage w x) as [cur|]; [|eauto].
  match goal with
  | |- context [forOf _ ?l ?d] =>
      destruct (inner_loop_missing cur l d f m Hin Hread Hdeps Hex) as [e ->]
  end.
  eauto.
Qed.

End GraphThrows.

(** ** The adjacency depends on the manifests alone *)

Section SameManifests.

Variables w1 w2 : World.
Variable unchecked : list string.

Lemma scanInner_same cur d f1 f2 :
  readPackage w1 f1 = readPackage w2 f2 →
  sameOutcome (scanInner w1 unchecked cur d f1) (scanInner w2 unchecked cur d f2).
Proof.
  intros Heq. unfold scanInner. rewrite Heq.
  destruct (readPackage w2 f2) as [m|]; [|done].
  destruct (Js.includes (name m) unchecked); [done|].
  destruct (dependencies m); [|done].
  destruct (Js.truthyProp _ _); [|done].
  match goal with |- context [?d' !! name m] => destruct (d' !! name m) end; [|done].
  destruct (Js.includes _ _); done.
Qed.

Lemma inner_loop_same cur l1 l2 d :
  readPackage w1 <$> l1 = readPackage w2 <$> l2 →
  sameOutcome (forOf (scanInner w1 unchecked cur) l1 d)
              (forOf (scanInner w2 unchecked cur) l2 d).
Proof.
  revert l2 d. induction l1 as [|f1 l1 IH]; intros [|f2 l2] d Heq; try done.
  injection Heq as Hhd Htl. simpl.
  pose proof (scanInner_same cur d f1 f2 Hhd) as Hstep.
  destruct (scanInner w1 unchecked cur d f1), (scanInner w2 unchecked cur d f2);
    simpl in Hstep; try done.
  subst. by apply IH.
Qed.

Lemma outer_loop_same pk1 pk2 l1 l2 g1 g2 :
  readPackage w1 <$> pk1 = readPackage w2 <$> pk2 →
  readPackage w1 <$> l1 = readPackage w2 <$> l2 →
  snd g1 = snd g2 →
  adjacency (forOf (scanOuter w1 unchecked pk1) l1 g1)
  = adjacency (forOf (scanOuter w2 unchecked pk2) l2 g2).
Proof.
  intros Hpk. revert l2 g1 g2.
  induction l1 as [|f1 l1 IH]; intros [|f2 l2] g1 g2 Heq Hg; try done.
  { simpl. by rewrite Hg. }
  injection Heq as Hhd Htl. simpl. unfold scanOuter at 1 3. rewrite Hhd, Hg.
  destruct (readPackage w2 f2) as [cur|]; [|done].
  pose proof (inner_loop_same cur pk1 pk2 (snd g2) Hpk) as Hin.
  destruct (forOf (scanInner w1 unchecked cur) pk1 (snd g2)),
           (forOf (scanInner w2 unchecked cur) pk2 (snd g2));
    simpl in Hin; try done.
  subst. by apply IH.
Qed.

End SameManifests.

(** ** An invariant rule for the scheduler loop *)

(** A property of the state that holds on entry, survives the dispatch of
    any frontier, any retirement and the deadlock report, holds when the
    loop returns. *)
Lemma doWhile_invariant (P : State → Prop) w fuel u command args st r :
  doWhile w fuel u command args st = Some r →
  P st →
  (∀ s s', P s →
           dispatchChunks w (length (emptyPackages u s)) command args
             (emptyPackages u s) (pushRound (emptyPackages u s) s) = Some s' →
           P s') →
  (∀ s f, P s → P (retireOne s f)) →
  (∀ s names g, P s → P (emit (EDeadlock names g) s)) →
  P (final r).
Proof.
  intros Hrun Hst Hdispatch Hretire Hemit. revert st Hrun Hst.
  induction fuel as [|k IH]; intros st Hrun Hst; [discriminate|].
  cbn [doWhile] in Hrun.
  destruct (_ && _).
  { injection Hrun as <-. cbn [final]. by apply Hemit. }
  destruct (dispatchChunks _ _ _ _ _ _) as [st1|] eqn:Hd; [|discriminate].
  apply Hdispatch in Hd; [|done].
  destruct u as [|l].
  { injection Hrun as <-. by rewrite finish_final. }
  assert (Hst2 : P (foldl retireOne st1 (emptyPackages (UncheckList l) st))).
  { apply foldl_invariant; [apply Hretire|done]. }
  destruct (_ >? 0).
  - by eapply IH.
  - injection Hrun as <-. by rewrite finish_final.
Qed.

(** The same rule with a conclusion [Q] of its own for the two ways in
    which the loop ends. *)
Lemma doWhile_rule (P Q : State → Prop) w fuel u command args st r :
  doWhile w fuel u command args st = Some r →
  P st →
  (∀ s s', P s →
           dispatchChunks w (length (emptyPackages u s)) command args
             (emptyPackages u s) (pushRound (emptyPackages u s) s) = Some s' →
           P s') →
  (∀ s f, P s → P (retireOne s f)) →
  (∀ s, P s → Q s) →
  (∀ s names g, P s → Q (emit (EDeadlock names g) s)) →
  Q (final r).
Proof.
  intros Hrun Hst Hdispatch Hretire Hend Hemit. revert st Hrun Hst.
  induction fuel as [|k IH]; intros st Hrun Hst; [discriminate|].
  cbn [doWhile] in Hrun.
  destruct (_ && _).
  { injection Hrun as <-. cbn [final]. by apply Hemit. }
  destruct (dispatchChunks _ _ _ _ _ _) as [st1|] eqn:Hd; [|discriminate].
  apply Hdispatch in Hd; [|done].
  destruct u as [|l].
  { injection Hrun as <-. rewrite finish_final. by apply Hend. }
  assert (Hst2 : P (foldl retireOne st1 (emptyPackages (UncheckList l) st))).
  { apply foldl_invariant; [apply Hretire|done]. }
  destruct (_ >? 0).
  - by eapply IH.
  - injection Hrun as <-. rewrite finish_final. by apply Hend.
Qed.
(** ** Items in flight *)

Section Inflight.

Variable w : World.
Variables (command : string) (args : list string).

Lemma inflight_nil : inflight [] = 0.
Proof. reflexivity. Qed.

Lemma inflight_cons e tr : inflight (e :: tr) = delta e + inflight tr.
Proof.
  unfold inflight, started, settled, len. rewrite !bind_cons, !length_app.
  destruct e; cbn [delta length app]; lia.
Qed.

Lemma inflight_app a b : inflight (a ++ b) = inflight a + inflight b.
Proof.
  induction a as [|e a IH]; [unfold inflight; simpl; lia|].
  simpl app. rewrite !inflight_cons, IH. lia.
Qed.

Lemma within_app n cur a b :
  within n cur (a ++ b) ↔ within n cur a ∧ within n (cur + inflight a) b.
Proof.
  revert cur. induction a as [|e a IH]; intros cur.
  - simpl app. rewrite inflight_nil, Z.add_0_r. cbn [within]. tauto.
  - simpl app. cbn [within]. rewrite IH, inflight_cons, Z.add_assoc. tauto.
Qed.

(** Along a trace that stays within the bound, every prefix does. *)
Lemma within_prefix n p tr :
  0 ≤ n → within n 0 tr → p `prefix_of` tr → 0 ≤ inflight p ≤ n.
Proof.
  intros Hn Htr [rest ->]. apply within_app in Htr as [Hp _].
  destruct p as [|e p] using rev_ind; [rewrite inflight_nil; lia|].
  apply within_app in Hp as [_ Hlast]. cbn [within] in Hlast.
  rewrite inflight_app, inflight_cons, inflight_nil. lia.
Qed.

(** Along such a trace a chunk is announced only when nothing is in
    flight, and holds between one and [n] items. *)
Lemma within_chunk n p c tr :
  within n 0 tr → (p ++ [EChunk c]) `prefix_of` tr →
  inflight p = 0 ∧ 0 < len c ≤ n.
Proof.
  intros Htr [rest ->]. apply within_app in Htr as [Hp _].
  apply within_app in Hp as [_ Hlast]. cbn [within] in Hlast. lia.
Qed.

Lemma within_startEvents n cur chunk :
  0 ≤ cur → cur + len chunk ≤ n →
  within n cur (startEvents w command args chunk)
  ∧ inflight (startEvents w command args chunk) = len (pendingOf w command args chunk).
Proof.
  unfold len. revert cur. induction chunk as [|f chunk IH]; intros cur Hcur Hn.
  - split; [done|reflexivity].
  - unfold startEvents, pendingOf in *. rewrite bind_cons. simpl length in Hn.
    simpl List.filter.
    destruct (failsEarly w command args f) as [e|] eqn:Hread.
    + rewrite bool_decide_false by done.
      destruct (IH cur) as [IH1 IH2]; [lia..|].
      simpl app. cbn [within delta]. rewrite !inflight_cons, IH2.
      split; [|cbn [delta]; lia]. split; [lia|]. split; [done|].
      split; [lia|]. split; [done|].
      replace (cur + 1 + -1) with cur by lia. done.
    + rewrite bool_decide_true by done.
      destruct (IH (cur + 1)) as [IH1 IH2]; [lia..|].
      simpl app. cbn [within delta]. rewrite inflight_cons, IH2. simpl length.
      split; [|cbn [delta]; lia]. split; [lia|]. done.
Qed.

Lemma within_settles n cur l :
  len l ≤ cur ≤ n →
  within n cur (ESettle <$> l) ∧ inflight (ESettle <$> l) = - len l.
Proof.
  unfold len. revert cur. induction l as [|f l IH]; intros cur Hcur.
  - split; [done|reflexivity].
  - simpl length in Hcur. destruct (IH (cur + -1)) as [IH1 IH2]; [lia|].
    rewrite fmap_cons. cbn [within delta]. rewrite inflight_cons, IH2. simpl length.
    split; [|cbn [delta]; lia]. split; [lia|]. done.
Qed.

Lemma length_pendingOf chunk : (length (pendingOf w command args chunk) ≤ length chunk)%nat.
Proof. unfold pendingOf. apply List.filter_length_le. Qed.

Lemma within_chunkEvents n chunk :
  fairSettle w → 0 < len chunk ≤ n →
  within n 0 (chunkEvents w command args chunk) ∧ inflight (chunkEvents w command args chunk) = 0.
Proof.
  intros Hfair Hlen. unfold chunkEvents.
  pose proof (length_pendingOf chunk) as Hpend.
  pose proof (Permutation_length (Hfair (pendingOf w command args chunk))) as Hperm.
  destruct (within_startEvents n 0 chunk) as [Hs1 Hs2]; [lia..|].
  destruct (within_settles n (len (pendingOf w command args chunk))
              (settleOrder w (pendingOf w command args chunk))) as [Ht1 Ht2].
  { unfold len in *. lia. }
  rewrite inflight_cons, inflight_app, Hs2, Ht2. cbn [within delta].
  split; [|unfold len in *; lia]. split; [lia|]. split; [lia|].
  apply within_app. rewrite Hs2. split; [done|]. exact Ht1.
Qed.

Lemma within_chunks n cs :
  fairSettle w → Forall (λ ch, 0 < len ch ≤ n) cs →
  within n 0 (cs ≫= chunkEvents w command args) ∧ inflight (cs ≫= chunkEvents w command args) = 0.
Proof.
  intros Hfair. induction 1 as [|ch cs Hch Hcs IH]; [split; [done|reflexivity]|].
  rewrite bind_cons. destruct IH as [IH1 IH2].
  destruct (within_chunkEvents n ch Hfair Hch) as [H1 H2].
  rewrite inflight_app, H2, IH2. split; [|done].
  apply within_app. rewrite H2. done.
Qed.

Lemma chunksOf_app a b : chunksOf (a ++ b) = chunksOf a ++ chunksOf b.
Proof. unfold chunksOf. apply bind_app. Qed.

Lemma chunksOf_chunkEvents chunk : chunksOf (chunkEvents w command args chunk) = [chunk].
Proof.
  unfold chunkEvents. change (chunksOf (EChunk chunk :: ?t)) with (chunk :: chunksOf t).
  f_equal. rewrite chunksOf_app.
  assert (chunksOf (startEvents w command args chunk) = []) as ->.
  { induction chunk as [|f chunk IH]; [done|].
    unfold startEvents in *. rewrite bind_cons, chunksOf_app, IH.
    destruct (failsEarly w command args f); reflexivity. }
  induction (settleOrder w (pendingOf w command args chunk)) as [|f l IH]; [done|]. exact IH.
Qed.

Lemma chunksOf_chunks cs : chunksOf (cs ≫= chunkEvents w command args) = cs.
Proof.
  induction cs as [|ch cs IH]; [done|].
  by rewrite bind_cons, chunksOf_app, chunksOf_chunkEvents, IH.
Qed.

(** The items of a chunk that settle before its last item is started are
    those that fail before their [await]. *)
Lemma settled_startEvents chunk :
  settled (startEvents w command args chunk)
  = List.filter (λ f, negb (bool_decide (failsEarly w command args f = None))) chunk.
Proof.
  induction chunk as [|f chunk IH]; [done|].
  unfold startEvents in *. rewrite bind_cons, settled_app, IH. simpl List.filter.
  destruct (failsEarly w command args f) as [e|].
  - by rewrite bool_decide_false.
  - by rewrite bool_decide_true.
Qed.

(** Every item of a chunk settles once. *)
Lemma settled_chunkEvents chunk :
  fairSettle w → settled (chunkEvents w command args chunk) ≡ₚ chunk.
Proof.
  intros Hfair. unfold chunkEvents.
  change (settled (EChunk chunk :: ?t)) with (settled t).
  rewrite settled_app, settled_startEvents, settled_settles.
  rewrite (Hfair (pendingOf w command args chunk)).
  unfold pendingOf. rewrite Permutation_app_comm.
  symmetry. apply filter_split_Permutation.
Qed.

Lemma settled_chunks cs :
  fairSettle w → settled (cs ≫= chunkEvents w command args) ≡ₚ concat cs.
Proof.
  intros Hfair. induction cs as [|ch cs IH]; [done|].
  rewrite bind_cons, settled_app, settled_chunkEvents, IH by done. reflexivity.
Qed.

Lemma elem_of_chunksOf c tr : EChunk c ∈ tr → c ∈ chunksOf tr.
Proof.
  intros Hin. unfold chunksOf. apply list_elem_of_bind. exists (EChunk c).
  split; [apply list_elem_of_here|done].
Qed.

(** A chunk is announced in the trace of a sequence of chunks only at the
    head of its own events. *)
Lemma chunk_announced cs report p c :
  chunksOf report = [] →
  (p ++ [EChunk c]) `prefix_of` ((cs ≫= chunkEvents w command args) ++ report) →
  ∃ cs1 cs2, cs = cs1 ++ c :: cs2 ∧ p = cs1 ≫= chunkEvents w command args.
Proof.
  intros Hreport. revert p. induction cs as [|ch cs IH]; intros p Hp.
  - destruct Hp as [k Hk]. simpl in Hk.
    assert (Hc : c ∈ chunksOf report).
    { apply elem_of_chunksOf. rewrite Hk. apply elem_of_app. left.
      apply elem_of_app. right. apply list_elem_of_here. }
    rewrite Hreport in Hc. by apply elem_of_nil in Hc.
  - rewrite bind_cons, <- app_assoc in Hp. unfold chunkEvents at 1 in Hp.
    destruct p as [|e p].
    + destruct Hp as [k Hk]. simpl in Hk. injection Hk as <- _.
      by exists [], cs.
    + assert (He : e = EChunk ch).
      { destruct Hp as [k Hk]. simpl in Hk. by injection Hk as <- _. }
      subst e.
      assert (Hp' : (p ++ [EChunk c])
                    `prefix_of` ((startEvents w command args ch
                                   ++ (ESettle <$> settleOrder w (pendingOf w command args ch)))
                                  ++ ((cs ≫= chunkEvents w command args) ++ report))).
      { destruct Hp as [k Hk]. exists k. simpl in Hk. by injection Hk as ->. }
      apply prefix_skip in Hp' as (p' & -> & Hp').
      * destruct (IH p' Hp') as (cs1 & cs2 & -> & ->).
        exists (ch :: cs1), cs2. split; [done|].
        rewrite bind_cons. unfold chunkEvents at 2. simpl. by rewrite <- app_assoc.
      * intros Hin%elem_of_chunksOf.
        pose proof (chunksOf_chunkEvents ch) as Hch. unfold chunkEvents in Hch.
        change (chunksOf (EChunk ch :: ?t)) with (ch :: chunksOf t) in Hch.
        injection Hch as Hch. rewrite Hch in Hin. by apply elem_of_nil in Hin.
Qed.

End Inflight.

(** ** The schedule does not depend on outcomes *)

Lemma schedule_fields s1 s2 :
  schedule s1 = schedule s2 →
  packagesCopy s1 = packagesCopy s2 ∧ files s1 = files s2
  ∧ deps s1 = deps s2 ∧ rounds s1 = rounds s2.
Proof. unfold schedule. intros [= -> -> -> ->]. done. Qed.


Lemma retire_schedule ready s1 s2 :
  schedule s1 = schedule s2 →
  schedule (foldl retireOne s1 ready) = schedule (foldl retireOne s2 ready).
Proof.
  revert s1 s2. induction ready as [|f ready IH]; intros s1 s2 Hs; [done|].
  simpl. apply IH. apply schedule_fields in Hs as (Hp & Hf & Hd & Hr).
  unfold retireOne, schedule, setDeps, setPackagesCopy. cbn.
  rewrite Hp, Hf, Hd, Hr. reflexivity.
Qed.

Lemma finish_deadlocked st : ¬ deadlocked (finish st).
Proof. unfold deadlocked, finish. destruct (_ >? 0); discriminate. Qed.




(** ** Failures are recorded *)

Lemma elem_of_concat {A} (x : A) (ls : list (list A)) :
  x ∈ concat ls ↔ ∃ l, x ∈ l ∧ l ∈ ls.
Proof.
  induction ls as [|l ls IH]; simpl.
  - split; [by intros ?%elem_of_nil|]. intros (l & _ & H). by apply elem_of_nil in H.
  - rewrite elem_of_app, IH. split.
    + intros [H|(l' & H1 & H2)].
      * exists l. split; [done|apply list_elem_of_here].
      * exists l'. split; [done|by apply list_elem_of_further].
    + intros (l' & H1 & H2). apply elem_of_cons in H2 as [->|H2]; [by left|].
      right. by exists l'.
Qed.

Section Recorded.

Variable w : World.
Variables (command : string) (args : list string).



End Recorded.

(** ** A run that does not deadlock dispatches every package *)

Lemma spliceIndexOf_present x l :
  x ∈ l → l ≡ₚ x :: Js.spliceIndexOf (Some x) l.
Proof.
  intros Hin. destruct (indexOf_present x l Hin) as [Hge Hlk].
  pose proof (indexOf_range x l) as Hr.
  unfold Js.spliceIndexOf. cbn [Js.indexOfV]. rewrite splice_at by lia.
  by apply delete_Permutation.
Qed.

Lemma filter_submseteq (p : string → bool) l : List.filter p l ⊆+ l.
Proof.
  induction l as [|x l IH]; simpl; [constructor|].
  destruct (p x); by constructor.
Qed.

(** Removing, one by one, the items of a sub-multiset [r] of [l] leaves
    what [l] holds besides [r]. *)
Lemma fold_splice_Permutation r l :
  r ⊆+ l → l ≡ₚ r ++ foldl (λ k f, Js.spliceIndexOf (Some f) k) l r.
Proof.
  revert l. induction r as [|y r IH]; intros l Hsub; [done|].
  assert (Hy : y ∈ l) by (eapply elem_of_submseteq; [apply list_elem_of_here|done]).
  pose proof (spliceIndexOf_present y l Hy) as Hperm.
  simpl. rewrite <- IH.
  - exact Hperm.
  - rewrite Hperm in Hsub. by apply (submseteq_app_inv_l _ _ [y]).
Qed.

Lemma retire_packagesCopy_fold ready st :
  packagesCopy (foldl retireOne st ready)
  = foldl (λ k f, Js.spliceIndexOf (Some f) k) (packagesCopy st) ready.
Proof.
  revert st. induction ready as [|f ready IH]; intros st; [done|].
  simpl. by rewrite IH.
Qed.

Lemma doWhile_drains w fuel u command args st r :
  doWhile w fuel u command args st = Some r →
  ¬ deadlocked r →
  concat (rounds (final r)) ≡ₚ concat (rounds st) ++ packagesCopy st.
Proof.
  revert st. induction fuel as [|k IH]; intros st Hrun Hlive; [discriminate|].
  cbn [doWhile] in Hrun.
  destruct (_ && _); [injection Hrun as <-; by destruct Hlive|].
  destruct (dispatchChunks _ _ _ _ _ _) as [st1|] eqn:Hd; [|discriminate].
  destruct (dispatchChunks_returns w (length (emptyPackages u st)) command args
              (emptyPackages u st) (pushRound (emptyPackages u st) st))
    as (st1' & Hd' & Hs); [lia|].
  rewrite Hd in Hd'. injection Hd' as <-.
  apply schedule_fields in Hs as (Hp & _ & _ & Hr). cbn [pushRound packagesCopy rounds] in *.
  destruct u as [|l].
  { injection Hrun as <-. rewrite finish_final, Hr, concat_app. simpl.
    by rewrite app_nil_r. }
  set (ready := emptyPackages (UncheckList l) st) in *.
  set (st2 := foldl retireOne st1 ready) in *.
  assert (Hperm : packagesCopy st ≡ₚ ready ++ packagesCopy st2).
  { unfold st2. rewrite retire_packagesCopy_fold, Hp.
    apply fold_splice_Permutation, filter_submseteq. }
  assert (Hrounds : rounds st2 = rounds st ++ [ready]).
  { unfold st2. destruct (retire_files_rounds ready st1) as (_ & -> & _). exact Hr. }
  destruct (len (packagesCopy st2) >? 0) eqn:Hmore.
  - rewrite (IH _ Hrun Hlive), Hrounds, concat_app, Hperm. simpl.
    by rewrite app_nil_r, <- app_assoc.
  - injection Hrun as <-. rewrite finish_final, Hrounds, concat_app, Hperm. simpl.
    unfold len in Hmore. destruct (packagesCopy st2); [|simpl in Hmore; zbool; lia].
    done.
Qed.

(** The exit code as a function of how the run ended. *)
Lemma cliExitCode_of_run w env pk command args r :
  runPackageCommand w env pk command args = Some r →
  cliExitCode w env pk (Some command) args
  = Some match completion r with
         | Returned RFalse => 1
         | Returned (RCode n) => if n =? 0 then 1 else 0
         | Returned (RErrors _) => 0
         | Threw _ => 1
         end.
Proof.
  intros Hr. unfold cliExitCode. rewrite Hr.
  destruct (completion r) as [[|n|l]|e]; try reflexivity.
  simpl. destruct (n =? 0); reflexivity.
Qed.

(** ** A package that waits is dispatched in a later round *)

Section LaterRound.

Variable w : World.
Variables (command : string) (args : list string).



Lemma retire_rounds ready st :
  rounds (foldl retireOne st ready) = rounds st
  ∧ files (foldl retireOne st ready) = files st.
Proof. destruct (retire_files_rounds ready st) as (-> & -> & _). done. Qed.


Lemma elem_of_emptyPackages l st f :
  f ∈ emptyPackages (UncheckList l) st ↔ f ∈ packagesCopy st ∧ isReady st f = true.
Proof. cbn [emptyPackages]. rewrite !list_elem_of_In. apply List.filter_In. Qed.



End LaterRound.

(** * The claims *)

(** ** The command line's exit code *)

(** C1 (the code departs from the claim). The command line leaves with
    code 1 exactly when [runPackageCommand] returned [false], that is on a
    run without any failure, and with code 0 when the run returned the
    deadlock code or a list of failures: on the chain universe with every
    command succeeding the exit code is 1, and on the two-node cycle, which
    deadlocks, it is 0. *)
Theorem cli_exit_code_is_inverted :
  (completion <$> runPackageCommand (Examples.world Examples.chainFs) Examples.checked
                    Examples.chainPackages "yarn" ["build"]) = Some (Returned RFalse)
  ∧ cliExitCode (Examples.world Examples.chainFs) Examples.checked
      Examples.chainPackages (Some "yarn") ["build"] = Some 1
  ∧ (completion <$> runPackageCommand (Examples.world Examples.cycleFs) Examples.checked
                      Examples.cyclePackages "yarn" ["build"]) = Some (Returned (RCode 1))
  ∧ cliExitCode (Examples.world Examples.cycleFs) Examples.checked
      Examples.cyclePackages (Some "yarn") ["build"] = Some 0.
Proof. repeat split; vm_compute; reflexivity. Qed.

(** ** Rounds of the scheduler *)

(** C2 (the code departs from the claim). On the acyclic chain in which C
    depends on B and B depends on A, the run drains in two rounds, and the
    second round dispatches C together with its dependency B. *)
Theorem chain_dependent_shares_round :
  (λ r, (completion r, rounds (final r)))
    <$> runPackageCommand (Examples.world Examples.chainFs) Examples.checked
          Examples.chainPackages "yarn" ["build"]
  = Some (Returned RFalse,
          [["a/package.json"]; ["b/package.json"; "c/package.json"]]).
Proof. vm_compute. reflexivity. Qed.

(** ** Retirement *)

(** C3 (the code departs from the claim). In the chain universe, retiring
    A after the first round strikes A from B's list and also empties C's
    list, which held only B and never held A. *)
Theorem retire_strikes_unrelated_name :
  let st := mkState Examples.chainPackages
              {[ "a/package.json" := "A"; "b/package.json" := "B"; "c/package.json" := "C" ]}
              {[ "A" := []; "B" := ["A"]; "C" := ["B"] ]} [] 0 [] [] in
  buildGraph (Examples.world Examples.chainFs) [] Examples.chainPackages
  = inr (files st, deps st)
  ∧ deps (retireOne st "a/package.json") = {[ "B" := []; "C" := [] ]}.
Proof. split; vm_compute; reflexivity. Qed.

(** ** Edges of the built graph *)




(** ** Deadlock *)

(** C5. A round that finds no ready package while packages remain returns
    the code 1 at once: the only thing added to the state is the deadlock
    report, which carries the names of the residual packages and the
    dependency graph as it stands; no item is started and no failure is
    recorded. On the two-node cycle the very first round is such a round:
    the run returns 1, its trace is the single report naming A and B with
    their unresolved lists, and no command was started, whatever the
    collaborators other than the manifests are. *)
Theorem deadlock_aborts_immediately :
  (∀ w k u command args st,
      emptyPackages u st = [] →
      packagesCopy st ≠ [] →
      doWhile w (S k) u command args st
      = Some (mkRun (Returned (RCode 1))
                (emit (EDeadlock ((λ f, files st !! f) <$> packagesCopy st) (deps st)) st)))
  ∧ (∀ dir res spawn order n,
        ∃ r, runPackageCommand (mkWorld dir res Examples.cycleFs spawn order n)
               Examples.checked Examples.cyclePackages "yarn" ["build"] = Some r
             ∧ completion r = Returned (RCode 1)
             ∧ trace (final r)
               = [EDeadlock [Some "A"; Some "B"] {[ "A" := ["B"]; "B" := ["A"] ]}]
             ∧ started (trace (final r)) = []
             ∧ errors (final r) = []
             ∧ rounds (final r) = []).
Proof.
  split.
  - intros w k u command args st Hready Hremain. cbn [doWhile].
    rewrite Hready. unfold len. destruct (packagesCopy st); [done|]. reflexivity.
  - intros dir res spawn order n. eexists. split; [vm_compute; reflexivity|].
    repeat split; vm_compute; reflexivity.
Qed.

(** The first round of the two-node cycle. *)
Lemma deadlock_aborts_immediately_witness :
  let w := Examples.world Examples.cycleFs in
  let st := mkState Examples.cyclePackages
              {[ "a/package.json" := "A"; "b/package.json" := "B" ]}
              {[ "A" := ["B"]; "B" := ["A"] ]} [] 0 [] [] in
  doWhile w 3 (UncheckList []) "yarn" ["build"] st
  = Some (mkRun (Returned (RCode 1))
            (emit (EDeadlock ((λ f, files st !! f) <$> packagesCopy st) (deps st)) st)).
Proof.
  intros w st.
  apply (proj1 deadlock_aborts_immediately w 2%nat (UncheckList []) "yarn" ["build"] st).
  - vm_compute. reflexivity.
  - discriminate.
Defined.

(** ** Failures do not abort the run *)

(** C6 (the code departs from the claim). On the chain universe with the
    command failing in [b], the failure of B is recorded and the run goes
    on to return the list of failures, but C, which declares B and waits
    for it in the built graph, is dispatched in the round of the failed B,
    not in a later one: the retirement of A has struck B from C's list
    (the defect of C2 and C3), as it does when B succeeds. *)
Theorem dependent_of_failed_package_shares_its_round :
  let w := Examples.flakyChain in
  ∃ r g, runPackageCommand w Examples.checked Examples.chainPackages "yarn" ["build"]
         = Some r
         ∧ buildGraph w [] Examples.chainPackages = inr g
         ∧ unresolvedIn (snd g) "B" "C"
         ∧ completion r = Returned (RErrors (errors (final r)))
         ∧ errors (final r)
           = [mkCommandExecutionError "b"
                (ProcessError (mkCommandLineError EmptyString "build failed" 1))]
         ∧ rounds (final r) = [["a/package.json"]; ["b/package.json"; "c/package.json"]].
Proof.
  cbv zeta. eexists _, _. split; [vm_compute; reflexivity|].
  split; [vm_compute; reflexivity|]. split.
  { exists ["B"]. split; [vm_compute; reflexivity|]. apply list_elem_of_here. }
  repeat split; vm_compute; reflexivity.
Qed.



(** ** Exempt-all runs *)

(** C7. With [--uncheck] set to [true] or to the star, the run builds no
    graph ([files] and [deps] stay empty, whatever the manifests hold, even
    unreadable ones), makes exactly one round whose frontier is the whole
    package list, starts every package of the list in order, and returns
    [false] or the recorded failures. *)
Theorem exempt_all_single_round w env pk command args :
  uncheck env = EnvBool true ∨ uncheck env = EnvString "*" →
  ∃ r, runPackageCommand w env pk command args = Some r
       ∧ rounds (final r) = [pk]
       ∧ started (trace (final r)) = pk
       ∧ files (final r) = ∅
       ∧ deps (final r) = ∅
       ∧ completion r = match errors (final r) with
                        | [] => Returned RFalse
                        | _ :: _ => Returned (RErrors (errors (final r)))
                        end.
Proof.
  intros Hu. unfold runPackageCommand.
  assert (parseUncheck (uncheck env) = UncheckAll) as ->.
  { destruct Hu as [-> | ->]; reflexivity. }
  set (st0 := initialState pk (∅, ∅)).
  cbn [doWhile emptyPackages]. change (packagesCopy st0) with pk.
  assert ((len pk =? 0) && (len pk >? 0) = false) as ->.
  { unfold len. destruct pk; reflexivity. }
  destruct (dispatchChunks_returns w (length pk) command args pk (pushRound pk st0))
    as (st1 & Hd & _); [lia|].
  rewrite Hd. apply dispatchChunks_extend in Hd as (cs & Hcs & _ & ->).
  set (stf := addProcessed _ _).
  exists (finish stf). split; [reflexivity|]. rewrite finish_final.
  split; [reflexivity|]. split.
  { unfold stf, addProcessed, extend, pushRound, st0, initialState.
    cbn [trace app fst snd]. by rewrite started_chunks. }
  split; [reflexivity|]. split; [reflexivity|].
  unfold finish, len. destruct (errors stf); reflexivity.
Qed.

(** The chain universe, run with the star. *)
Lemma exempt_all_single_round_witness :
  ∃ r, runPackageCommand (Examples.world Examples.chainFs)
         (mkRunnerEnv None (EnvString "*") None) Examples.chainPackages "yarn" ["build"]
       = Some r
       ∧ rounds (final r) = [Examples.chainPackages]
       ∧ started (trace (final r)) = Examples.chainPackages
       ∧ files (final r) = ∅
       ∧ deps (final r) = ∅
       ∧ completion r = match errors (final r) with
                        | [] => Returned RFalse
                        | _ :: _ => Returned (RErrors (errors (final r)))
                        end.
Proof.
  apply (exempt_all_single_round (Examples.world Examples.chainFs)
           (mkRunnerEnv None (EnvString "*") None)).
  right. reflexivity.
Defined.

(** ** Bounded concurrency *)

(** C8. The limit [maxThreads] is the larger of 2 and half the number of
    logical CPUs rounded to the nearest integer (halves upwards), fixed for
    the run. Provided every pending promise settles, in every run: the
    chunks announced in the trace cut each round's frontier into
    consecutive pieces; the trace is made of the events of these chunks,
    one chunk after the other, followed at most by the report of a
    deadlock, so that the items started are exactly the items of the
    chunks; every chunk holds between one and [maxThreads] items and is
    announced only when every item started before has settled, and the
    events that follow its announcement are its own, whole: all its items
    are started, in order, before the run waits for any of them, and then
    each of them settles. Right after the last item of a chunk is started,
    all its items that have reached their [await] are in flight together.
    At every instant of the trace the number of items in flight lies
    between zero and [maxThreads]. *)
Theorem concurrency_is_bounded w env pk command args :
  fairSettle w →
  (∃ h, maxThreads w = Z.max h 2 ∧ Z.of_nat (cpus w) ≤ 2 * h ≤ Z.of_nat (cpus w) + 1)
  ∧ (∀ c, started (startEvents w command args c) = c
          ∧ inflight (startEvents w command args c) = len (pendingOf w command args c)
          ∧ settled (chunkEvents w command args c) ≡ₚ c)
  ∧ ∃ r, runPackageCommand w env pk command args = Some r
         ∧ (∃ css, chunksOf (trace (final r)) = concat css
                   ∧ @concat string <$> css = rounds (final r))
         ∧ (∃ report,
               trace (final r)
               = (chunksOf (trace (final r)) ≫= chunkEvents w command args) ++ report
               ∧ (report = [] ∨ ∃ names graph, report = [EDeadlock names graph]))
         ∧ started (trace (final r)) = concat (chunksOf (trace (final r)))
         ∧ (∀ p c, (p ++ [EChunk c]) `prefix_of` trace (final r) →
                   inflight p = 0 ∧ 0 < len c ≤ maxThreads w
                   ∧ settled p ≡ₚ started p
                   ∧ (p ++ chunkEvents w command args c) `prefix_of` trace (final r))
         ∧ (∀ p, p `prefix_of` trace (final r) → 0 ≤ inflight p ≤ maxThreads w).
Proof.
  intros Hfair. split; [|split].
  { exists (Js.roundHalf (cpus w)). split; [reflexivity|]. unfold Js.roundHalf. Z.div_mod_to_equations. lia. }
  { intros c. split; [apply started_startEvents|]. split.
    - apply (within_startEvents w command args (len c) 0 c); lia.
    - by apply settled_chunkEvents. }
  pose proof (maxThreads_ge_2 w) as HN.
  set (P := λ st : State,
         within (maxThreads w) 0 (trace st) ∧ inflight (trace st) = 0
         ∧ ∃ css, chunksOf (trace st) = concat css ∧ @concat string <$> css = rounds st).
  assert (Hinit : ∀ g, P (initialState pk g)).
  { intros g. split; [done|]. split; [reflexivity|]. by exists []. }
  assert (Hloop : ∀ fuel u st r,
             doWhile w fuel u command args st = Some r → P st → P (final r)).
  { intros fuel u st r Hrun Hst.
    eapply (doWhile_invariant P); [exact Hrun|exact Hst|..].
    - intros s s' (Hw & Hz & css & Hc1 & Hc2) Hd.
      apply dispatchChunks_extend in Hd as (cs & Hcs & Hall & ->).
      unfold P, addProcessed, extend, pushRound. cbn [trace rounds].
      destruct (within_chunks w command args (maxThreads w) cs Hfair Hall) as [H1 H2].
      split; [|split].
      + apply within_app. rewrite Hz. done.
      + rewrite inflight_app. lia.
      + exists (css ++ [cs]). rewrite chunksOf_app, chunksOf_chunks, Hc1.
        rewrite concat_app, fmap_app, Hc2. simpl. by rewrite app_nil_r, Hcs.
    - intros s f Hs. exact Hs.
    - intros s names g (Hw & Hz & css & Hc1 & Hc2).
      unfold P, emit. cbn [trace rounds]. split; [|split].
      + apply within_app. rewrite Hz. cbn [within delta]. split; [done|]. lia.
      + rewrite inflight_app, inflight_cons, inflight_nil. cbn [delta]. lia.
      + exists css. rewrite chunksOf_app. simpl. by rewrite app_nil_r. }
  set (T := λ st : State, trace st = chunksOf (trace st) ≫= chunkEvents w command args).
  set (Q := λ st : State,
         ∃ report, trace st = (chunksOf (trace st) ≫= chunkEvents w command args) ++ report
                   ∧ (report = [] ∨ ∃ names graph, report = [EDeadlock names graph])).
  assert (Hshape : ∀ fuel u st r,
             doWhile w fuel u command args st = Some r → T st → Q (final r)).
  { intros fuel u st r Hrun Hst.
    eapply (doWhile_rule T Q); [exact Hrun|exact Hst|..].
    - intros s s' Hs Hd.
      apply dispatchChunks_extend in Hd as (cs & Hcs & Hall & ->).
      unfold T, addProcessed, extend, pushRound in *. cbn [trace] in *.
      rewrite chunksOf_app, chunksOf_chunks, bind_app, <- Hs. reflexivity.
    - intros s f Hs. exact Hs.
    - intros s Hs. exists []. rewrite app_nil_r. split; [exact Hs|by left].
    - intros s names g Hs. exists [EDeadlock names g].
      unfold T, emit in *. cbn [trace]. rewrite chunksOf_app. simpl.
      rewrite app_nil_r, <- Hs. split; [done|]. right. eauto. }
  destruct (runPackageCommand_returns w env pk command args) as [r Hr].
  exists r. split; [exact Hr|].
  assert (HP : P (final r) ∧ Q (final r)).
  { unfold runPackageCommand in Hr. destruct (parseUncheck (uncheck env)) as [|l].
    - split; [by eapply Hloop|by eapply Hshape].
    - destruct (buildGraph w l pk) as [e|g].
      + injection Hr as <-. split; [apply Hinit|]. exists []. split; [done|by left].
      + split; [by eapply Hloop|by eapply Hshape]. }
  destruct HP as [(Hw & Hz & Hcss) (report & Hdecomp & Hreport)].
  assert (Hnone : chunksOf report = [] ∧ started report = []).
  { destruct Hreport as [->|(names & graph & ->)]; done. }
  destruct Hnone as [Hnochunk Hnostart].
  split; [exact Hcss|]. split; [by exists report|]. split.
  { rewrite Hdecomp at 1. by rewrite started_app, started_chunks, Hnostart, app_nil_r. }
  split.
  - intros p c Hp. destruct (within_chunk _ _ _ _ Hw Hp) as [Hzero Hlen].
    split; [done|]. split; [done|].
    rewrite Hdecomp in Hp.
    apply (chunk_announced w command args _ _ _ _ Hnochunk) in Hp
      as (cs1 & cs2 & Hcs & ->).
    split.
    + by rewrite settled_chunks, started_chunks.
    + rewrite Hdecomp, Hcs, bind_app, bind_cons.
      exists ((cs2 ≫= chunkEvents w command args) ++ report).
      by rewrite <- !app_assoc.
  - intros p Hp. eapply within_prefix; [lia|exact Hw|exact Hp].
Qed.

(** The chain universe on a host with four logical CPUs. *)
Lemma concurrency_is_bounded_witness :
  let w := Examples.world Examples.chainFs in
  ∃ r, runPackageCommand w Examples.checked Examples.chainPackages "yarn" ["build"]
       = Some r
       ∧ trace (final r)
         = chunkEvents w "yarn" ["build"] ["a/package.json"]
           ++ chunkEvents w "yarn" ["build"] ["b/package.json"; "c/package.json"]
       ∧ (∀ p c, (p ++ [EChunk c]) `prefix_of` trace (final r) →
                 inflight p = 0 ∧ 0 < len c ≤ maxThreads w
                 ∧ settled p ≡ₚ started p
                 ∧ (p ++ chunkEvents w "yarn" ["build"] c) `prefix_of` trace (final r))
       ∧ (∀ p, p `prefix_of` trace (final r) → 0 ≤ inflight p ≤ maxThreads w).
Proof.
  intros w.
  destruct (concurrency_is_bounded w Examples.checked Examples.chainPackages "yarn"
              ["build"]) as (_ & _ & r & Hr & _ & _ & _ & Hchunk & Hbound).
  { intros l. reflexivity. }
  exists r. split; [exact Hr|]. split; [|split; [exact Hchunk|exact Hbound]].
  vm_compute in Hr. injection Hr as <-. vm_compute. reflexivity.
Defined.

(** ** Manifests without a dependencies field *)

(** C9 (as the claim states it, refuted). The only manifest of the bare
    universe has no [dependencies] field and checking is not exempt-all,
    yet with its name A in the exemption list the run does not throw: it
    starts the package and returns [false]. *)
Lemma exempted_manifest_without_dependencies_runs :
  let w := Examples.world Examples.bareFs in
  let env := mkRunnerEnv None (EnvString "A") None in
  parseUncheck (uncheck env) = UncheckList ["A"]
  ∧ (dependencies <$> readPackage w "a/package.json") = Some None
  ∧ ∃ r, runPackageCommand w env Examples.barePackages "yarn" ["build"] = Some r
         ∧ completion r = Returned RFalse
         ∧ started (trace (final r)) = ["a/package.json"].
Proof.
  cbv zeta. split; [reflexivity|]. split; [reflexivity|].
  eexists. split; [vm_compute; reflexivity|]. split; reflexivity.
Qed.

(** C9 (amended). With an exemption list, if some manifest of the universe
    whose name is not in the list lacks the [dependencies] field, the run
    throws during graph construction: nothing was started, no failure was
    recorded and no round was made. When every manifest of the universe is
    readable, what is thrown is a type error raised for a manifest whose
    name is not in the list: the property read on its missing
    [dependencies], or, when its name is a name of [Object.prototype] such
    as [constructor], the call of [includes] on what [deps] inherits under
    that name. *)
Theorem missing_dependencies_throws w env pk command args unchecked f m :
  parseUncheck (uncheck env) = UncheckList unchecked →
  f ∈ pk →
  readPackage w f = Some m →
  dependencies m = None →
  name m ∉ unchecked →
  ∃ r e, runPackageCommand w env pk command args = Some r
         ∧ completion r = Threw e
         ∧ trace (final r) = []
         ∧ errors (final r) = []
         ∧ rounds (final r) = []
         ∧ ((∀ x, x ∈ pk → is_Some (readPackage w x)) →
            ∃ f' m', f' ∈ pk ∧ readPackage w f' = Some m' ∧ (name m' ∉ unchecked)
                     ∧ ((e = TypeErrorDependencies f' ∧ dependencies m' = None)
                        ∨ (e = TypeErrorIncludes f' ∧ is_Some (dependencies m')
                           ∧ Js.inherited (name m') = true))).
Proof.
  intros Hu Hin Hread Hdeps Hex. unfold runPackageCommand. rewrite Hu.
  destruct (buildGraph_missing w unchecked pk f m Hin Hread Hdeps Hex) as [e Hbuild].
  rewrite Hbuild. eexists _, e. split; [reflexivity|]. repeat split.
  intros Hall. apply buildGraph_inl in Hbuild as [(x & Hx & Hnone & _)|[H|H]].
  - destruct (Hall x Hx) as [? ?]. congruence.
  - destruct H as (f' & m' & H1 & H2 & H3 & H4 & H5). exists f', m'.
    split; [done|]. split; [done|]. split; [done|]. by left.
  - destruct H as (f' & m' & H1 & H2 & H3 & H4 & H5 & H6). exists f', m'.
    split; [done|]. split; [done|]. split; [done|]. by right.
Qed.

(** The bare universe under full checking. *)
Lemma missing_dependencies_throws_witness :
  ∃ r, runPackageCommand (Examples.world Examples.bareFs) Examples.checked
         Examples.barePackages "yarn" ["build"] = Some r
       ∧ completion r = Threw (TypeErrorDependencies "a/package.json")
       ∧ trace (final r) = []
       ∧ errors (final r) = []
       ∧ rounds (final r) = [].
Proof.
  destruct (missing_dependencies_throws (Examples.world Examples.bareFs) Examples.checked
              Examples.barePackages "yarn" ["build"] [] "a/package.json"
              (mkPackageJson "A" "1.0.0" None None))
    as (r & e & Hr & He & Ht & Herr & Hrounds & _).
  - reflexivity.
  - apply list_elem_of_here.
  - reflexivity.
  - reflexivity.
  - apply not_elem_of_nil.
  - exists r. split; [exact Hr|]. split; [|by repeat split].
    vm_compute in Hr. injection Hr as <-. reflexivity.
Defined.

(** ** Determinism of graph construction *)

(** C10. Graph construction is a function of the manifest contents: two
    constructions with the same exemption list, over package lists whose
    manifests read the same one by one (from any two file systems, at any
    paths), either both throw or yield the same mapping from package name
    to unresolved list, the lists in the same order. *)
Theorem adjacency_determined_by_manifests w1 w2 unchecked pk1 pk2 :
  readPackage w1 <$> pk1 = readPackage w2 <$> pk2 →
  adjacency (buildGraph w1 unchecked pk1) = adjacency (buildGraph w2 unchecked pk2).
Proof. intros Hpk. unfold buildGraph. by apply outer_loop_same. Qed.

(** The chain universe and its copy under another directory. *)
Lemma adjacency_determined_by_manifests_witness :
  adjacency (buildGraph (Examples.world Examples.chainFs) [] Examples.chainPackages)
  = adjacency (buildGraph (Examples.world Examples.movedChainFs) []
                 Examples.movedChainPackages).
Proof.
  apply (adjacency_determined_by_manifests (Examples.world Examples.chainFs)
           (Examples.world Examples.movedChainFs) []).
  vm_compute. reflexivity.
Defined.

(** * Further properties of the runner *)

(** ** What the scheduler loop returns and leaves behind *)

(** How the loop can end: with [false] and no recorded failure, with the
    non-empty list of recorded failures, or with the code 1 right after
    the report of a deadlock. *)
Lemma doWhile_result w fuel u command args st r :
  doWhile w fuel u command args st = Some r →
  match completion r with
  | Returned RFalse => errors (final r) = []
  | Returned (RErrors l) => l = errors (final r) ∧ l ≠ []
  | Returned (RCode n) =>
      n = 1 ∧ packagesCopy (final r) ≠ []
      ∧ emptyPackages u (final r) = []
      ∧ ∃ tr, trace (final r)
              = tr ++ [EDeadlock ((λ f, files (final r) !! f) <$> packagesCopy (final r))
                         (deps (final r))]
  | Threw _ => False
  end.
Proof.
  assert (Hfin : ∀ x, match completion (finish x) with
                      | Returned RFalse => errors (final (finish x)) = []
                      | Returned (RErrors l) => l = errors (final (finish x)) ∧ l ≠ []
                      | _ => False
                      end).
  { intros x. unfold finish, len. destruct (errors x) eqn:E; simpl; [done|].
    rewrite E. split; [done|discriminate]. }
  assert (Hfin' : ∀ x, match completion (finish x) with
                       | Returned RFalse => errors (final (finish x)) = []
                       | Returned (RErrors l) => l = errors (final (finish x)) ∧ l ≠ []
                       | Returned (RCode n) =>
                           n = 1 ∧ packagesCopy (final (finish x)) ≠ []
                           ∧ emptyPackages u (final (finish x)) = []
                           ∧ ∃ tr, trace (final (finish x))
                                   = tr ++ [EDeadlock ((λ f, files (final (finish x)) !! f)
                                                         <$> packagesCopy (final (finish x)))
                                              (deps (final (finish x)))]
                       | Threw _ => False
                       end).
  { intros x. specialize (Hfin x). by destruct (completion (finish x)) as [[| |]|]. }
  revert st. induction fuel as [|k IH]; intros st Hrun; [discriminate|].
  cbn [doWhile] in Hrun.
  destruct (_ && _) eqn:Hdead.
  { injection Hrun as <-. cbn [completion final].
    apply andb_true_iff in Hdead as [Hz Hpos].
    split; [done|]. unfold len in *. split.
    { cbn [emit packagesCopy]. destruct (packagesCopy st); [discriminate|done]. }
    split.
    { destruct u; cbn [emptyPackages emit packagesCopy deps files] in *.
      - destruct (packagesCopy st); [done|discriminate].
      - unfold isReady. cbn [deps files].
        destruct (List.filter _ _) eqn:E; [done|discriminate]. }
    exists (trace st). reflexivity. }
  destruct (dispatchChunks _ _ _ _ _ _); [|discriminate].
  destruct u; [injection Hrun as <-; apply Hfin'|].
  match type of Hrun with context [if ?b then _ else _] => destruct b end.
  - eapply IH. exact Hrun.
  - injection Hrun as <-. apply Hfin'.
Qed.

(** The items started are the items of the rounds. *)
Lemma doWhile_started w fuel u command args st r :
  doWhile w fuel u command args st = Some r →
  started (trace st) = concat (rounds st) →
  processedFiles st = len (started (trace st)) →
  started (trace (final r)) = concat (rounds (final r))
  ∧ processedFiles (final r) = len (started (trace (final r))).
Proof.
  intros Hrun H1 H2.
  eapply (doWhile_invariant
            (λ s, started (trace s) = concat (rounds s)
                  ∧ processedFiles s = len (started (trace s)))); [exact Hrun|done|..].
  - intros s s' [Hs Hp] Hd.
    apply dispatchChunks_extend in Hd as (cs & Hcs & _ & ->).
    unfold addProcessed, extend, pushRound. cbn [trace rounds processedFiles].
    rewrite started_app, started_chunks, Hcs, concat_app, Hs. simpl.
    rewrite app_nil_r. split; [done|].
    rewrite Hp, Hs. unfold len. rewrite length_app. lia.
  - intros s f Hs. exact Hs.
  - intros s names g [Hs Hp]. unfold emit. cbn [trace rounds processedFiles].
    rewrite started_app. simpl. rewrite app_nil_r. done.
Qed.

(** In checked mode the rounds made and the packages that remain are, at
    all times, the packages the loop was entered with. *)
Lemma doWhile_partition w fuel l command args st r :
  doWhile w fuel (UncheckList l) command args st = Some r →
  concat (rounds (final r)) ++ packagesCopy (final r)
  ≡ₚ concat (rounds st) ++ packagesCopy st.
Proof.
  revert st. induction fuel as [|k IH]; intros st Hrun; [discriminate|].
  cbn [doWhile] in Hrun.
  destruct (_ && _); [by injection Hrun as <-|].
  set (ready := emptyPackages (UncheckList l) st) in *.
  destruct (dispatchChunks _ _ _ _ _ _) as [st1|] eqn:Hd; [|discriminate].
  destruct (dispatchChunks_returns w (length ready) command args ready
              (pushRound ready st)) as (st1' & Hd' & Hs); [lia|].
  rewrite Hd in Hd'. injection Hd' as <-.
  apply schedule_fields in Hs as (Hp & _ & _ & Hr). cbn [pushRound packagesCopy rounds] in *.
  set (st2 := foldl retireOne st1 ready) in *.
  assert (Hperm : packagesCopy st ≡ₚ ready ++ packagesCopy st2).
  { unfold st2. rewrite retire_packagesCopy_fold, Hp.
    apply fold_splice_Permutation, filter_submseteq. }
  assert (Hrounds : rounds st2 = rounds st ++ [ready]).
  { unfold st2. destruct (retire_rounds ready st1) as [-> _]. exact Hr. }
  assert (Hst2 : concat (rounds st2) ++ packagesCopy st2
                 ≡ₚ concat (rounds st) ++ packagesCopy st).
  { rewrite Hrounds, concat_app, Hperm. simpl. by rewrite app_nil_r, <- app_assoc. }
  destruct (_ >? 0).
  - by rewrite (IH _ Hrun).
  - injection Hrun as <-. by rewrite finish_final.
Qed.

(** X1. Provided every pending promise settles, that is every child
    process closes or fails, every run ends in one of four ways, and its
    result tells which: [false] only when no failure was recorded; a list
    only when it is the non-empty list of the recorded failures; a number
    only when it is 1, packages remain, none of them is ready, and the last
    event is the deadlock report naming the packages that remain; an
    exception only when graph construction threw it, with the state still
    as it was at entry. *)
Theorem result_tells_how_the_run_ended w env pk command args :
  fairSettle w →
  ∃ r, runPackageCommand w env pk command args = Some r
       ∧ match completion r with
         | Returned RFalse => errors (final r) = []
         | Returned (RErrors l) => l = errors (final r) ∧ l ≠ []
         | Returned (RCode n) =>
             n = 1 ∧ packagesCopy (final r) ≠ []
             ∧ emptyPackages (parseUncheck (uncheck env)) (final r) = []
             ∧ ∃ tr, trace (final r)
                     = tr ++ [EDeadlock
                                ((λ f, files (final r) !! f) <$> packagesCopy (final r))
                                (deps (final r))]
         | Threw e =>
             ∃ u, parseUncheck (uncheck env) = UncheckList u
                  ∧ thrownBy w u pk e
                  ∧ final r = initialState pk (∅, ∅)
         end.
Proof.
  intros _.
  destruct (runPackageCommand_returns w env pk command args) as [r Hr].
  exists r. split; [exact Hr|]. unfold runPackageCommand in Hr.
  destruct (parseUncheck (uncheck env)) as [|u] eqn:Hu.
  - apply doWhile_result in Hr. by destruct (completion r) as [[| |]|].
  - destruct (buildGraph w u pk) as [e|g] eqn:Hg.
    + injection Hr as <-. cbn [completion final]. exists u.
      split; [done|]. split; [by apply buildGraph_inl|done].
    + apply doWhile_result in Hr. by destruct (completion r) as [[| |]|].
Qed.

(** The universe of the package named [constructor], with that name
    exempted, on a host where every child closes: the run ends on the
    code 1. *)
Lemma result_tells_how_the_run_ended_witness :
  ∃ r, runPackageCommand (Examples.world Examples.protoFs)
         (mkRunnerEnv None (EnvString "constructor") None) Examples.protoPackages
         "yarn" ["build"] = Some r
       ∧ completion r = Returned (RCode 1)
       ∧ packagesCopy (final r) = Examples.protoPackages.
Proof.
  destruct (result_tells_how_the_run_ended (Examples.world Examples.protoFs)
              (mkRunnerEnv None (EnvString "constructor") None) Examples.protoPackages
              "yarn" ["build"]) as (r & Hr & _).
  { intros l. reflexivity. }
  exists r. split; [exact Hr|].
  vm_compute in Hr. injection Hr as <-. split; reflexivity.
Defined.

(** X2. No package is started twice: in every run the items started form
    a sub-multiset of the package list, and the progress counter equals
    their number. Under an exemption list, unless graph construction
    threw, the items started together with the packages that remain at the
    end are exactly the packages of the list; so on a deadlock the
    packages that were not started are the ones that remain. *)
Theorem no_package_runs_twice w env pk command args :
  ∃ r, runPackageCommand w env pk command args = Some r
       ∧ started (trace (final r)) ⊆+ pk
       ∧ processedFiles (final r) = len (started (trace (final r)))
       ∧ (∀ u, parseUncheck (uncheck env) = UncheckList u →
               (∀ e, completion r ≠ Threw e) →
               started (trace (final r)) ++ packagesCopy (final r) ≡ₚ pk).
Proof.
  destruct (runPackageCommand_returns w env pk command args) as [r Hr].
  exists r. split; [exact Hr|]. unfold runPackageCommand in Hr.
  destruct (parseUncheck (uncheck env)) as [|u] eqn:Hu.
  - destruct (doWhile_started _ _ _ _ _ _ _ Hr eq_refl eq_refl) as [Hs Hp].
    split; [|split; [exact Hp|discriminate]].
    rewrite Hs. pose proof (doWhile_result _ _ _ _ _ _ _ Hr) as Hres.
    assert (Hlive : ¬ deadlocked r).
    { unfold deadlocked. intros Hd. rewrite Hd in Hres.
      destruct Hres as (_ & H1 & H2 & _). done. }
    rewrite (doWhile_drains _ _ _ _ _ _ _ Hr Hlive). done.
  - destruct (buildGraph w u pk) as [e|g] eqn:Hg.
    + injection Hr as <-. cbn [final completion]. split; [apply submseteq_nil_l|].
      split; [done|]. intros u' _ Hno. by destruct (Hno e).
    + destruct (doWhile_started _ _ _ _ _ _ _ Hr eq_refl eq_refl) as [Hs Hp].
      pose proof (doWhile_partition _ _ _ _ _ _ _ Hr) as Hperm.
      cbn [initialState rounds packagesCopy concat app] in Hperm.
      split; [|split; [exact Hp|]].
      * rewrite Hs, <- Hperm. apply submseteq_inserts_r. done.
      * intros u' _ _. by rewrite Hs.
Qed.

(** X3. How the command line maps a run to the exit code, for every run:
    the code is 1 exactly when the run returned [false] or ended in an
    exception, and 0 exactly when it returned the deadlock code or a list
    of failures; without a command nothing runs and the code is 0. *)
Theorem exit_code_of_every_run w env pk command args :
  cliExitCode w env pk None args = Some 0
  ∧ ∃ r code, runPackageCommand w env pk command args = Some r
              ∧ cliExitCode w env pk (Some command) args = Some code
              ∧ (code = 1 ↔ completion r = Returned RFalse ∨ ∃ e, completion r = Threw e)
              ∧ (code = 0 ↔ deadlocked r ∨ ∃ l, completion r = Returned (RErrors l)).
Proof.
  split; [reflexivity|].
  destruct (runPackageCommand_returns w env pk command args) as [r Hr].
  pose proof (cliExitCode_of_run _ _ _ _ _ _ Hr) as Hcode.
  eexists r, _. split; [exact Hr|]. split; [exact Hcode|].
  assert (Hres : match completion r with
                 | Returned (RCode n) => n = 1
                 | _ => True
                 end).
  { unfold runPackageCommand in Hr. destruct (parseUncheck (uncheck env)).
    - apply doWhile_result in Hr. destruct (completion r) as [[| |]|]; tauto.
    - destruct (buildGraph _ _ _); [by injection Hr as <-|].
      apply doWhile_result in Hr. destruct (completion r) as [[| |]|]; tauto. }
  unfold deadlocked. destruct (completion r) as [[|n|l]|e].
  - split; split; try done; [by left|intros [?|[? ?]]; done].
  - subst n. simpl. split; split; try done; [intros [?|[? ?]]; done|by left].
  - split; split; try done; [intros [?|[? ?]]; done|right; eauto].
  - split; split; try done; [right; eauto|intros [?|[? ?]]; done].
Qed.

(** ** The shape of the built graph *)

Section GraphShape.

Variable w : World.
Variable unchecked : list string.

Lemma scanInner_shape cur d f d' :
  scanInner w unchecked cur d f = inr d' →
  (∃ m, readPackage w f = Some m
        ∧ ∀ n, is_Some (d' !! n)
               ↔ is_Some (d !! n) ∨ (n = name m ∧ Js.inherited n = false))
  ∧ ((∀ n l, d !! n = Some l → NoDup l) → ∀ n l, d' !! n = Some l → NoDup l).
Proof.
  unfold scanInner. destruct (readPackage w f) as [mq|] eqn:Hread; [|discriminate].
  set (d1 := match d !! name mq with
             | Some _ => d
             | None => if Js.inherited (name mq) then d else <[name mq := []]> d
             end).
  assert (Hkeys1 : ∀ n, is_Some (d1 !! n)
                        ↔ is_Some (d !! n) ∨ (n = name mq ∧ Js.inherited n = false)).
  { intros n. unfold d1. destruct (d !! name mq) eqn:E.
    - split; [auto|]. intros [H|[-> _]]; [done|]. by rewrite E.
    - destruct (Js.inherited (name mq)) eqn:Hinh.
      + split; [auto|]. intros [H|[-> H]]; [done|congruence].
      + destruct (decide (n = name mq)) as [->|Hne].
        * rewrite lookup_insert_eq. split; eauto.
        * rewrite lookup_insert_ne by done. split; [auto|]. intros [H|[H _]]; done. }
  assert (Hnd1 : (∀ n l, d !! n = Some l → NoDup l) → ∀ n l, d1 !! n = Some l → NoDup l).
  { intros Hd n l. unfold d1. destruct (d !! name mq) eqn:E; [apply Hd|].
    destruct (Js.inherited (name mq)); [apply Hd|].
    destruct (decide (n = name mq)) as [->|Hne].
    - rewrite lookup_insert_eq. intros [= <-]. constructor.
    - rewrite lookup_insert_ne by done. apply Hd. }
  assert (Hpush : ∀ own x,
             d1 !! name mq = Some own → x ∉ own →
             (∀ n, is_Some (<[name mq := own ++ [x]]> d1 !! n)
                   ↔ is_Some (d !! n) ∨ (n = name mq ∧ Js.inherited n = false))
             ∧ ((∀ n l, d !! n = Some l → NoDup l) →
                ∀ n l, <[name mq := own ++ [x]]> d1 !! n = Some l → NoDup l)).
  { intros own x Hown Hx. split.
    - intros n. rewrite <- Hkeys1. destruct (decide (n = name mq)) as [->|Hne].
      + rewrite lookup_insert_eq, Hown. split; eauto.
      + by rewrite lookup_insert_ne.
    - intros Hd n l. destruct (decide (n = name mq)) as [->|Hne].
      + rewrite lookup_insert_eq. intros [= <-].
        apply NoDup_app. split; [by eapply Hnd1|].
        split; [|apply NoDup_singleton].
        intros y Hy ->%list_elem_of_singleton. done.
      + rewrite lookup_insert_ne by done. by apply Hnd1. }
  fold d1.
  destruct (Js.includes (name mq) unchecked).
  { intros [= <-]. split; [by exists mq|done]. }
  destruct (dependencies mq) as [declared|]; [|discriminate].
  destruct (Js.truthyProp _ _); [|intros [= <-]; split; [by exists mq|done]].
  destruct (d1 !! name mq) as [own|] eqn:Hown; [|discriminate].
  destruct (Js.includes (name cur) own) eqn:Hinc; intros [= <-].
  - split; [by exists mq|done].
  - apply includes_false in Hinc. destruct (Hpush own (name cur) eq_refl Hinc) as [H1 H2].
    split; [by exists mq|done].
Qed.

Lemma inner_loop_shape cur l d d' :
  forOf (scanInner w unchecked cur) l d = inr d' →
  (∀ f, f ∈ l → is_Some (readPackage w f))
  ∧ (∀ n, is_Some (d' !! n)
          ↔ is_Some (d !! n)
            ∨ (Js.inherited n = false
               ∧ ∃ f m, f ∈ l ∧ readPackage w f = Some m ∧ name m = n))
  ∧ ((∀ n k, d !! n = Some k → NoDup k) → ∀ n k, d' !! n = Some k → NoDup k).
Proof.
  revert d. induction l as [|f l IH]; intros d.
  - intros [= <-]. split; [by intros f ?%elem_of_nil|]. split; [|done].
    intros n. split; [auto|]. intros [H|(_ & f & m & Hin & _)]; [done|].
    by apply elem_of_nil in Hin.
  - intros (d1 & Hstep & Hrest)%forOf_cons_inr.
    destruct (scanInner_shape _ _ _ _ Hstep) as [(m & Hread & Hk1) Hn1].
    destruct (IH _ Hrest) as (Hr2 & Hk2 & Hn2). split; [|split].
    + intros f' [->|Hin]%elem_of_cons; [by rewrite Hread|by apply Hr2].
    + intros n. rewrite Hk2, Hk1. split.
      * intros [[H|[-> Hi]]|(Hi & f' & m' & Hin & H)]; [by left|right..].
        -- split; [done|]. exists f, m. split; [apply list_elem_of_here|done].
        -- split; [done|]. exists f', m'. split; [by apply list_elem_of_further|done].
      * intros [H|(Hi & f' & m' & [->|Hin]%elem_of_cons & Hr & Hn)]; [by left; left|..].
        -- left. right. split; [congruence|done].
        -- right. split; [done|]. by exists f', m'.
    + intros Hd. by apply Hn2, Hn1.
Qed.

Lemma lookup_assign (files : gmap string string) k v f :
  Js.assign k v files !! f
  = if decide (f = k ∧ f ≠ "__proto__") then Some v else files !! f.
Proof.
  unfold Js.assign. destruct (String.eqb_spec k "__proto__") as [->|Hk].
  - rewrite decide_False; [done|]. intros [? ?]. done.
  - destruct (decide (f = k)) as [->|Hne].
    + rewrite lookup_insert_eq, decide_True; done.
    + rewrite lookup_insert_ne by done. rewrite decide_False; [done|]. by intros [? ?].
Qed.

Lemma outer_loop_shape pk l g g' :
  forOf (scanOuter w unchecked pk) l g = inr g' →
  (∀ f, fst g' !! f
        = if decide (f ∈ l ∧ f ≠ "__proto__") then name <$> readPackage w f
          else fst g !! f)
  ∧ (∀ f, f ∈ l → is_Some (readPackage w f))
  ∧ (∀ n, is_Some (snd g' !! n)
          ↔ is_Some (snd g !! n)
            ∨ (l ≠ [] ∧ Js.inherited n = false
               ∧ ∃ f m, f ∈ pk ∧ readPackage w f = Some m ∧ name m = n))
  ∧ ((∀ n k, snd g !! n = Some k → NoDup k) → ∀ n k, snd g' !! n = Some k → NoDup k).
Proof.
  revert g. induction l as [|f l IH]; intros g.
  - intros [= <-]. split.
    { intros f. rewrite decide_False; [done|]. intros [H _]. by apply elem_of_nil in H. }
    split; [by intros f ?%elem_of_nil|]. split; [|done].
    intros n. split; [auto|]. intros [H|[H _]]; done.
  - intros (g1 & Hstep & Hrest)%forOf_cons_inr.
    unfold scanOuter in Hstep.
    destruct (readPackage w f) as [cur|] eqn:Hcur; [|discriminate].
    destruct (forOf (scanInner w unchecked cur) pk (snd g)) as [e|d1] eqn:Hin1;
      [discriminate|].
    injection Hstep as <-.
    destruct (inner_loop_shape _ _ _ _ Hin1) as (_ & Hk1 & Hn1).
    destruct (IH _ Hrest) as (Hf2 & Hr2 & Hk2 & Hn2). cbn [fst snd] in *.
    split; [|split; [|split]].
    + intros f'. rewrite Hf2, lookup_assign.
      destruct (decide (f' ∈ l ∧ f' ≠ "__proto__")) as [[Hin Hp]|Hnin].
      * rewrite decide_True; [done|]. split; [by apply list_elem_of_further|done].
      * destruct (decide (f' = f ∧ f' ≠ "__proto__")) as [[-> Hp]|Hne].
        -- rewrite decide_True by (split; [apply list_elem_of_here|done]).
           by rewrite Hcur.
        -- rewrite decide_False; [done|].
           intros [[->|Hin]%elem_of_cons Hp]; [by apply Hne|by apply Hnin].
    + intros f' [->|Hin]%elem_of_cons; [by rewrite Hcur|by apply Hr2].
    + intros n. rewrite Hk2, Hk1. split.
      * intros [[H|H]|(_ & H)]; [by left|by right..].
      * intros [H|(_ & H)]; [by left; left|by left; right].
    + intros Hd. by apply Hn2, Hn1.
Qed.

End GraphShape.

(** X4. When graph construction completes: [files] maps exactly the files
    of the package list other than [__proto__], each to the name in its
    manifest; the keys of [deps] are exactly the names of the packages of
    the list that are no names of [Object.prototype]; and every unresolved
    list is free of duplicates and holds only names of packages of the
    list. *)
Theorem built_graph_is_well_formed w unchecked pk g :
  buildGraph w unchecked pk = inr g →
  (∀ f, fst g !! f
        = if decide (f ∈ pk ∧ f ≠ "__proto__") then name <$> readPackage w f else None)
  ∧ (∀ f, f ∈ pk → is_Some (readPackage w f))
  ∧ (∀ n, is_Some (snd g !! n)
          ↔ Js.inherited n = false
            ∧ ∃ f m, f ∈ pk ∧ readPackage w f = Some m ∧ name m = n)
  ∧ (∀ n l, snd g !! n = Some l →
            NoDup l
            ∧ ∀ p, p ∈ l → ∃ f m, f ∈ pk ∧ readPackage w f = Some m ∧ name m = p).
Proof.
  intros Hbuild. unfold buildGraph in Hbuild.
  destruct (outer_loop_shape _ _ _ _ _ _ Hbuild) as (Hf & Hr & Hk & Hn).
  cbn [fst snd] in *. split; [|split; [exact Hr|split]].
  - intros f. rewrite Hf. destruct (decide (f ∈ pk ∧ f ≠ "__proto__")); [done|].
    apply lookup_empty.
  - intros n. rewrite Hk. split.
    + intros [[? H]|(_ & H)]; [by rewrite lookup_empty in H|exact H].
    + intros (Hi & f & m & Hin & H). right. split; [|split; [done|by exists f, m]].
      intros ->. by apply elem_of_nil in Hin.
  - intros n l Hl. split.
    + eapply Hn; [|exact Hl]. intros n' k. by rewrite lookup_empty.
    + intros p Hp.
      assert (Hedge : unresolvedIn (snd g) p n) by by exists l.
      apply (outer_loop_edges _ _ _ _ _ _ Hbuild properKeys_empty) in Hedge.
      destruct Hedge
        as [(k & Hk' & _)|(_ & _ & fp & fq & mp & mq & dc & H1 & _ & H3 & H4 & _)].
      * cbn [snd] in Hk'. by rewrite lookup_empty in Hk'.
      * by exists fp, mp.
Qed.

(** The universe of the package named [constructor], with that name
    exempted: [deps] has no key of that name. *)
Lemma built_graph_is_well_formed_witness :
  ∃ g, buildGraph (Examples.world Examples.protoFs) ["constructor"]
         Examples.protoPackages = inr g
       ∧ snd g !! "constructor" = None
       ∧ (∀ f, fst g !! f
               = if decide (f ∈ Examples.protoPackages ∧ f ≠ "__proto__")
                 then name <$> readPackage (Examples.world Examples.protoFs) f
                 else None).
Proof.
  eexists. split; [vm_compute; reflexivity|]. split; [vm_compute; reflexivity|].
  apply (built_graph_is_well_formed (Examples.world Examples.protoFs) ["constructor"]
           Examples.protoPackages).
  vm_compute. reflexivity.
Defined.

(** X5. When graph construction completes, a package of the list, at a
    path other than [__proto__], is in the frontier of the first round
    exactly when its name is no name of [Object.prototype] and no package
    of the universe is a declared edge into its name: dependencies on
    names outside the universe do not delay it. In particular every
    package whose name is in the exemption list, and is no name of
    [Object.prototype], is in the first frontier. *)
Theorem first_frontier_has_the_packages_without_edges w unchecked pk g f m :
  buildGraph w unchecked pk = inr g →
  f ∈ pk →
  f ≠ "__proto__" →
  readPackage w f = Some m →
  (f ∈ emptyPackages (UncheckList unchecked) (initialState pk g)
   ↔ Js.inherited (name m) = false
     ∧ ∀ p, ¬ declaredEdge w unchecked pk p (name m))
  ∧ (name m ∈ unchecked → Js.inherited (name m) = false →
     f ∈ emptyPackages (UncheckList unchecked) (initialState pk g)).
Proof.
  intros Hbuild Hin Hproto Hread.
  assert (Hiff : f ∈ emptyPackages (UncheckList unchecked) (initialState pk g)
                 ↔ Js.inherited (name m) = false
                   ∧ ∀ p, ¬ declaredEdge w unchecked pk p (name m)).
  { rewrite elem_of_emptyPackages.
    change (packagesCopy (initialState pk g)) with pk.
    unfold buildGraph in Hbuild.
    destruct (outer_loop_shape _ _ _ _ _ _ Hbuild) as (Hf & _ & Hk & _).
    pose proof (outer_loop_edges _ _ _ _ _ _ Hbuild properKeys_empty) as Hedges.
    cbn [fst snd] in *.
    assert (Hfile : fst g !! f = Some (name m)).
    { rewrite Hf, decide_True by done. by rewrite Hread. }
    unfold isReady, initialState. cbn [deps files]. rewrite Hfile. cbn [Js.propKey].
    destruct (Js.inherited (name m)) eqn:Hinh.
    { destruct (snd g !! name m) as [l|] eqn:Hl.
      - assert (Hsome : is_Some (snd g !! name m)) by eauto.
        apply Hk in Hsome as [[? H]|(_ & Hi & _)]; [by rewrite lookup_empty in H|].
        congruence.
      - split; [by intros [_ ?]|by intros [? _]]. }
    assert (Hkey : is_Some (snd g !! name m)).
    { apply Hk. right. split; [|split; [done|by exists f, m]].
      intros ->. by apply elem_of_nil in Hin. }
    destruct Hkey as [l Hl]. rewrite Hl.
    split.
    - intros [_ Hlen]. split; [done|]. intros p Hedge.
      assert (Hp : unresolvedIn (snd g) p (name m)).
      { apply Hedges. right. exact Hedge. }
      destruct Hp as (l' & Hl' & Hp). rewrite Hl in Hl'. injection Hl' as <-.
      unfold len in Hlen. destruct l; [by apply elem_of_nil in Hp|discriminate].
    - intros [_ Hnone]. split; [done|]. destruct l as [|p l]; [done|].
      exfalso. apply (Hnone p).
      assert (Hp : unresolvedIn (snd g) p (name m)).
      { exists (p :: l). split; [done|apply list_elem_of_here]. }
      apply Hedges in Hp as [(k & Hk' & _)|Hp]; [|exact Hp].
      by rewrite lookup_empty in Hk'. }
  split; [exact Hiff|].
  intros Hex Hinh. apply Hiff. split; [done|]. intros p (Hq & _). done.
Qed.

(** The universe of the package named [constructor], with that name
    exempted: the exempted package is not in the first frontier, and
    neither is B, which declares nothing. *)
Lemma first_frontier_has_the_packages_without_edges_witness :
  ∃ g, buildGraph (Examples.world Examples.protoFs) ["constructor"]
         Examples.protoPackages = inr g
       ∧ emptyPackages (UncheckList ["constructor"])
           (initialState Examples.protoPackages g) = []
       ∧ ("x/package.json"
          ∈ emptyPackages (UncheckList ["constructor"])
              (initialState Examples.protoPackages g)
          ↔ Js.inherited "constructor" = false
            ∧ ∀ p, ¬ declaredEdge (Examples.world Examples.protoFs) ["constructor"]
                       Examples.protoPackages p "constructor").
Proof.
  eexists. split; [vm_compute; reflexivity|]. split; [vm_compute; reflexivity|].
  apply (first_frontier_has_the_packages_without_edges
           (Examples.world Examples.protoFs) ["constructor"] Examples.protoPackages _
           "x/package.json" (Examples.manifest "constructor" [])).
  - vm_compute. reflexivity.
  - apply list_elem_of_here.
  - discriminate.
  - reflexivity.
Defined.

(** ** What retirement does to the unresolved lists *)

Lemma spliceIndexOf_sublist x l : Js.spliceIndexOf x l `sublist_of` l.
Proof.
  assert (Hr : -1 ≤ Js.indexOfV x l < len l).
  { destruct x; simpl; [apply indexOf_range|unfold len; lia]. }
  destruct (decide (Js.indexOfV x l = -1)) as [Hm|Hne].
  - rewrite spliceIndexOf_absent by done. apply sublist_take.
  - unfold Js.spliceIndexOf. rewrite splice_at by lia. apply sublist_delete.
Qed.

Lemma spliceIndexOf_struck x l : NoDup l → x ∉ Js.spliceIndexOf (Some x) l.
Proof.
  intros Hnd. destruct (decide (x ∈ l)) as [Hin|Hnin].
  - pose proof (spliceIndexOf_present x l Hin) as Hperm.
    rewrite Hperm in Hnd. by apply NoDup_cons in Hnd as [? _].
  - intros H. apply Hnin. eapply elem_of_sublist; [exact H|apply spliceIndexOf_sublist].
Qed.

Lemma retire_deps ready st (nd : string) l0 :
  (∀ f, f ∈ ready → Js.propKey (files st !! f) ≠ nd) →
  deps st !! nd = Some l0 →
  ∃ l1, deps (foldl retireOne st ready) !! nd = Some l1
        ∧ length l1 = (length l0 - length ready)%nat
        ∧ l1 `sublist_of` l0.
Proof.
  revert st l0. induction ready as [|f ready IH]; intros st l0 Hkeys Hl0.
  - exists l0. split; [done|]. split; [simpl; lia|done].
  - simpl foldl.
    destruct (IH (retireOne st f) (Js.spliceIndexOf (files st !! f) l0))
      as (l1 & H1 & H2 & H3).
    + intros f' Hf'. apply Hkeys. by apply list_elem_of_further.
    + unfold retireOne. cbn [deps setDeps setPackagesCopy].
      rewrite lookup_fmap, lookup_delete_ne, Hl0; [done|].
      apply Hkeys, list_elem_of_here.
    + exists l1. split; [done|]. split.
      * rewrite H2, spliceIndexOf_length. simpl length. lia.
      * etrans; [exact H3|apply spliceIndexOf_sublist].
Qed.

Lemma retire_deletes ready st f :
  f ∈ ready → deps (foldl retireOne st ready) !! Js.propKey (files st !! f) = None.
Proof.
  revert st. induction ready as [|x ready IH]; intros st Hin; [by apply elem_of_nil in Hin|].
  simpl foldl.
  assert (Hgone : ∀ k s, deps s !! k = None →
                         deps (foldl retireOne s ready) !! k = None).
  { clear. intros k. induction ready as [|y ready IH]; intros s Hs; [done|].
    simpl. apply IH. unfold retireOne. cbn [deps setDeps setPackagesCopy].
    rewrite lookup_fmap.
    destruct (decide (Js.propKey (files s !! y) = k)) as [<-|Hne].
    - by rewrite lookup_delete_eq.
    - by rewrite lookup_delete_ne, Hs. }
  apply elem_of_cons in Hin as [->|Hin].
  - apply Hgone. unfold retireOne. cbn [deps setDeps setPackagesCopy].
    by rewrite lookup_fmap, lookup_delete_eq.
  - exact (IH (retireOne st x) Hin).
Qed.

(** X6. Retiring the files of a frontier only ever removes: the key of
    every retired file is gone from [deps], and the list kept under any
    other key is a sub-list of what it was, shorter by exactly one name
    per retired file until it is empty, whichever names the retired files
    have. *)
Theorem retirement_shortens_every_list ready st :
  (∀ f, f ∈ ready → deps (foldl retireOne st ready) !! Js.propKey (files st !! f) = None)
  ∧ (∀ (nd : string) l0,
        (∀ f, f ∈ ready → Js.propKey (files st !! f) ≠ nd) →
        deps st !! nd = Some l0 →
        ∃ l1, deps (foldl retireOne st ready) !! nd = Some l1
              ∧ length l1 = (length l0 - length ready)%nat
              ∧ l1 `sublist_of` l0).
Proof.
  split.
  - intros f Hf. by apply retire_deletes.
  - intros nd l0. apply retire_deps.
Qed.

(** Retiring A in the chain universe: the list of C. *)
Lemma retirement_shortens_every_list_witness :
  let st := mkState Examples.chainPackages
              {[ "a/package.json" := "A"; "b/package.json" := "B"; "c/package.json" := "C" ]}
              {[ "A" := []; "B" := ["A"]; "C" := ["B"] ]} [] 0 [] [] in
  ∃ l1, deps (foldl retireOne st ["a/package.json"]) !! "C" = Some l1
        ∧ length l1 = (length ["B"] - length ["a/package.json"])%nat
        ∧ l1 `sublist_of` ["B"].
Proof.
  intros st.
  apply (proj2 (retirement_shortens_every_list ["a/package.json"] st) "C" ["B"]).
  - intros f ->%list_elem_of_singleton. vm_compute. discriminate.
  - vm_compute. reflexivity.
Defined.

(** X7. On a graph whose lists are free of duplicates, retiring a file
    removes its key and strikes its name from every list that remains,
    and the lists stay free of duplicates. *)
Theorem retirement_strikes_the_retired_name st f n :
  (∀ k l, deps st !! k = Some l → NoDup l) →
  files st !! f = Some n →
  deps (retireOne st f) !! n = None
  ∧ ∀ k l, deps (retireOne st f) !! k = Some l → (n ∉ l) ∧ NoDup l.
Proof.
  intros Hnd Hf. unfold retireOne. cbn [deps setDeps setPackagesCopy].
  rewrite Hf. cbn [Js.propKey]. split.
  - by rewrite lookup_fmap, lookup_delete_eq.
  - intros k l. rewrite lookup_fmap.
    destruct (decide (n = k)) as [<-|Hne]; [by rewrite lookup_delete_eq|].
    rewrite lookup_delete_ne by done.
    destruct (deps st !! k) as [l0|] eqn:Hl0; [|discriminate].
    intros [= <-]. specialize (Hnd _ _ Hl0). split.
    + by apply spliceIndexOf_struck.
    + eapply sublist_NoDup; [exact Hnd|apply spliceIndexOf_sublist].
Qed.

(** Retiring A in the chain universe. *)
Lemma retirement_strikes_the_retired_name_witness :
  let st := mkState Examples.chainPackages
              {[ "a/package.json" := "A"; "b/package.json" := "B"; "c/package.json" := "C" ]}
              {[ "A" := []; "B" := ["A"]; "C" := ["B"] ]} [] 0 [] [] in
  deps (retireOne st "a/package.json") !! "A" = None
  ∧ ∀ k l, deps (retireOne st "a/package.json") !! k = Some l → ("A" ∉ l) ∧ NoDup l.
Proof.
  intros st. apply (retirement_strikes_the_retired_name st "a/package.json" "A").
  - intros k l. unfold st. cbn [deps].
    destruct (decide (k = "A")) as [->|HA];
      [vm_compute; intros [= <-]; constructor|].
    destruct (decide (k = "B")) as [->|HB];
      [vm_compute; intros [= <-]; apply NoDup_singleton|].
    destruct (decide (k = "C")) as [->|HC];
      [vm_compute; intros [= <-]; apply NoDup_singleton|].
    rewrite !lookup_insert_ne by done. by rewrite lookup_singleton_ne.
  - vm_compute. reflexivity.
Defined.

(** ** Only failures are recorded *)

Section OnlyFailures.

Variable w : World.
Variables (command : string) (args : list string).

Lemma chunkErrors_explained chunk e :
  fairSettle w → e ∈ chunkErrors w command args chunk →
  ∃ f, f ∈ chunk ∧ explainedBy w command args e f.
Proof.
  intros Hfair. unfold chunkErrors. intros [He|He]%elem_of_app.
  - unfold syncErrors in He. apply list_elem_of_bind in He as (f & He & Hf).
    unfold failsEarly in He.
    destruct (readPackage w f) eqn:Hread.
    + destruct (processSpawn w command args _) as [|x|x] eqn:Hspawn;
        try by apply elem_of_nil in He.
      apply list_elem_of_singleton in He as ->. exists f. split; [done|].
      split; [done|]. right. split; [eauto|]. by left.
    + apply list_elem_of_singleton in He as ->. exists f. split; [done|].
      split; [done|]. by left.
  - unfold asyncErrors in He. apply list_elem_of_bind in He as (f & He & Hf).
    rewrite (Hfair (pendingOf w command args chunk)) in Hf. unfold pendingOf in Hf.
    apply list_elem_of_In, List.filter_In in Hf as [Hf Hread].
    apply list_elem_of_In in Hf. apply bool_decide_eq_true in Hread.
    unfold failsEarly in Hread.
    destruct (readPackage w f) eqn:Hrd; [|discriminate].
    destruct (processSpawn w command args _) as [|x|x] eqn:Hspawn;
      try by apply elem_of_nil in He.
    apply list_elem_of_singleton in He as ->. exists f. split; [done|].
    split; [done|]. right. split; [eauto|]. by right.
Qed.

Lemma length_bind_le {A B} (g : A → list B) (l : list A) :
  (∀ x, length (g x) ≤ 1)%nat → (length (l ≫= g) ≤ length l)%nat.
Proof.
  intros Hg. induction l as [|x l IH]; [done|].
  rewrite bind_cons, length_app. specialize (Hg x). simpl length. lia.
Qed.

Lemma length_chunkErrors chunk :
  fairSettle w → (length (chunkErrors w command args chunk) ≤ length chunk)%nat.
Proof.
  intros Hfair. unfold chunkErrors. rewrite length_app.
  assert (Hsync : (length (syncErrors w command args chunk) + length (pendingOf w command args chunk)
                   ≤ length chunk)%nat).
  { induction chunk as [|f chunk IH]; [done|].
    unfold syncErrors, pendingOf in *. rewrite bind_cons, length_app. simpl List.filter.
    destruct (failsEarly w command args f).
    - rewrite bool_decide_false by done. simpl length. lia.
    - rewrite bool_decide_true by done. simpl length. lia. }
  assert (Hasync : (length (asyncErrors w command args (settleOrder w (pendingOf w command args chunk)))
                    ≤ length (pendingOf w command args chunk))%nat).
  { rewrite <- (Permutation_length (Hfair (pendingOf w command args chunk))).
    apply length_bind_le. intros x. destruct (processSpawn _ _ _ _); simpl; lia. }
  lia.
Qed.

Lemma doWhile_only_failures fuel u st r :
  fairSettle w →
  doWhile w fuel u command args st = Some r →
  errors st = [] → trace st = [] →
  (∀ e, e ∈ errors (final r) → ∃ f, f ∈ started (trace (final r)) ∧ explainedBy w command args e f)
  ∧ (length (errors (final r)) ≤ length (started (trace (final r))))%nat.
Proof.
  intros Hfair Hrun He Ht.
  eapply (doWhile_invariant
            (λ s, (∀ e, e ∈ errors s → ∃ f, f ∈ started (trace s) ∧ explainedBy w command args e f)
                  ∧ (length (errors s) ≤ length (started (trace s)))%nat));
    [exact Hrun|..].
  - rewrite He, Ht. split; [by intros e ?%elem_of_nil|done].
  - intros s s' [Hs Hl] Hd.
    apply dispatchChunks_extend in Hd as (cs & Hcs & _ & ->).
    unfold addProcessed, extend, pushRound. cbn [trace errors].
    rewrite started_app, started_chunks. split.
    + intros e [Hin|Hin]%elem_of_app.
      * destruct (Hs e Hin) as (f & Hf & Hex). exists f.
        split; [apply elem_of_app; by left|done].
      * apply list_elem_of_bind in Hin as (chunk & Hin & Hchunk).
        destruct (chunkErrors_explained chunk e Hfair Hin) as (f & Hf & Hex).
        exists f. split; [|done]. apply elem_of_app. right.
        apply elem_of_concat. by exists chunk.
    + rewrite !length_app.
      assert (length (cs ≫= chunkErrors w command args) ≤ length (concat cs))%nat; [|lia].
      clear -Hfair. induction cs as [|ch cs IH]; [done|].
      rewrite bind_cons. simpl concat. rewrite !length_app.
      pose proof (length_chunkErrors ch Hfair). lia.
  - intros s f Hs. exact Hs.
  - intros s names g [Hs Hl]. unfold emit. cbn [trace errors].
    rewrite started_app. simpl. rewrite app_nil_r. done.
Qed.

End OnlyFailures.

(** X8. Provided every pending promise settles, the error list holds
    nothing but failures of items that were started: every entry carries
    the directory of a started item together with what reading its
    manifest threw or what its command threw or was rejected with, and
    there are never more entries than items started. *)
Theorem only_failures_are_recorded w env pk command args :
  fairSettle w →
  ∃ r, runPackageCommand w env pk command args = Some r
       ∧ (∀ e, e ∈ errors (final r) →
               ∃ f, f ∈ started (trace (final r)) ∧ explainedBy w command args e f)
       ∧ (length (errors (final r)) ≤ length (started (trace (final r))))%nat.
Proof.
  intros Hfair.
  destruct (runPackageCommand_returns w env pk command args) as [r Hr].
  exists r. split; [exact Hr|]. unfold runPackageCommand in Hr.
  destruct (parseUncheck (uncheck env)) as [|u].
  - by eapply doWhile_only_failures.
  - destruct (buildGraph w u pk) as [e|g].
    + injection Hr as <-. cbn [final initialState errors trace].
      split; [by intros e' ?%elem_of_nil|done].
    + by eapply doWhile_only_failures.
Qed.

(** The chain universe on the host where the command fails in [b]. *)
Lemma only_failures_are_recorded_witness :
  let w := Examples.flakyChain in
  ∃ r, runPackageCommand w Examples.checked Examples.chainPackages "yarn" ["build"]
       = Some r
       ∧ (∀ e, e ∈ errors (final r) →
               ∃ f, f ∈ started (trace (final r)) ∧ explainedBy w "yarn" ["build"] e f)
       ∧ (length (errors (final r)) ≤ length (started (trace (final r))))%nat.
Proof.
  apply (only_failures_are_recorded Examples.flakyChain Examples.checked
           Examples.chainPackages "yarn" ["build"]).
  intros l. reflexivity.
Defined.

(** ** Acyclic universes drain *)

(** What remains after retiring the ready files are the files that were
    not ready. *)
Lemma retire_remaining st f :
  f ∈ packagesCopy (foldl retireOne st (List.filter (isReady st) (packagesCopy st)))
  ↔ f ∈ packagesCopy st ∧ isReady st f = false.
Proof.
  rewrite retire_packagesCopy_fold.
  pose proof (fold_splice_Permutation _ _ (filter_submseteq (isReady st) (packagesCopy st)))
    as H1.
  pose proof (filter_split_Permutation (isReady st) (packagesCopy st)) as H2.
  rewrite H2 in H1 at 1. apply (inj (app _)) in H1. rewrite <- H1.
  rewrite list_elem_of_In, List.filter_In, <- list_elem_of_In.
  by rewrite negb_true_iff.
Qed.

Lemma retireOne_sublist st x (n : string) l :
  deps (retireOne st x) !! n = Some l →
  ∃ l0, deps st !! n = Some l0 ∧ l `sublist_of` l0.
Proof.
  unfold retireOne. cbn [deps setDeps setPackagesCopy]. rewrite lookup_fmap.
  destruct (decide (Js.propKey (files st !! x) = n)) as [<-|Hne].
  - by rewrite lookup_delete_eq.
  - rewrite lookup_delete_ne by done. destruct (deps st !! n) as [l0|]; [|done].
    intros [= <-]. exists l0. split; [done|apply spliceIndexOf_sublist].
Qed.

Lemma retire_sublist ready st (n : string) l :
  deps (foldl retireOne st ready) !! n = Some l →
  ∃ l0, deps st !! n = Some l0 ∧ l `sublist_of` l0.
Proof.
  revert st. induction ready as [|x ready IH]; intros st Hl; [by exists l|].
  simpl in Hl. apply IH in Hl as (l1 & Hl1 & Hsub).
  apply retireOne_sublist in Hl1 as (l0 & Hl0 & Hsub0).
  exists l0. split; [done|]. by etrans.
Qed.

Lemma retireOne_NoDup st x :
  (∀ k l, deps st !! k = Some l → NoDup l) →
  ∀ k l, deps (retireOne st x) !! k = Some l → NoDup l.
Proof.
  intros Hnd k l Hl. apply retireOne_sublist in Hl as (l0 & Hl0 & Hsub).
  eapply sublist_NoDup; [by eapply Hnd|done].
Qed.

(** A name retired in a round is in no list after the round. *)
Lemma retire_struck ready st f p (n : string) l :
  (∀ k l, deps st !! k = Some l → NoDup l) →
  f ∈ ready → files st !! f = Some p →
  deps (foldl retireOne st ready) !! n = Some l → p ∉ l.
Proof.
  revert st. induction ready as [|x ready IH]; intros st Hnd Hin Hf Hl;
    [by apply elem_of_nil in Hin|].
  simpl in Hl. apply elem_of_cons in Hin as [->|Hin].
  - apply retire_sublist in Hl as (l1 & Hl1 & Hsub).
    intros Hp. eapply elem_of_sublist in Hp; [|exact Hsub].
    revert Hl1 Hp. unfold retireOne. cbn [deps setDeps setPackagesCopy].
    rewrite Hf, lookup_fmap. cbn [Js.propKey].
    destruct (decide (p = n)) as [<-|Hne]; [by rewrite lookup_delete_eq|].
    rewrite lookup_delete_ne by done.
    destruct (deps st !! n) as [l0|] eqn:Hl0; [|done].
    intros [= <-]. apply spliceIndexOf_struck. by eapply Hnd.
  - eapply (IH (retireOne st x)); [by apply retireOne_NoDup|done|exact Hf|exact Hl].
Qed.

Section Acyclic.

Variable E : string → string → Prop.
Variable rank : string → nat.
Hypothesis rank_increases : ∀ p q, E p q → (rank p < rank q)%nat.

Lemma consistentWith_schedule s1 s2 :
  schedule s1 = schedule s2 → consistentWith E s1 → consistentWith E s2.
Proof.
  intros (Hp & Hf & Hd & _)%schedule_fields. unfold consistentWith.
  by rewrite Hp, Hf, Hd.
Qed.

(** The round keeps the state consistent. *)
Lemma retire_consistent l st :
  consistentWith E st →
  consistentWith E (foldl retireOne st (emptyPackages (UncheckList l) st)).
Proof.
  intros [Hfiles Hlists]. cbn [emptyPackages].
  set (ready := List.filter (isReady st) (packagesCopy st)).
  assert (Hready : ∀ x, x ∈ ready ↔ x ∈ packagesCopy st ∧ isReady st x = true).
  { intros x. unfold ready. rewrite !list_elem_of_In. apply List.filter_In. }
  destruct (retire_rounds ready st) as [_ Hfs].
  assert (Hnd : ∀ k l, deps st !! k = Some l → NoDup l).
  { intros k k' Hk. by apply Hlists in Hk as [? _]. }
  split.
  - intros f [Hf Hwait]%retire_remaining. rewrite Hfs.
    destruct (Hfiles f Hf) as (n & Hn & [l0 Hl0]). exists n. split; [done|].
    destruct (retire_deps ready st n l0) as (l1 & Hl1 & _); [|done|by rewrite Hl1].
    intros x [_ Hx]%Hready Hkey. unfold isReady in Hx, Hwait.
    rewrite Hkey, Hl0 in Hx. rewrite Hn in Hwait. cbn [Js.propKey] in Hwait.
    rewrite Hl0 in Hwait. congruence.
  - intros n l1 Hl1.
    destruct (retire_sublist _ _ _ _ Hl1) as (l0 & Hl0 & Hsub).
    destruct (Hlists n l0 Hl0) as [Hnd0 Hmem]. split; [by eapply sublist_NoDup|].
    intros p Hp.
    destruct (Hmem p (elem_of_sublist _ _ _ Hp Hsub)) as [HE (f' & Hf' & Hname)].
    split; [done|]. exists f'. rewrite Hfs. split; [|done].
    apply retire_remaining. split; [done|].
    destruct (isReady st f') eqn:Hr; [|done]. exfalso.
    assert (Hin : f' ∈ ready) by by apply Hready.
    by eapply (retire_struck ready st f' p n l1).
Qed.

Lemma least_rank (g : string → nat) (l : list string) :
  l ≠ [] → ∃ x, x ∈ l ∧ ∀ y, y ∈ l → (g x ≤ g y)%nat.
Proof.
  induction l as [|a l IH]; [done|]. intros _.
  destruct l as [|b l].
  - exists a. split; [apply list_elem_of_here|].
    intros y ->%list_elem_of_singleton. done.
  - destruct IH as (x & Hx & Hmin); [done|].
    destruct (decide (g a ≤ g x)%nat) as [Hle|Hgt].
    + exists a. split; [apply list_elem_of_here|].
      intros y [->|Hy]%elem_of_cons; [done|]. specialize (Hmin y Hy). lia.
    + exists x. split; [by apply list_elem_of_further|].
      intros y [->|Hy]%elem_of_cons; [lia|by apply Hmin].
Qed.

(** While packages remain in a consistent state over an acyclic relation,
    one of them is ready. *)
Lemma consistent_has_ready l st :
  consistentWith E st → packagesCopy st ≠ [] →
  emptyPackages (UncheckList l) st ≠ [].
Proof.
  intros [Hfiles Hlists] Hne.
  set (g := λ f, match files st !! f with Some n => rank n | None => 0%nat end).
  destruct (least_rank g (packagesCopy st) Hne) as (f & Hf & Hmin).
  destruct (Hfiles f Hf) as (n & Hn & [l0 Hl0]).
  assert (Hready : f ∈ emptyPackages (UncheckList l) st).
  { apply elem_of_emptyPackages. split; [done|].
    unfold isReady. rewrite Hn. cbn [Js.propKey]. rewrite Hl0.
    destruct l0 as [|p l0]; [done|]. exfalso.
    destruct (Hlists n (p :: l0) Hl0) as [_ Hmem].
    destruct (Hmem p (list_elem_of_here _ _)) as [HE (f' & Hf' & Hname)].
    specialize (Hmin f' Hf'). unfold g in Hmin. rewrite Hn, Hname in Hmin.
    apply rank_increases in HE. lia. }
  intros Hnil. rewrite Hnil in Hready. by apply elem_of_nil in Hready.
Qed.

Lemma doWhile_acyclic w fuel l command args st r :
  consistentWith E st →
  doWhile w fuel (UncheckList l) command args st = Some r →
  ¬ deadlocked r ∧ packagesCopy (final r) = [].
Proof.
  revert st. induction fuel as [|k IH]; intros st Hst Hrun; [discriminate|].
  cbn [doWhile] in Hrun.
  set (ready := emptyPackages (UncheckList l) st) in *.
  destruct (_ && _) eqn:Hdead.
  { exfalso. apply andb_true_iff in Hdead as [Hz Hpos]. unfold len in *.
    apply (consistent_has_ready l st Hst).
    - destruct (packagesCopy st); [discriminate|done].
    - fold ready. destruct ready; [done|discriminate]. }
  destruct (dispatchChunks_returns w (length ready) command args ready
              (pushRound ready st)) as (st1 & Hd & Hs); [lia|].
  rewrite Hd in Hrun.
  assert (Hst2 : consistentWith E (foldl retireOne st1 ready)).
  { eapply consistentWith_schedule;
      [|exact (retire_consistent l (pushRound ready st) Hst)].
    symmetry. exact (retire_schedule ready st1 (pushRound ready st) Hs). }
  match type of Hrun with context [if ?b then _ else _] => destruct b eqn:Hmore end.
  - by eapply IH.
  - injection Hrun as <-. rewrite finish_final. split; [apply finish_deadlocked|].
    unfold len in Hmore.
    destruct (packagesCopy (foldl retireOne st1 ready)); [done|].
    simpl length in Hmore. clear Hdead. zbool. lia.
Qed.

End Acyclic.

Lemma buildGraph_consistent w unchecked pk g :
  "__proto__" ∉ pk →
  (∀ f m, f ∈ pk → readPackage w f = Some m → Js.inherited (name m) = false) →
  buildGraph w unchecked pk = inr g →
  consistentWith (declaredEdge w unchecked pk) (initialState pk g).
Proof.
  intros Hproto Hnames Hbuild. unfold buildGraph in Hbuild.
  destruct (outer_loop_shape _ _ _ _ _ _ Hbuild) as (Hf & Hr & Hk & Hn).
  pose proof (outer_loop_edges _ _ _ _ _ _ Hbuild properKeys_empty) as Hedges.
  cbn [fst snd] in *. unfold consistentWith, initialState. cbn [packagesCopy files deps].
  assert (Hfile : ∀ f m, f ∈ pk → readPackage w f = Some m → fst g !! f = Some (name m)).
  { intros f m Hin Hread. rewrite Hf, decide_True; [by rewrite Hread|].
    split; [done|]. intros ->. done. }
  split.
  - intros f Hin. destruct (Hr f Hin) as [m Hread]. exists (name m).
    split; [by apply Hfile|]. apply Hk. right.
    split; [|split; [by eapply Hnames|by exists f, m]].
    intros ->. by apply elem_of_nil in Hin.
  - intros n l Hl. split.
    + eapply Hn; [|exact Hl]. intros n' k. by rewrite lookup_empty.
    + intros p Hp.
      assert (Hedge : unresolvedIn (snd g) p n) by by exists l.
      apply Hedges in Hedge as [(k & Hk' & _)|Hedge]; [by rewrite lookup_empty in Hk'|].
      split; [exact Hedge|].
      destruct Hedge as (_ & _ & fp & fq & mp & mq & dc & H1 & _ & H3 & H4 & _).
      exists fp. split; [done|]. rewrite <- H4. by apply Hfile.
Qed.

(** X9. A universe whose declared edges are acyclic never deadlocks, when
    every pending promise settles, no package is named after a property of
    [Object.prototype] and no path is [__proto__]: whenever the names can
    be ranked so that every declared edge goes from a lower to a higher
    rank, the run under an exemption list does not end on the deadlock
    code, and unless graph construction threw it leaves no package behind
    and starts every package of the list exactly once. *)
Theorem acyclic_universe_drains w env pk command args unchecked (rank : string → nat) :
  fairSettle w →
  parseUncheck (uncheck env) = UncheckList unchecked →
  "__proto__" ∉ pk →
  (∀ f m, f ∈ pk → readPackage w f = Some m → Js.inherited (name m) = false) →
  (∀ p q, declaredEdge w unchecked pk p q → (rank p < rank q)%nat) →
  ∃ r, runPackageCommand w env pk command args = Some r
       ∧ ¬ deadlocked r
       ∧ ((∀ e, completion r ≠ Threw e) →
          packagesCopy (final r) = [] ∧ started (trace (final r)) ≡ₚ pk).
Proof.
  intros _ Hu Hproto Hnames Hrank.
  destruct (runPackageCommand_returns w env pk command args) as [r Hr].
  exists r. split; [exact Hr|]. unfold runPackageCommand in Hr. rewrite Hu in Hr.
  destruct (buildGraph w unchecked pk) as [e|g] eqn:Hg.
  - injection Hr as <-. split; [discriminate|]. intros Hno. by destruct (Hno e).
  - destruct (doWhile_acyclic _ rank Hrank _ _ _ _ _ _ _
                (buildGraph_consistent _ _ _ _ Hproto Hnames Hg) Hr) as [Hlive Hempty].
    split; [exact Hlive|]. intros _. split; [exact Hempty|].
    destruct (doWhile_started _ _ _ _ _ _ _ Hr eq_refl eq_refl) as [Hs _].
    rewrite Hs. by rewrite (doWhile_drains _ _ _ _ _ _ _ Hr Hlive).
Qed.

(** The chain universe, ranked A, B, C. *)
Lemma acyclic_universe_drains_witness :
  ∃ r, runPackageCommand (Examples.world Examples.chainFs) Examples.checked
         Examples.chainPackages "yarn" ["build"] = Some r
       ∧ ¬ deadlocked r
       ∧ ((∀ e, completion r ≠ Threw e) →
          packagesCopy (final r) = []
          ∧ started (trace (final r)) ≡ₚ Examples.chainPackages).
Proof.
  apply (acyclic_universe_drains (Examples.world Examples.chainFs) Examples.checked
           Examples.chainPackages "yarn" ["build"] []
           (λ n, if decide (n = "A") then 0 else if decide (n = "B") then 1 else 2)%nat).
  - intros l. reflexivity.
  - reflexivity.
  - apply (bool_decide_unpack _). vm_compute. exact I.
  - intros f m Hf Hread. unfold Examples.chainPackages in Hf.
    repeat (apply elem_of_cons in Hf as [->|Hf]); [..|by apply elem_of_nil in Hf];
      vm_compute in Hread; injection Hread as <-; reflexivity.
  - intros p q (_ & _ & fp & fq & mp & mq & dc & Hfp & Hfq & Hrp & Hnp & Hrq & Hnq & Hd & Ht).
    unfold Examples.chainPackages in Hfp, Hfq.
    repeat (apply elem_of_cons in Hfq as [->|Hfq]);
      [..|by apply elem_of_nil in Hfq];
      vm_compute in Hrq; injection Hrq as <-; injection Hd as <-;
      cbn [name] in Hnq; subst q;
      (repeat (apply elem_of_cons in Hfp as [->|Hfp]);
       [..|by apply elem_of_nil in Hfp];
       vm_compute in Hrp; injection Hrp as <-; cbn [name] in Hnp; subst p;
       vm_compute in Ht; try discriminate; vm_compute; lia).
Defined.
(** * The command line utilities *)

(** ** Strings *)

Section StrFacts.

Lemma lowerChar_not_upper c : Str.isUpper (Str.lowerChar c) = false.
Proof. destruct c as [[] [] [] [] [] [] [] []]; reflexivity. Qed.

Lemma upperChar_fixed_or_upper c :
  Str.upperChar c = c ∨ Str.isUpper (Str.upperChar c) = true.
Proof. destruct c as [[] [] [] [] [] [] [] []]; vm_compute; auto. Qed.

Lemma occurs_dec c s : {Str.occurs c s} + {¬ Str.occurs c s}.
Proof.
  induction s as [|c' s IH]; [right; simpl; tauto|]. simpl.
  destruct (ascii_dec c' c) as [->|Hne]; [left; by left|].
  destruct IH as [H|H]; [left; by right|right; tauto].
Qed.

Lemma occurs_append c a b :
  Str.occurs c (a +:+ b) ↔ Str.occurs c a ∨ Str.occurs c b.
Proof. induction a as [|x a IH]; simpl; [tauto|]. rewrite IH. tauto. Qed.

Lemma occurs_join c words :
  Str.occurs c (Str.join words) ↔ ∃ word, word ∈ words ∧ Str.occurs c word.
Proof.
  induction words as [|x words IH]; simpl.
  - split; [done|]. intros (? & H & _). by apply elem_of_nil in H.
  - rewrite occurs_append, IH. split.
    + intros [H|(word & Hin & H)].
      * exists x. split; [apply list_elem_of_here|done].
      * exists word. split; [by apply list_elem_of_further|done].
    + intros (word & [->|Hin]%elem_of_cons & H); [by left|right; eauto].
Qed.

Lemma append_empty_r s : s +:+ EmptyString = s.
Proof.
  induction s as [|c s IH]; [done|].
  change (String c (s +:+ EmptyString) = String c s). by f_equal.
Qed.

Lemma occurs_toLowerCase c s :
  Str.occurs c (Str.toLowerCase s) → Str.isUpper c = false.
Proof.
  induction s as [|x s IH]; simpl; [done|].
  intros [<-|H]; [apply lowerChar_not_upper|by apply IH].
Qed.

Lemma takeChars_all s : Str.takeChars (String.length s) s = s.
Proof. induction s as [|c s IH]; simpl; [done|by f_equal]. Qed.

Lemma substringFrom_1 c s : Str.substringFrom (String c s) 1 = s.
Proof.
  unfold Str.substringFrom, Str.substring.
  set (n := Z.of_nat (String.length (String c s))).
  assert (Hn : n = Z.of_nat (String.length s) + 1) by (unfold n; simpl String.length; lia).
  rewrite (Z.min_l 1 n), (Z.max_r 0 1), (Z.min_l n n), (Z.max_r 0 n) by lia.
  rewrite (Z.min_l 1 n), (Z.max_r 1 n) by lia.
  replace (Z.to_nat (n - 1)) with (String.length s) by lia.
  change (Z.to_nat 1) with 1%nat. simpl Str.dropChars. apply takeChars_all.
Qed.

(** Splitting at a single character. *)
Lemma prefix_char d c s :
  String.prefix (String d EmptyString) (String c s) = bool_decide (d = c).
Proof.
  simpl. destruct (ascii_dec d c).
  - rewrite bool_decide_true by done. by destruct s.
  - by rewrite bool_decide_false.
Qed.

Lemma splitGo_nonempty sep skip s : Str.splitGo sep skip s ≠ [].
Proof.
  revert skip. induction s as [|c s IH]; intros skip; cbn [Str.splitGo]; [done|].
  destruct skip; [|apply IH].
  destruct (String.prefix sep (String c s)); [done|].
  destruct (Str.splitGo sep 0 s); done.
Qed.

Lemma split_char_words d s word :
  word ∈ Str.split (String d EmptyString) s → ¬ Str.occurs d word.
Proof.
  unfold Str.split. revert word. induction s as [|c s IH]; intros word.
  - simpl. intros ->%list_elem_of_singleton. simpl. tauto.
  - cbn [Str.splitGo]. rewrite prefix_char. simpl String.length.
    change (1 - 1)%nat with 0%nat.
    destruct (bool_decide (d = c)) eqn:Hd.
    + intros [->|Hin]%elem_of_cons; [simpl; tauto|by apply IH].
    + apply bool_decide_eq_false in Hd.
      destruct (Str.splitGo (String d EmptyString) 0 s) as [|w ws] eqn:Hs.
      * intros ->%list_elem_of_singleton. simpl. intros [?|?]; done.
      * intros [->|Hin]%elem_of_cons.
        -- simpl. intros [?|H]; [done|]. eapply IH; [apply list_elem_of_here|done].
        -- apply IH. by apply list_elem_of_further.
Qed.

Lemma split_char_absent d s :
  ¬ Str.occurs d s → Str.split (String d EmptyString) s = [s].
Proof.
  unfold Str.split. induction s as [|c s IH]; [done|].
  intros Hno. cbn [Str.splitGo]. rewrite prefix_char.
  rewrite bool_decide_false by (intros ->; apply Hno; by left).
  rewrite IH; [done|]. intros H. apply Hno. by right.
Qed.

End StrFacts.

(** ** [convertToCamelCase] *)

Lemma capitalized_word d word :
  Str.isUpper d = false → ¬ Str.occurs d word →
  ¬ Str.occurs d (Str.toUpperCase (Str.charAt0 word) +:+ Str.substringFrom word 1).
Proof.
  intros Hd Hno. destruct word as [|c word]; [done|].
  rewrite substringFrom_1. simpl. intros [Hc|H]; [|apply Hno; by right].
  destruct (upperChar_fixed_or_upper c) as [Hfix|Hup].
  - apply Hno. left. congruence.
  - congruence.
Qed.

Lemma convertToCamelCase_lower d value :
  ¬ Str.occurs d (Str.toLowerCase value) →
  Utils.convertToCamelCase value (String d EmptyString) = Str.toLowerCase value.
Proof.
  intros Hno. unfold Utils.convertToCamelCase.
  rewrite split_char_absent by done. simpl. apply append_empty_r.
Qed.

Lemma convertToCamelCase_no_delimiter d value :
  ¬ Str.occurs d (Utils.convertToCamelCase value (String d EmptyString)).
Proof.
  destruct (occurs_dec d (Str.toLowerCase value)) as [Hocc|Hno].
  - unfold Utils.convertToCamelCase. apply occurs_toLowerCase in Hocc.
    pose proof (split_char_words d (Str.toLowerCase value)) as Hwords.
    destruct (Str.split _ _) as [|w ws]; [simpl; tauto|].
    rewrite occurs_join. intros (word & [->|Hin]%elem_of_cons & H).
    + by apply (Hwords w (list_elem_of_here _ _)).
    + apply list_elem_of_fmap in Hin as (w' & -> & Hin).
      revert H. apply capitalized_word; [done|].
      apply Hwords. by apply list_elem_of_further.
  - by rewrite convertToCamelCase_lower.
Qed.

(** ** [getProcessArgs] *)

Lemma indexOf_ge pat s : -1 ≤ Str.indexOf pat s.
Proof.
  induction s as [|c s IH]; cbn [Str.indexOf].
  - destruct (String.prefix pat EmptyString); lia.
  - destruct (String.prefix pat (String c s)); [lia|].
    destruct (Str.indexOf pat s <? 0) eqn:E; lia.
Qed.

Lemma includes_indexOf pat s :
  Str.includes pat s = negb (Str.indexOf pat s =? -1).
Proof.
  unfold Str.includes. pose proof (indexOf_ge pat s).
  destruct (Str.indexOf pat s =? -1) eqn:E; simpl.
  - apply Z.eqb_eq in E. apply Z.leb_gt. lia.
  - apply Z.eqb_neq in E. apply Z.leb_le. lia.
Qed.

Lemma argStep_cases arg :
  (Str.indexOf "--" arg = 0 ∧ Str.includes "=" arg = false)
  ∨ (Str.indexOf "--" arg = 0 ∧ Str.includes "=" arg = true)
  ∨ Str.indexOf "--" arg ≠ 0.
Proof.
  destruct (decide (Str.indexOf "--" arg = 0)); [|by right; right].
  destruct (Str.includes "=" arg); [right; left|left]; done.
Qed.

Lemma length_append a b :
  String.length (a +:+ b) = (String.length a + String.length b)%nat.
Proof.
  induction a as [|c a IH]; [done|].
  change (S (String.length (a +:+ b)) = S (String.length a + String.length b)).
  by rewrite IH.
Qed.

Lemma takeChars_append a b : Str.takeChars (String.length a) (a +:+ b) = a.
Proof.
  induction a as [|c a IH]; [by destruct b|].
  change (String c (Str.takeChars (String.length a) (a +:+ b)) = String c a).
  by rewrite IH.
Qed.

Lemma dropChars_append a b n :
  Str.dropChars (String.length a + n) (a +:+ b) = Str.dropChars n b.
Proof.
  induction a as [|c a IH]; [done|].
  change (Str.dropChars (String.length a + n) (a +:+ b) = Str.dropChars n b).
  exact IH.
Qed.

Lemma indexOf_char_append c a b :
  ¬ Str.occurs c a →
  Str.indexOf (String c EmptyString) (a +:+ String c b) = Z.of_nat (String.length a).
Proof.
  induction a as [|x a IH]; intros Hno.
  - change (EmptyString +:+ String c b) with (String c b).
    cbn [Str.indexOf]. rewrite prefix_char, bool_decide_true by done. done.
  - change (String x a +:+ String c b) with (String x (a +:+ String c b)).
    cbn [Str.indexOf]. rewrite prefix_char, bool_decide_false.
    + rewrite IH by (simpl in Hno; tauto).
      destruct (Z.ltb_spec (Z.of_nat (String.length a)) 0); [lia|].
      simpl String.length. lia.
    + simpl in Hno. intros ->. tauto.
Qed.

Lemma assignment_token k v :
  ¬ Str.occurs "=" k →
  let t := "--" +:+ k +:+ "=" +:+ v in
  Str.indexOf "--" t = 0
  ∧ Str.indexOf "=" t = Z.of_nat (String.length k) + 2
  ∧ Str.substring t 2 (Str.indexOf "=" t) = k
  ∧ Str.substringFrom t (Str.indexOf "=" t + 1) = v.
Proof.
  intros Hno t.
  assert (Ht : t = String "-" (String "-" (k +:+ String "=" v))) by done.
  assert (Hlen : String.length t = (String.length k + (3 + String.length v))%nat).
  { rewrite Ht. simpl String.length. rewrite length_append. simpl String.length. lia. }
  assert (Heq : Str.indexOf "=" t = Z.of_nat (String.length k) + 2).
  { rewrite Ht. cbn [Str.indexOf]. rewrite !prefix_char, !bool_decide_false by done.
    rewrite (indexOf_char_append "=" k v Hno).
    destruct (Z.ltb_spec (Z.of_nat (String.length k)) 0); [lia|].
    destruct (Z.ltb_spec (Z.of_nat (String.length k) + 1) 0); lia. }
  split; [|split; [done|split]].
  - rewrite Ht. cbn [Str.indexOf]. simpl String.prefix.
    by destruct (k +:+ String "=" v).
  - rewrite Heq. unfold Str.substring. rewrite Hlen.
    rewrite (Z.min_l 2), (Z.max_r 0 2) by lia.
    rewrite (Z.min_l (Z.of_nat (String.length k) + 2)) by lia.
    rewrite (Z.max_r 0 (Z.of_nat (String.length k) + 2)) by lia.
    rewrite (Z.max_r 2), (Z.min_l 2) by lia.
    replace (Z.to_nat (Z.of_nat (String.length k) + 2 - 2)) with (String.length k) by lia.
    change (Z.to_nat 2) with 2%nat. rewrite Ht. simpl Str.dropChars.
    apply takeChars_append.
  - rewrite Heq. unfold Str.substringFrom, Str.substring. rewrite Hlen.
    set (n := Z.of_nat (String.length k + (3 + String.length v))).
    rewrite (Z.min_l _ n), (Z.max_r 0 (Z.of_nat (String.length k) + 2 + 1)) by lia.
    rewrite (Z.min_l n n), (Z.max_r 0 n) by lia.
    rewrite (Z.max_r _ n), (Z.min_l _ n) by lia.
    replace (Z.to_nat (n - (Z.of_nat (String.length k) + 2 + 1)))
      with (String.length v) by lia.
    replace (Z.to_nat (Z.of_nat (String.length k) + 2 + 1))
      with (S (S (String.length k + 1))) by lia.
    rewrite Ht. cbn [Str.dropChars]. rewrite dropChars_append.
    simpl Str.dropChars. apply takeChars_all.
Qed.

Lemma includes_of_indexOf pat s : 0 ≤ Str.indexOf pat s → Str.includes pat s = true.
Proof. intros H. unfold Str.includes. by apply Z.leb_le. Qed.

Section ArgFacts.

Variable numeric : string → bool.

(** Under a name other than [__proto__] the value is stored. *)
Lemma setEnv_plain k v e :
  k ≠ "__proto__" → Utils.setEnv k v e = (<[k := v]> (fst e), snd e).
Proof.
  intros Hk. unfold Utils.setEnv.
  destruct (String.eqb_spec k "__proto__") as [->|_]; [done|reflexivity].
Qed.

(** [env[k] = v] adds no key but [k]. *)
Lemma setEnv_keys k v e k' :
  is_Some (fst (Utils.setEnv k v e) !! k') → k' = k ∨ is_Some (fst e !! k').
Proof.
  unfold Utils.setEnv. destruct (String.eqb k "__proto__" && snd e).
  - destruct v; auto.
  - cbn. destruct (decide (k = k')) as [->|Hne]; [auto|].
    rewrite lookup_insert_ne by done. auto.
Qed.

(** A flag without a value part. *)

Lemma argStep_flag st arg :
  Str.indexOf "--" arg = 0 → Str.includes "=" arg = false →
  Utils.argStep numeric st arg
  = Utils.mkArgLoop (Utils.flag st) (Utils.loopArgs st)
      (Some (Utils.convertToCamelCase (Str.substringFrom arg 2) "-")).
Proof. intros H1 H2. unfold Utils.argStep. by rewrite H1, H2. Qed.

(** A flag with its value after an equals sign. *)

Lemma argStep_assignment st arg :
  Str.indexOf "--" arg = 0 → Str.includes "=" arg = true →
  Utils.argStep numeric st arg
  = Utils.mkArgLoop
      (Utils.setEnv
         (Utils.convertToCamelCase (Str.substring arg 2 (Str.indexOf "=" arg)) "-")
         (Utils.convert numeric (Str.substringFrom arg (Str.indexOf "=" arg + 1)))
         (Utils.flag st))
      (Utils.loopArgs st) None.
Proof.
  intros H1 H2. unfold Utils.argStep. rewrite H1, H2.
  rewrite includes_indexOf in H2. rewrite H2. reflexivity.
Qed.

(** A token that is not a flag. *)

Lemma argStep_value st arg :
  Str.indexOf "--" arg ≠ 0 →
  Utils.argStep numeric st arg
  = match Utils.key st with
    | Some k => Utils.mkArgLoop (Utils.setEnv k (Utils.convert numeric arg) (Utils.loopEnv st))
                  (Utils.loopArgs st) None
    | None => Utils.mkArgLoop (Utils.loopEnv st) (Utils.loopArgs st ++ [Utils.convert numeric arg]) None
    end.
Proof.
  intros H1. unfold Utils.argStep. apply Z.eqb_neq in H1. rewrite H1. reflexivity.
Qed.

Lemma foldl_args_sublist l st :
  ∃ ts, ts `sublist_of` l
        ∧ Forall (λ t, Str.indexOf "--" t ≠ 0) ts
        ∧ Utils.loopArgs (foldl (Utils.argStep numeric) st l) = Utils.loopArgs st ++ (Utils.convert numeric <$> ts).
Proof.
  revert st. induction l as [|arg l IH]; intros st.
  - exists []. split; [done|]. split; [constructor|]. simpl. by rewrite app_nil_r.
  - simpl foldl. destruct (IH (Utils.argStep numeric st arg)) as (ts & Hsub & Hall & Hargs).
    destruct (argStep_cases arg) as [[H1 H2]|[[H1 H2]|H1]].
    + exists ts. split; [by constructor|]. split; [done|].
      rewrite Hargs. by rewrite (argStep_flag st arg H1 H2).
    + exists ts. split; [by constructor|]. split; [done|].
      rewrite Hargs. by rewrite (argStep_assignment st arg H1 H2).
    + rewrite (argStep_value st arg H1) in Hargs |- *.
      destruct (Utils.key st).
      * exists ts. split; [by constructor|]. split; [done|]. exact Hargs.
      * exists (arg :: ts). split; [by constructor|]. split; [by constructor|].
        rewrite Hargs. cbn [Utils.loopArgs]. by rewrite <- app_assoc.
Qed.

Lemma foldl_positional l st :
  Forall (λ t, Str.indexOf "--" t ≠ 0) l → Utils.key st = None →
  foldl (Utils.argStep numeric) st l
  = Utils.mkArgLoop (Utils.loopEnv st) (Utils.loopArgs st ++ (Utils.convert numeric <$> l)) None.
Proof.
  intros Hall. revert st. induction Hall as [|arg l Harg Hall IH]; intros st Hkey.
  - simpl. rewrite app_nil_r. destruct st. simpl in Hkey. by subst.
  - simpl foldl. rewrite (argStep_value st arg Harg), Hkey.
    rewrite IH by done. cbn [Utils.loopEnv Utils.loopArgs]. by rewrite <- app_assoc.
Qed.

(** The keys written to [env] hold no hyphen. *)

Lemma flag_keys st :
  (∀ k, is_Some (fst (Utils.loopEnv st) !! k) → ¬ Str.occurs "-" k) →
  (∀ k, Utils.key st = Some k → ¬ Str.occurs "-" k) →
  ∀ k, is_Some (fst (Utils.flag st) !! k) → ¬ Str.occurs "-" k.
Proof.
  intros Henv Hkey k. unfold Utils.flag.
  destruct (Utils.key st) as [k0|] eqn:E; [|apply Henv].
  intros [->|H]%setEnv_keys; [by apply Hkey|by apply Henv].
Qed.

Lemma foldl_keys l st :
  (∀ k, is_Some (fst (Utils.loopEnv st) !! k) → ¬ Str.occurs "-" k) →
  (∀ k, Utils.key st = Some k → ¬ Str.occurs "-" k) →
  (∀ k, is_Some (fst (Utils.loopEnv (foldl (Utils.argStep numeric) st l)) !! k)
        → ¬ Str.occurs "-" k)
  ∧ (∀ k, Utils.key (foldl (Utils.argStep numeric) st l) = Some k → ¬ Str.occurs "-" k).
Proof.
  revert st. induction l as [|arg l IH]; intros st Henv Hkey; [done|].
  simpl foldl.
  pose proof (flag_keys st Henv Hkey) as Hflag.
  destruct (argStep_cases arg) as [[H1 H2]|[[H1 H2]|H1]].
  - rewrite (argStep_flag st arg H1 H2). apply IH; cbn; [done|].
    intros k [= <-]. apply convertToCamelCase_no_delimiter.
  - rewrite (argStep_assignment st arg H1 H2). apply IH; cbn; [|done].
    intros k [->|H]%setEnv_keys; [apply convertToCamelCase_no_delimiter|by apply Hflag].
  - rewrite (argStep_value st arg H1).
    destruct (Utils.key st) as [k0|] eqn:E; apply IH; cbn; try done.
    intros k [->|H]%setEnv_keys; [by apply Hkey|by apply Henv].
Qed.

(** The token [--k=v]. *)

Lemma getProcessArgs_app argv l :
  (2 ≤ length argv)%nat →
  Utils.getProcessArgs numeric (argv ++ l)
  = let st := foldl (Utils.argStep numeric)
                (foldl (Utils.argStep numeric) (Utils.mkArgLoop (∅, true) [] None)
                   (drop 2 argv)) l in
    Utils.mkProcessArgs (fst (Utils.flag st)) (Utils.loopArgs st).
Proof.
  intros H. unfold Utils.getProcessArgs. by rewrite drop_app_le, foldl_app.
Qed.

End ArgFacts.

(** ** [resolvePath] *)

Lemma occurs_mapChars_replace c d s :
  c ≠ d → ¬ Str.occurs c (Str.mapChars (λ x, if Ascii.eqb x c then d else x) s).
Proof.
  intros Hne. induction s as [|x s IH]; simpl; [tauto|].
  intros [H|H]; [|tauto]. destruct (Ascii.eqb_spec x c); congruence.
Qed.

Lemma mapChars_replace_absent c d s :
  ¬ Str.occurs c s → Str.mapChars (λ x, if Ascii.eqb x c then d else x) s = s.
Proof.
  induction s as [|x s IH]; simpl; [done|]. intros H.
  rewrite IH by tauto. destruct (Ascii.eqb_spec x c); [tauto|done].
Qed.

(** X10. For an ASCII value and a one-character delimiter, the result of
    [convertToCamelCase] never contains the delimiter; and a value in which
    the delimiter does not occur once it is lower-cased comes back
    lower-cased as a whole, capitals included. *)
Theorem camel_case_drops_the_delimiter d value :
  Str.isAscii value = true →
  ¬ Str.occurs d (Utils.convertToCamelCase value (String d EmptyString))
  ∧ (¬ Str.occurs d (Str.toLowerCase value) →
     Utils.convertToCamelCase value (String d EmptyString) = Str.toLowerCase value).
Proof.
  intros _.
  split; [apply convertToCamelCase_no_delimiter|apply convertToCamelCase_lower].
Qed.

(** The flag name [sourceMap], split at the hyphen. *)
Lemma camel_case_drops_the_delimiter_witness :
  Utils.convertToCamelCase "sourceMap" "-" = Str.toLowerCase "sourceMap".
Proof.
  apply (proj2 (camel_case_drops_the_delimiter "-"%char "sourceMap" eq_refl)).
  vm_compute. intuition discriminate.
Defined.

(** X11. The positional arguments returned by [getProcessArgs] are the
    converted values of some of the tokens after the first two, in their
    order, and none of these tokens starts with two hyphens: a flag is never
    returned as an argument. *)
Theorem arguments_are_never_flags numeric argv :
  ∃ ts, ts `sublist_of` drop 2 argv
        ∧ Forall (λ t, Str.indexOf "--" t ≠ 0) ts
        ∧ Utils.args (Utils.getProcessArgs numeric argv) = Utils.convert numeric <$> ts.
Proof.
  destruct (foldl_args_sublist numeric (drop 2 argv) (Utils.mkArgLoop (∅, true) [] None))
    as (ts & Hsub & Hall & Hargs).
  exists ts. split; [done|]. split; [done|]. exact Hargs.
Qed.

(** X12. When no token after the first two starts with two hyphens, the
    environment is empty and every token is an argument, converted to its
    native type. *)
Theorem positional_tokens_are_all_arguments numeric argv :
  Forall (λ t, Str.indexOf "--" t ≠ 0) (drop 2 argv) →
  Utils.getProcessArgs numeric argv
  = Utils.mkProcessArgs ∅ (Utils.convert numeric <$> drop 2 argv).
Proof.
  intros Hall. unfold Utils.getProcessArgs.
  by rewrite (foldl_positional numeric _ _ Hall).
Qed.

(** The command line [node cli.js yarn build]. *)
Lemma positional_tokens_are_all_arguments_witness :
  Utils.getProcessArgs (λ _, false) ["node"; "cli.js"; "yarn"; "build"]
  = Utils.mkProcessArgs ∅ [Utils.VString "yarn"; Utils.VString "build"].
Proof.
  apply (positional_tokens_are_all_arguments (λ _, false) ["node"; "cli.js"; "yarn"; "build"]).
  repeat constructor; vm_compute; discriminate.
Defined.

(** X13. A flag without an equals sign, of ASCII characters and with a
    name other than [__proto__], that ends the command line is set to
    [true]; followed by a token that is not a flag, it takes that token as
    its value, and the token is not an argument. The rest of the result is
    that of the command line before the flag. *)
Theorem flag_takes_the_next_token numeric argv t :
  (2 ≤ length argv)%nat →
  Str.isAscii t = true →
  Str.indexOf "--" t = 0 → Str.includes "=" t = false →
  Utils.convertToCamelCase (Str.substringFrom t 2) "-" ≠ "__proto__" →
  let name := Utils.convertToCamelCase (Str.substringFrom t 2) "-" in
  let before := Utils.getProcessArgs numeric argv in
  Utils.getProcessArgs numeric (argv ++ [t])
  = Utils.mkProcessArgs (<[name := Utils.VBool true]> (Utils.env before)) (Utils.args before)
  ∧ ∀ v, Str.indexOf "--" v ≠ 0 →
      Utils.getProcessArgs numeric (argv ++ [t; v])
      = Utils.mkProcessArgs (<[name := Utils.convert numeric v]> (Utils.env before))
          (Utils.args before).
Proof.
  intros Hlen _ H1 H2 Hname name before. split.
  - rewrite getProcessArgs_app by done. cbn [foldl].
    rewrite (argStep_flag numeric _ t H1 H2). unfold Utils.flag at 1.
    cbn [Utils.key Utils.loopEnv Utils.loopArgs]. by rewrite setEnv_plain.
  - intros v Hv. rewrite getProcessArgs_app by done. cbn [foldl].
    rewrite (argStep_flag numeric _ t H1 H2), (argStep_value numeric _ v Hv).
    cbn [Utils.key Utils.loopEnv Utils.loopArgs]. unfold Utils.flag at 1.
    cbn [Utils.key Utils.loopEnv Utils.loopArgs]. by rewrite setEnv_plain.
Qed.

(** The flag [--uncheck] after [node cli.js build], alone and followed by
    a list of names. *)
Lemma flag_takes_the_next_token_witness :
  Utils.getProcessArgs (λ _, false) ["node"; "cli.js"; "build"; "--uncheck"]
  = Utils.mkProcessArgs {["uncheck" := Utils.VBool true]} [Utils.VString "build"]
  ∧ Utils.getProcessArgs (λ _, false) ["node"; "cli.js"; "build"; "--uncheck"; "a,b"]
    = Utils.mkProcessArgs {["uncheck" := Utils.VString "a,b"]} [Utils.VString "build"].
Proof.
  pose proof (flag_takes_the_next_token (λ _, false) ["node"; "cli.js"; "build"] "--uncheck"
                ltac:(simpl; lia) ltac:(reflexivity) ltac:(reflexivity) ltac:(reflexivity)
                ltac:(vm_compute; discriminate)) as [Hlast Hnext].
  split; [exact Hlast|].
  apply (Hnext "a,b"). vm_compute. discriminate.
Defined.

(** X14. A token [--k=v] whose name [k] is made of ASCII characters, holds
    no equals sign and is not turned into [__proto__] sets the camel-cased
    name to the converted value [v], whatever [v] contains, and leaves the
    arguments and the other keys as the command line before it gave
    them. *)
Theorem assignment_sets_the_key numeric argv k v :
  (2 ≤ length argv)%nat →
  Str.isAscii k = true →
  ¬ Str.occurs "=" k →
  Utils.convertToCamelCase k "-" ≠ "__proto__" →
  let before := Utils.getProcessArgs numeric argv in
  Utils.getProcessArgs numeric (argv ++ ["--" +:+ k +:+ "=" +:+ v])
  = Utils.mkProcessArgs
      (<[Utils.convertToCamelCase k "-" := Utils.convert numeric v]> (Utils.env before))
      (Utils.args before).
Proof.
  intros Hlen _ Hno Hname before.
  destruct (assignment_token k v Hno) as (H1 & H2 & H3 & H4).
  rewrite getProcessArgs_app by done. cbn [foldl].
  rewrite argStep_assignment; [|done|].
  - rewrite H3, H4. unfold Utils.flag at 1.
    cbn [Utils.key Utils.loopEnv Utils.loopArgs]. by rewrite setEnv_plain.
  - apply includes_of_indexOf. rewrite H2. lia.
Qed.

(** The token [--max-threads=a=b]. *)
Lemma assignment_sets_the_key_witness :
  Utils.getProcessArgs (λ _, false) ["node"; "cli.js"; "--max-threads=a=b"]
  = Utils.mkProcessArgs {["maxThreads" := Utils.VString "a=b"]} [].
Proof.
  apply (assignment_sets_the_key (λ _, false) ["node"; "cli.js"] "max-threads" "a=b").
  - simpl. lia.
  - reflexivity.
  - vm_compute. intuition discriminate.
  - vm_compute. discriminate.
Defined.

(** X15. No key of the environment returned by [getProcessArgs] holds a
    hyphen. *)
Theorem environment_keys_have_no_hyphen numeric argv k :
  is_Some (Utils.env (Utils.getProcessArgs numeric argv) !! k) → ¬ Str.occurs "-" k.
Proof.
  unfold Utils.getProcessArgs. cbn [Utils.env].
  destruct (foldl_keys numeric (drop 2 argv) (Utils.mkArgLoop (∅, true) [] None))
    as [Henv Hkey].
  - intros k0. cbn. rewrite lookup_empty. by intros [? ?].
  - done.
  - by apply flag_keys.
Qed.

(** The key written for [--source-map]. *)
Lemma environment_keys_have_no_hyphen_witness : ¬ Str.occurs "-" "sourceMap".
Proof.
  apply (environment_keys_have_no_hyphen (λ _, false) ["node"; "cli.js"; "--source-map"]).
  vm_compute. eauto.
Defined.

(** X16. On every platform the path returned by [resolvePath] holds no
    backslash, and it is the path [path.resolve] gives whenever that one
    holds none. *)
Theorem resolved_path_has_no_backslash pathResolve file basePath :
  ¬ Str.occurs "\" (Utils.resolvePath pathResolve file basePath)
  ∧ (¬ Str.occurs "\" (pathResolve basePath file) →
     Utils.resolvePath pathResolve file basePath = pathResolve basePath file).
Proof.
  split; [by apply occurs_mapChars_replace|apply mapChars_replace_absent].
Qed.

(** A path of two segments joined by a slash. *)
Lemma resolved_path_has_no_backslash_witness :
  Utils.resolvePath (λ b f, b +:+ "/" +:+ f) "package.json" "/repo"
  = "/repo/package.json".
Proof.
  apply (proj2 (resolved_path_has_no_backslash (λ b f, b +:+ "/" +:+ f) "package.json" "/repo")).
  vm_compute. intuition discriminate.
Defined.

(** * The version package *)

Section VersionFacts.

Variable w : World.
Variable o : Version.Oracle.
Variable version : string.

Lemma syncFailures_cons d f chunk :
  Version.syncFailures w o d (f :: chunk)
  = match Version.start o d f with
    | inl e => [Version.mkFailure (dirname w f) e]
    | inr _ => []
    end ++ Version.syncFailures w o d chunk.
Proof. reflexivity. Qed.

Lemma pendingCalls_cons d f chunk :
  Version.pendingCalls o d (f :: chunk)
  = match Version.start o d f with
    | inl _ => []
    | inr packageInfo => [(f, packageInfo)]
    end ++ Version.pendingCalls o d chunk.
Proof. reflexivity. Qed.

Lemma asyncFailures_cons p pending :
  Version.asyncFailures w o version (p :: pending)
  = match Version.resume o version (fst p) (snd p) with
    | inl e => [Version.mkFailure (dirname w (fst p)) e]
    | inr _ => []
    end ++ Version.asyncFailures w o version pending.
Proof. reflexivity. Qed.

Lemma asyncFailures_app l1 l2 :
  Version.asyncFailures w o version (l1 ++ l2)
  = Version.asyncFailures w o version l1 ++ Version.asyncFailures w o version l2.
Proof. unfold Version.asyncFailures. apply bind_app. Qed.

Lemma foldl_startItem chunk st pending :
  foldl (Version.startItem w o) (st, pending) chunk
  = (Version.mkState (Version.disk st)
       (Version.errors st ++ Version.syncFailures w o (Version.disk st) chunk)
       (Version.processedFiles st),
     pending ++ Version.pendingCalls o (Version.disk st) chunk).
Proof.
  revert st pending. induction chunk as [|f chunk IH]; intros st pending.
  - simpl. rewrite !app_nil_r. by destruct st.
  - cbn [foldl]. unfold Version.startItem at 2. cbn [fst snd].
    rewrite syncFailures_cons, pendingCalls_cons.
    destruct (Version.start o (Version.disk st) f) as [e|packageInfo].
    + rewrite IH. cbn [Version.pushError Version.disk Version.errors Version.processedFiles].
      by rewrite <- !app_assoc.
    + rewrite IH. by rewrite <- !app_assoc.
Qed.

Lemma foldl_resumeItem_errors pending st :
  Version.errors (foldl (Version.resumeItem w o version) st pending)
  = Version.errors st ++ Version.asyncFailures w o version pending.
Proof.
  revert st. induction pending as [|p pending IH]; intros st.
  - simpl. by rewrite app_nil_r.
  - cbn [foldl]. rewrite IH, asyncFailures_cons. unfold Version.resumeItem.
    destruct (Version.resume o version p.1 p.2); cbn; by rewrite <- ?app_assoc.
Qed.

Lemma foldl_resumeItem_processed pending st :
  Version.processedFiles (foldl (Version.resumeItem w o version) st pending)
  = Version.processedFiles st.
Proof.
  revert st. induction pending as [|p pending IH]; intros st; [done|].
  cbn [foldl]. rewrite IH. unfold Version.resumeItem.
  by destruct (Version.resume o version p.1 p.2).
Qed.

(** A file that no pending call names is left alone. *)
Lemma foldl_resumeItem_frame pending st f :
  f ∉ pending.*1 →
  Version.disk (foldl (Version.resumeItem w o version) st pending) !! f
  = Version.disk st !! f.
Proof.
  revert st. induction pending as [|p pending IH]; intros st Hnot; [done|].
  cbn [foldl]. rewrite fmap_cons, not_elem_of_cons in Hnot. destruct Hnot as [Hne Hnot].
  rewrite IH by done. unfold Version.resumeItem.
  destruct (Version.resume o version p.1 p.2); [done|].
  cbn. by rewrite lookup_insert_ne.
Qed.

(** The file of a pending call holds what the call writes, when no other
    pending call names it. *)
Lemma foldl_resumeItem_written pending st f packageInfo :
  NoDup pending.*1 → (f, packageInfo) ∈ pending →
  Version.disk (foldl (Version.resumeItem w o version) st pending) !! f
  = match Version.resume o version f packageInfo with
    | inl _ => Version.disk st !! f
    | inr text => Some text
    end.
Proof.
  revert st. induction pending as [|p pending IH]; intros st Hnd Hin.
  - by apply elem_of_nil in Hin.
  - rewrite fmap_cons in Hnd. apply NoDup_cons in Hnd as [Hfresh Hnd].
    cbn [foldl]. apply elem_of_cons in Hin as [<-|Hin].
    + rewrite foldl_resumeItem_frame by done. unfold Version.resumeItem. cbn [fst snd].
      destruct (Version.resume o version f packageInfo); [done|].
      cbn. by rewrite lookup_insert_eq.
    + rewrite IH by done.
      assert (Hne : p.1 ≠ f).
      { intros <-. apply Hfresh. apply list_elem_of_fmap. by exists (p.1, packageInfo). }
      destruct (Version.resume o version f packageInfo); [|done].
      unfold Version.resumeItem. destruct (Version.resume o version p.1 p.2); [done|].
      cbn. by rewrite lookup_insert_ne.
Qed.

Lemma pendingCalls_fst d chunk f :
  f ∈ (Version.pendingCalls o d chunk).*1 → f ∈ chunk.
Proof.
  intros ([g info] & -> & Hin)%list_elem_of_fmap.
  apply list_elem_of_bind in Hin as (x & Hin & Hx).
  destruct (Version.start o d x); [by apply elem_of_nil in Hin|].
  apply list_elem_of_singleton in Hin. by injection Hin as -> _.
Qed.

Lemma pendingCalls_elem d chunk f packageInfo :
  (f, packageInfo) ∈ Version.pendingCalls o d chunk
  ↔ f ∈ chunk ∧ Version.start o d f = inr packageInfo.
Proof.
  unfold Version.pendingCalls. rewrite list_elem_of_bind. split.
  - intros (x & Hin & Hx). destruct (Version.start o d x) eqn:E; [by apply elem_of_nil in Hin|].
    apply list_elem_of_singleton in Hin. injection Hin as -> ->. done.
  - intros [Hin Hs]. exists f. rewrite Hs. split; [apply list_elem_of_here|done].
Qed.

Lemma pendingCalls_NoDup d chunk : NoDup chunk → NoDup (Version.pendingCalls o d chunk).*1.
Proof.
  induction 1 as [|f chunk Hfresh Hnd IH]; [constructor|].
  rewrite pendingCalls_cons.
  destruct (Version.start o d f); [done|].
  cbn. constructor; [|done]. intros Hin. by apply Hfresh, (pendingCalls_fst d).
Qed.

Lemma attempt_agree d1 d2 f :
  d1 !! f = d2 !! f → Version.attempt o version d1 f = Version.attempt o version d2 f.
Proof. intros H. unfold Version.attempt, Version.start. by rewrite H. Qed.

Lemma failures_split d chunk :
  Version.syncFailures w o d chunk ++ Version.asyncFailures w o version (Version.pendingCalls o d chunk)
  ≡ₚ chunk ≫= Version.failure w o version d.
Proof.
  induction chunk as [|f chunk IH]; [done|].
  rewrite syncFailures_cons, pendingCalls_cons. cbn [mbind list_bind].
  unfold Version.failure at 1, Version.attempt.
  destruct (Version.start o d f) as [e|packageInfo].
  - cbn. by rewrite IH.
  - rewrite asyncFailures_app, asyncFailures_cons. cbn [fst snd app].
    rewrite <- IH.
    destruct (Version.resume o version f packageInfo); cbn; [|done].
    by rewrite Permutation_middle.
Qed.

(** One chunk: its errors and what it leaves on the disk. *)
Lemma allSettled_errors chunk st :
  Version.errors (Version.allSettled w o version chunk st)
  = Version.errors st ++ Version.syncFailures w o (Version.disk st) chunk
    ++ Version.asyncFailures w o version (Version.pendingCalls o (Version.disk st) chunk).
Proof.
  unfold Version.allSettled. rewrite foldl_startItem. cbn [fst snd].
  rewrite foldl_resumeItem_errors. cbn. by rewrite <- app_assoc.
Qed.

Lemma allSettled_frame chunk st f :
  f ∉ chunk →
  Version.disk (Version.allSettled w o version chunk st) !! f = Version.disk st !! f.
Proof.
  intros Hnot. unfold Version.allSettled. rewrite foldl_startItem. cbn [fst snd].
  rewrite foldl_resumeItem_frame; [done|].
  cbn. intros Hin. by apply Hnot, (pendingCalls_fst (Version.disk st)).
Qed.

Lemma allSettled_target chunk st f :
  NoDup chunk → f ∈ chunk →
  Version.disk (Version.allSettled w o version chunk st) !! f
  = Version.target o version (Version.disk st) f.
Proof.
  intros Hnd Hin. unfold Version.allSettled. rewrite foldl_startItem. cbn [fst snd app].
  unfold Version.target, Version.attempt.
  destruct (Version.start o (Version.disk st) f) as [e|packageInfo] eqn:E.
  - rewrite foldl_resumeItem_frame; [done|].
    intros ([g info] & Hg & Hp)%list_elem_of_fmap. cbn in Hg. subst g.
    apply pendingCalls_elem in Hp as [_ Hp]. congruence.
  - rewrite (foldl_resumeItem_written _ _ f packageInfo).
    + by destruct (Version.resume o version f packageInfo).
    + by apply pendingCalls_NoDup.
    + by apply pendingCalls_elem.
Qed.

Lemma updateLoop_returns fuel packagesCopy st :
  (length packagesCopy ≤ fuel)%nat →
  is_Some (Version.updateLoop w o version fuel packagesCopy st).
Proof.
  revert packagesCopy st. induction fuel as [|k IH]; intros packagesCopy st Hlen.
  - destruct packagesCopy; [by eexists|simpl in Hlen; lia].
  - destruct packagesCopy as [|f rest]; [by eexists|].
    cbn [Version.updateLoop]. apply IH.
    pose proof (maxThreads_ge_2 w) as Hmax.
    rewrite splice_front by lia. cbn [snd]. rewrite length_drop.
    simpl length in *. lia.
Qed.

(** The loop keeps [I], which one chunk at a time establishes. *)
Lemma updateLoop_invariant (I : list string → Version.State → Prop) fuel packagesCopy st st' :
  (∀ chunk rest s, chunk ≠ [] → I (chunk ++ rest) s →
     I rest (Version.addProcessed (len chunk) (Version.allSettled w o version chunk s))) →
  I packagesCopy st →
  Version.updateLoop w o version fuel packagesCopy st = Some st' →
  I [] st'.
Proof.
  intros Hstep. revert packagesCopy st.
  induction fuel as [|k IH]; intros packagesCopy st HI Hrun.
  - destruct packagesCopy; [|done]. by injection Hrun as <-.
  - destruct packagesCopy as [|f rest]; [by injection Hrun as <-|].
    cbn [Version.updateLoop] in Hrun. pose proof (maxThreads_ge_2 w) as Hmax.
    rewrite splice_front in Hrun by lia. cbn [fst snd] in Hrun.
    eapply IH; [|exact Hrun]. apply Hstep.
    + destruct (Z.to_nat (maxThreads w)) eqn:E; [lia|done].
    + by rewrite take_drop.
Qed.

End VersionFacts.

Section VersionRun.

Variable w : World.
Variable o : Version.Oracle.
Variable version : string.

Lemma target_agree d1 d2 f :
  d1 !! f = d2 !! f → Version.target o version d1 f = Version.target o version d2 f.
Proof.
  intros H. unfold Version.target. rewrite (attempt_agree o version d1 d2 f H).
  by rewrite H.
Qed.

Lemma failure_agree d1 d2 l :
  (∀ f, f ∈ l → d1 !! f = d2 !! f) →
  l ≫= Version.failure w o version d1 = l ≫= Version.failure w o version d2.
Proof.
  induction l as [|f l IH]; intros H; [done|].
  rewrite !bind_cons. rewrite IH by (intros g Hg; apply H; by apply list_elem_of_further).
  unfold Version.failure.
  by rewrite (attempt_agree o version d1 d2 f (H f (list_elem_of_here _ _))).
Qed.

Lemma failure_length d f : (length (Version.failure w o version d f) ≤ 1)%nat.
Proof. unfold Version.failure. destruct (Version.attempt _ _ _ _); simpl; lia. Qed.

Lemma failure_file d f e : e ∈ Version.failure w o version d f → Version.file e = dirname w f.
Proof.
  unfold Version.failure. destruct (Version.attempt _ _ _ _); [|by intros ?%elem_of_nil].
  by intros ->%list_elem_of_singleton.
Qed.

Lemma updatePackageVersion_returns d packages :
  ∃ st, Version.updateLoop w o version (length packages) packages (Version.mkState d [] 0)
        = Some st
        ∧ Version.updatePackageVersion w o version d packages
          = Some (if len (Version.errors st) >? 0 then Version.VErrors (Version.errors st)
                  else Version.VFalse, Version.disk st).
Proof.
  destruct (updateLoop_returns w o version (length packages) packages
              (Version.mkState d [] 0)) as [st Hst]; [done|].
  exists st. split; [done|]. unfold Version.updatePackageVersion. by rewrite Hst.
Qed.

(** Without duplicates in the list, the loop processes every file on the
    disk it started from. *)
Lemma updateLoop_map d packages st :
  NoDup packages →
  Version.updateLoop w o version (length packages) packages (Version.mkState d [] 0)
  = Some st →
  (∀ f, f ∈ packages → Version.disk st !! f = Version.target o version d f)
  ∧ (∀ f, f ∉ packages → Version.disk st !! f = d !! f)
  ∧ Version.errors st ≡ₚ packages ≫= Version.failure w o version d.
Proof.
  intros Hnd Hrun.
  pose (I := λ (rest : list string) (s : Version.State),
          ∃ done, done ++ rest = packages
                  ∧ (∀ f, f ∈ done → Version.disk s !! f = Version.target o version d f)
                  ∧ (∀ f, f ∉ done → Version.disk s !! f = d !! f)
                  ∧ Version.errors s ≡ₚ done ≫= Version.failure w o version d).
  assert (Hfin : I [] st).
  { eapply (updateLoop_invariant w o version I); [|
      |exact Hrun].
    - intros chunk rest s _ (done & Hsplit & Hdone & Hframe & Herr).
      rewrite <- Hsplit in Hnd.
      apply NoDup_app in Hnd as (_ & Hdisj & Hnd').
      apply NoDup_app in Hnd' as (Hchunk & _ & _).
      assert (Hfresh : ∀ f, f ∈ chunk → f ∉ done).
      { intros f Hf Hd. apply (Hdisj f Hd). apply elem_of_app. by left. }
      exists (done ++ chunk). split; [by rewrite <- app_assoc|].
      cbn [Version.addProcessed Version.disk Version.errors]. split; [|split].
      + intros f [Hf|Hf]%elem_of_app.
        * rewrite allSettled_frame by (intros Hc; by apply (Hfresh f)). by apply Hdone.
        * rewrite allSettled_target by done. apply target_agree, Hframe. by apply Hfresh.
      + intros f Hf. rewrite not_elem_of_app in Hf. destruct Hf as [Hf1 Hf2].
        rewrite allSettled_frame by done. by apply Hframe.
      + rewrite allSettled_errors, failures_split, Herr, bind_app.
        apply Permutation_app_head.
        rewrite (failure_agree (Version.disk s) d chunk); [done|].
        intros f Hf. by apply Hframe, Hfresh.
    - exists []. split; [done|]. split; [by intros f ?%elem_of_nil|]. split; done. }
  destruct Hfin as (done & Hsplit & Hdone & Hframe & Herr).
  rewrite app_nil_r in Hsplit. subst done. done.
Qed.

Lemma failures_nil d packages :
  packages ≫= Version.failure w o version d = []
  ↔ ∀ f, f ∈ packages → ∃ text, Version.attempt o version d f = inr text.
Proof.
  induction packages as [|f l IH].
  - split; [by intros _ f ?%elem_of_nil|done].
  - rewrite bind_cons. split.
    + intros [H1 H2]%app_eq_nil g [->|Hg]%elem_of_cons.
      * unfold Version.failure in H1. destruct (Version.attempt _ _ _ _); [done|by eexists].
      * by apply IH.
    + intros H. apply app_nil. split.
      * destruct (H f (list_elem_of_here _ _)) as [text Ht].
        unfold Version.failure. by rewrite Ht.
      * apply IH. intros g Hg. apply H. by apply list_elem_of_further.
Qed.

Lemma updatePackageVersion_map d packages :
  NoDup packages →
  ∃ res d', Version.updatePackageVersion w o version d packages = Some (res, d')
    ∧ (∀ f, f ∈ packages → d' !! f = Version.target o version d f)
    ∧ (∀ f, f ∉ packages → d' !! f = d !! f)
    ∧ (res = Version.VFalse
       ↔ ∀ f, f ∈ packages → ∃ text, Version.attempt o version d f = inr text)
    ∧ (∀ l, res = Version.VErrors l → l ≡ₚ packages ≫= Version.failure w o version d).
Proof.
  intros Hnd. destruct (updatePackageVersion_returns d packages) as (st & Hloop & Hrun).
  destruct (updateLoop_map d packages st Hnd Hloop) as (Hin & Hout & Herr).
  eexists _, _. split; [exact Hrun|]. split; [done|]. split; [done|].
  rewrite <- failures_nil. unfold len.
  destruct (Version.errors st) as [|e l] eqn:E.
  - split; [|done]. split; [|done]. intros _.
    apply Permutation_nil_l in Herr. done.
  - simpl length. destruct (Z.gtb_spec (Z.of_nat (S (length l))) 0); [|lia].
    split.
    + split; [done|]. intros Hnil. rewrite Hnil in Herr.
      by apply Permutation_nil_r in Herr.
    + by intros l' [= <-].
Qed.

End VersionRun.

Section VersionAny.

Variable w : World.
Variable o : Version.Oracle.
Variable version : string.

Lemma resume_text f packageInfo text :
  Version.resume o version f packageInfo = inr text →
  ∃ packageInfo', Version.assignVersion o packageInfo version = Some packageInfo'
                  ∧ text = Version.jsonStringify o packageInfo'.
Proof.
  unfold Version.resume. destruct (Version.assignVersion _ _ _) as [info'|]; [|done].
  destruct (Version.writable o f); [|done]. intros [= <-]. by exists info'.
Qed.

Lemma resumeItem_keeps st p f :
  Version.carriesVersion o version (Version.disk st) f →
  Version.carriesVersion o version (Version.disk (Version.resumeItem w o version st p)) f.
Proof.
  intros Hc. unfold Version.resumeItem.
  destruct (Version.resume o version p.1 p.2) as [e|text] eqn:E; [done|].
  cbn. destruct (decide (p.1 = f)) as [<-|Hne].
  - destruct (resume_text _ _ _ E) as (info' & Ha & ->).
    exists p.2, info'. by rewrite lookup_insert_eq.
  - destruct Hc as (i & i' & Ha & Hl). exists i, i'. by rewrite lookup_insert_ne.
Qed.

Lemma foldl_resumeItem_keeps pending st f :
  Version.carriesVersion o version (Version.disk st) f →
  Version.carriesVersion o version
    (Version.disk (foldl (Version.resumeItem w o version) st pending)) f.
Proof.
  revert st. induction pending as [|p pending IH]; intros st Hc; [done|].
  cbn [foldl]. by apply IH, resumeItem_keeps.
Qed.

Lemma foldl_resumeItem_makes pending st f packageInfo text :
  (f, packageInfo) ∈ pending → Version.resume o version f packageInfo = inr text →
  Version.carriesVersion o version
    (Version.disk (foldl (Version.resumeItem w o version) st pending)) f.
Proof.
  revert st. induction pending as [|p pending IH]; intros st Hin Hres.
  - by apply elem_of_nil in Hin.
  - cbn [foldl]. apply elem_of_cons in Hin as [<-|Hin]; [|by apply IH].
    apply foldl_resumeItem_keeps. unfold Version.resumeItem. cbn [fst snd].
    rewrite Hres. destruct (resume_text _ _ _ Hres) as (info' & Ha & ->).
    exists packageInfo, info'. cbn. by rewrite lookup_insert_eq.
Qed.

Lemma allSettled_keeps chunk st f :
  Version.carriesVersion o version (Version.disk st) f →
  Version.carriesVersion o version (Version.disk (Version.allSettled w o version chunk st)) f.
Proof.
  intros Hc. unfold Version.allSettled. rewrite foldl_startItem. cbn [fst snd].
  by apply foldl_resumeItem_keeps.
Qed.

Lemma allSettled_carries chunk st f :
  Version.errors (Version.allSettled w o version chunk st) = [] → f ∈ chunk →
  Version.carriesVersion o version (Version.disk (Version.allSettled w o version chunk st)) f.
Proof.
  intros Herr Hin. rewrite allSettled_errors in Herr.
  apply app_nil in Herr as [_ Herr].
  pose proof (failures_split w o version (Version.disk st) chunk) as Hsplit.
  rewrite Herr in Hsplit. apply Permutation_nil_l in Hsplit.
  destruct (proj1 (failures_nil w o version _ _) (eq_sym Hsplit) f Hin) as [text Ht].
  unfold Version.attempt in Ht.
  destruct (Version.start o (Version.disk st) f) as [e|packageInfo] eqn:E; [done|].
  unfold Version.allSettled. rewrite foldl_startItem. cbn [fst snd app].
  apply (foldl_resumeItem_makes _ _ f packageInfo text); [|done].
  by apply pendingCalls_elem.
Qed.

(** What holds of the loop whatever the list. *)
Lemma updateLoop_any d packages st :
  Version.updateLoop w o version (length packages) packages (Version.mkState d [] 0)
  = Some st →
  (∀ f, f ∉ packages → Version.disk st !! f = d !! f)
  ∧ (length (Version.errors st) ≤ length packages)%nat
  ∧ (∀ e, e ∈ Version.errors st → ∃ f, f ∈ packages ∧ Version.file e = dirname w f)
  ∧ (Version.errors st = [] →
     ∀ f, f ∈ packages → Version.carriesVersion o version (Version.disk st) f).
Proof.
  intros Hrun.
  pose (I := λ (rest : list string) (s : Version.State),
          ∃ done, done ++ rest = packages
                  ∧ (∀ f, f ∉ done → Version.disk s !! f = d !! f)
                  ∧ (length (Version.errors s) ≤ length done)%nat
                  ∧ (∀ e, e ∈ Version.errors s →
                          ∃ f, f ∈ done ∧ Version.file e = dirname w f)
                  ∧ (Version.errors s = [] →
                     ∀ f, f ∈ done → Version.carriesVersion o version (Version.disk s) f)).
  assert (Hfin : I [] st).
  { eapply (updateLoop_invariant w o version I); [| |exact Hrun].
    - intros chunk rest s _ (done & Hsplit & Hframe & Hlen & Hfile & Hcar).
      exists (done ++ chunk). split; [by rewrite <- app_assoc|].
      cbn [Version.addProcessed Version.disk Version.errors].
      pose proof (failures_split w o version (Version.disk s) chunk) as Hperm.
      split; [|split; [|split]].
      + intros f Hf. rewrite not_elem_of_app in Hf. destruct Hf as [Hf1 Hf2].
        rewrite allSettled_frame by done. by apply Hframe.
      + rewrite allSettled_errors, !length_app, <- length_app.
        rewrite (Permutation_length Hperm).
        pose proof (length_bind_le (Version.failure w o version (Version.disk s)) chunk
                      (failure_length w o version (Version.disk s))).
        lia.
      + intros e. rewrite allSettled_errors. intros [He|He]%elem_of_app.
        * destruct (Hfile e He) as (f & Hf & Hd). exists f. split; [|done].
          apply elem_of_app. by left.
        * rewrite Hperm in He. apply list_elem_of_bind in He as (f & He & Hf).
          exists f. split; [apply elem_of_app; by right|].
          by apply (failure_file w o version (Version.disk s)).
      + intros Hnil f [Hf|Hf]%elem_of_app.
        * apply allSettled_keeps. apply Hcar; [|done].
          rewrite allSettled_errors in Hnil. by apply app_nil in Hnil as [? _].
        * by apply allSettled_carries.
    - exists []. split; [done|]. split; [done|]. split; [done|].
      split; [by intros e ?%elem_of_nil|by intros _ f ?%elem_of_nil]. }
  destruct Hfin as (done & Hsplit & Hframe & Hlen & Hfile & Hcar).
  rewrite app_nil_r in Hsplit. subst done. done.
Qed.

End VersionAny.

(** X17. [updatePackageVersion] always returns. It leaves every file
    outside the list as it was; a list of failures that it returns is not
    empty, no longer than the list of packages and names directories of
    listed packages only; and when it returns [false] every listed file holds
    the text of a value to which the version was assigned, duplicates in the
    list or not. *)
Theorem update_touches_only_listed_files w o version d packages :
  ∃ res d', Version.updatePackageVersion w o version d packages = Some (res, d')
    ∧ (∀ f, f ∉ packages → d' !! f = d !! f)
    ∧ (∀ l, res = Version.VErrors l →
            l ≠ [] ∧ (length l ≤ length packages)%nat
            ∧ ∀ e, e ∈ l → ∃ f, f ∈ packages ∧ Version.file e = dirname w f)
    ∧ (res = Version.VFalse →
       ∀ f, f ∈ packages → Version.carriesVersion o version d' f).
Proof.
  destruct (updatePackageVersion_returns w o version d packages) as (st & Hloop & Hrun).
  destruct (updateLoop_any w o version d packages st Hloop) as (Hframe & Hlen & Hfile & Hcar).
  eexists _, _. split; [exact Hrun|]. split; [done|]. unfold len.
  destruct (Version.errors st) as [|e l] eqn:E.
  - split; [done|]. intros _. by apply Hcar.
  - simpl length. destruct (Z.gtb_spec (Z.of_nat (S (length l))) 0); [|lia].
    split; [|done]. intros l' [= <-]. done.
Qed.

(** X18. On a list without duplicates the chunked, interleaved update is a
    map over the files: every listed file ends up as processing it alone on
    the initial disk leaves it, with the new text when nothing throws and
    untouched otherwise; every other file is as it was; the result is
    [false] exactly when no listed file throws, and a returned list holds
    exactly one entry for each file that throws. *)
Theorem update_is_a_map_over_the_files w o version d packages :
  NoDup packages →
  ∃ res d', Version.updatePackageVersion w o version d packages = Some (res, d')
    ∧ (∀ f, f ∈ packages → d' !! f = Version.target o version d f)
    ∧ (∀ f, f ∉ packages → d' !! f = d !! f)
    ∧ (res = Version.VFalse
       ↔ ∀ f, f ∈ packages → ∃ text, Version.attempt o version d f = inr text)
    ∧ (∀ l, res = Version.VErrors l → l ≡ₚ packages ≫= Version.failure w o version d).
Proof. apply updatePackageVersion_map. Qed.

(** Three listed files, the third of which does not parse. *)
Lemma update_is_a_map_over_the_files_witness :
  ∃ res d',
    Version.updatePackageVersion Examples.flakyChain VersionExamples.oracle "2.0.0"
      VersionExamples.disk ["a/package.json"; "b/package.json"; "c/package.json"]
    = Some (res, d')
    ∧ d' !! "a/package.json" = Some "A@2.0.0"
    ∧ d' !! "c/package.json" = Some "garbage"
    ∧ res ≠ Version.VFalse.
Proof.
  destruct (update_is_a_map_over_the_files Examples.flakyChain VersionExamples.oracle
              "2.0.0" VersionExamples.disk
              ["a/package.json"; "b/package.json"; "c/package.json"])
    as (res & d' & Hrun & Hin & _ & Hres & _).
  - apply (bool_decide_unpack _); vm_compute; exact I.
  - exists res, d'. split; [exact Hrun|]. split; [|split].
    + rewrite (Hin "a/package.json") by (apply (bool_decide_unpack _); vm_compute; exact I).
      vm_compute. reflexivity.
    + rewrite (Hin "c/package.json") by (apply (bool_decide_unpack _); vm_compute; exact I).
      vm_compute. reflexivity.
    + intros Hf. destruct (proj1 Hres Hf "c/package.json") as [text Ht].
      * apply (bool_decide_unpack _); vm_compute; exact I.
      * vm_compute in Ht. discriminate.
Defined.

(** X19. The exit code of the version command line on a list without
    duplicates: it is 1 exactly when every listed file was updated, and 0
    exactly when processing some listed file throws; without a version
    nothing runs and the code is 0. *)
Theorem version_exit_code_is_inverted w o version d packages :
  NoDup packages →
  Version.cliExitCode w o None d packages = Some 0
  ∧ (Version.cliExitCode w o (Some version) d packages = Some 1
     ↔ ∀ f, f ∈ packages → ∃ text, Version.attempt o version d f = inr text)
  ∧ (Version.cliExitCode w o (Some version) d packages = Some 0
     ↔ ∃ f e, f ∈ packages ∧ Version.attempt o version d f = inl e).
Proof.
  intros Hnd. split; [reflexivity|].
  destruct (updatePackageVersion_map w o version d packages Hnd)
    as (res & d' & Hrun & _ & _ & Hfalse & Herr).
  unfold Version.cliExitCode. rewrite Hrun. destruct res as [|l].
  - split; [split; [intros _; by apply Hfalse|done]|].
    split; [done|]. intros (f & e & Hf & He).
    destruct (proj1 Hfalse eq_refl f Hf) as [text Ht]. congruence.
  - split.
    + split; [done|]. intros Hall. by apply Hfalse in Hall.
    + split; [|done]. intros _.
      destruct (decide (packages ≫= Version.failure w o version d = [])) as [Hnil|Hne].
      * pose proof (proj1 (failures_nil w o version d packages) Hnil) as Hall.
        by apply Hfalse in Hall.
      * destruct (packages ≫= Version.failure w o version d) as [|e rest] eqn:E; [done|].
        assert (He : e ∈ packages ≫= Version.failure w o version d)
          by (rewrite E; apply list_elem_of_here).
        apply list_elem_of_bind in He as (f & He & Hf).
        unfold Version.failure in He.
        destruct (Version.attempt o version d f) as [e'|] eqn:Ea;
          [|by apply elem_of_nil in He].
        by exists f, e'.
Qed.

(** Every manifest is updated, and the code is 1. *)
Lemma version_exit_code_is_inverted_witness :
  Version.cliExitCode Examples.flakyChain VersionExamples.oracle (Some "2.0.0")
    VersionExamples.disk ["a/package.json"; "b/package.json"] = Some 1.
Proof.
  apply (version_exit_code_is_inverted Examples.flakyChain VersionExamples.oracle "2.0.0"
           VersionExamples.disk ["a/package.json"; "b/package.json"]).
  - apply (bool_decide_unpack _); vm_compute; exact I.
  - intros f Hf. apply elem_of_cons in Hf as [->|Hf].
    + eexists. vm_compute. reflexivity.
    + apply list_elem_of_singleton in Hf as ->. eexists. vm_compute. reflexivity.
Defined.

(** * The bundler *)

Lemma lastIndexOf_le pat s : Bundler.lastIndexOf pat s ≤ Z.of_nat (String.length s).
Proof.
  induction s as [|c s IH]; cbn [Bundler.lastIndexOf].
  - destruct (String.prefix pat EmptyString); simpl; lia.
  - destruct (Z.leb_spec 0 (Bundler.lastIndexOf pat s)).
    + simpl String.length. lia.
    + destruct (String.prefix pat (String c s)); simpl String.length; lia.
Qed.

Lemma endsWith_lastIndexOf c s :
  Bundler.endsWith (String c EmptyString) s = true →
  Bundler.lastIndexOf (String c EmptyString) s = Z.of_nat (String.length s) - 1.
Proof.
  induction s as [|x s IH]; [done|].
  cbn [Bundler.endsWith Bundler.lastIndexOf]. intros [Heq|Hend]%orb_true_iff.
  - apply String.eqb_eq in Heq. injection Heq as -> ->.
    cbn [Bundler.lastIndexOf]. rewrite prefix_char, bool_decide_true by done.
    reflexivity.
  - rewrite (IH Hend). destruct s as [|y s]; [done|].
    destruct (Z.leb_spec 0 (Z.of_nat (String.length (String y s)) - 1)).
    + simpl String.length. lia.
    + simpl String.length in *. lia.
Qed.

Lemma substringFrom_length s : Str.substringFrom s (Z.of_nat (String.length s)) = EmptyString.
Proof.
  unfold Str.substringFrom, Str.substring.
  rewrite Z.min_id, (Z.max_r 0) by lia. rewrite Z.max_id, Z.min_id, Z.sub_diag.
  reflexivity.
Qed.

(** X20. A regular expression in the [external] list of the bundler is
    always built with empty flags: a value of [--external] is turned into a
    pattern only when it ends with a slash, so that what follows the closing
    slash of a pattern is never read as flags. *)
Theorem external_patterns_have_no_flags external :
  Forall (λ e, match e with
               | Bundler.Pattern _ flags => flags = EmptyString
               | Bundler.Name _ => True
               end) (Bundler.externals external).
Proof.
  unfold Bundler.externals. apply Forall_app. split; [|by repeat constructor].
  destruct external as [[s| | |]|]; try by constructor.
  destruct (Bundler.startsWith "/" s && Bundler.endsWith "/" s) eqn:E.
  - apply andb_true_iff in E as [_ Hend]. constructor; [|constructor].
    rewrite (endsWith_lastIndexOf _ _ Hend).
    replace (Z.of_nat (String.length s) - 1 + 1) with (Z.of_nat (String.length s)) by lia.
    apply substringFrom_length.
  - apply Forall_fmap, Forall_true. done.
Qed.

